(** * Decomposition-based time-series augmentation operators

    A shallow embedding of [fdda/dshuffle.py] ([dominant_shuffle]),
    [fdda/staug.py] ([emd_augmentation], [mix_augmentation]) and
    [pdda/augments/wave_aug.py] ([WaveAug.augment], [WaveAug.augment_multi]),
    and the properties of these operators.

    - Array elements are IEEE-754 binary64 values ([spec_float] with
      precision 53 and maximal exponent 1024); the operations on them are
      the Standard Library's executable specification of IEEE arithmetic,
      so NaN, the infinities and the two zeros are there.
    - An [ndarray] carries its dtype, its shape and its elements in numpy's
      row-major order.  An element of an integer array is kept as the
      binary64 value of the integer, which is what every transform and every
      product with a Python float makes of it.  The arithmetic of the
      [fdda] operators is that of float64 arrays; statements about the
      values they return are made for signals of dtype float64, and on an
      integer array the in-place addition of the offset raises.
    - Python exceptions are values of [exn]; the process-wide random
      generator is an explicit state threaded through every operator.
    - The transform libraries (numpy.fft, PyEMD, PyWavelets) and numpy's
      argsort are interfaces ([Numpy], [PyEMD], [PyWavelets]); what is
      assumed of them is stated in [NumpyLaws], [PyEMDLaws] and
      [PyWaveletsLaws], and a theorem takes the laws it needs as
      hypotheses.

    The definitions come first, the properties after them. *)

From Stdlib Require Import ZArith List Bool Lia Sorted.
From Stdlib Require Import Floats.SpecFloat.
From stdpp Require Import base list.

(** ** Floating-point scalars *)

Abbreviation float64 := spec_float.

Module F64.
Definition prec : Z := 53.
Definition emax : Z := 1024.

Definition add : float64 -> float64 -> float64 := SFadd prec emax.
Definition sub : float64 -> float64 -> float64 := SFsub prec emax.
Definition mul : float64 -> float64 -> float64 := SFmul prec emax.
Definition ltb : float64 -> float64 -> bool := SFltb.
Definition leb : float64 -> float64 -> bool := SFleb.
Definition eqb : float64 -> float64 -> bool := SFeqb.

Definition zero : float64 := S754_zero false.
Definition neg_zero : float64 := S754_zero true.
Definition one : float64 := Eval vm_compute in SFone prec emax.
Definition two : float64 := Eval vm_compute in add one one.
Definition nan : float64 := S754_nan.

Definition is_nan (x : float64) : bool :=
  match x with S754_nan => true | _ => false end.

(** Correctly rounded conversion of an integer, and of [m * 2^e]. *)
Definition of_Z (z : Z) : float64 := binary_normalize prec emax z 0 false.
Definition ldexp (m e : Z) : float64 := binary_normalize prec emax m e false.
Definition half : float64 := Eval vm_compute in ldexp 1 (-1).

(** binary64 -> binary32, round to nearest even: the value stored when a
    double is written into a [float32] array. *)
Definition to_f32 (x : float64) : float64 :=
  match x with
  | S754_finite s m e => binary_round 24 128 s m e
  | _ => x
  end.

(** binary64 -> int64, truncation towards zero: the value stored when a
    double is written into an integer array, as the binary64 value of that
    integer.  What the cast makes of a NaN, of an infinity or of a value
    beyond the int64 range is left to the platform; the smallest int64
    stands for it. *)
Definition to_int64 (x : float64) : float64 :=
  match x with
  | S754_zero _ => zero
  | S754_finite s m e =>
      let z := cond_Zopp s (Z.shiftl (Zpos m) e) in
      if ((- 2 ^ 63 <=? z) && (z <? 2 ^ 63))%Z then of_Z z else of_Z (- 2 ^ 63)
  | _ => of_Z (- 2 ^ 63)
  end.
End F64.

(** ** Exceptions and the operator monad *)

Inductive exn : Type :=
| ShapeMismatch   (* ValueError("Input signals must have the same shape") *)
| ShapeError      (* ValueError: [t, f = a.shape] on a shape that is not a pair *)
| BroadcastError  (* ValueError: could not broadcast input array into shape *)
| ValueError      (* any other ValueError raised by numpy or a builtin *)
| IndexError
| OverflowError
| UFuncTypeError. (* numpy's UFuncTypeError: Cannot cast ufunc 'add' output
                     from dtype('float64') to dtype('int64') *)

Inductive result (A : Type) : Type :=
| Ok (a : A)
| Raise (e : exn).
Arguments Ok {A} a.
Arguments Raise {A} e.

(** State of numpy's global generator: the answers it will give, and how
    many have been consumed. *)
Record rng : Type := mk_rng {
  rng_nat : nat -> nat;        (* raw integer draws *)
  rng_float : nat -> float64;  (* raw floating-point draws *)
  rng_pos : nat
}.

Definition advance (g : rng) : rng :=
  {| rng_nat := rng_nat g; rng_float := rng_float g; rng_pos := S (rng_pos g) |}.

Definition M (A : Type) : Type := rng -> result (A * rng).

Definition ret {A} (a : A) : M A := fun g => Ok (a, g).
Definition raise {A} (e : exn) : M A := fun _ => Raise e.
Definition bind {A B} (m : M A) (f : A -> M B) : M B :=
  fun g => match m g with
           | Ok (a, g') => f a g'
           | Raise e => Raise e
           end.
Definition lift {A} (r : result A) : M A :=
  fun g => match r with Ok a => Ok (a, g) | Raise e => Raise e end.

Declare Scope op_scope.
Delimit Scope op_scope with op.
Notation "x <- m ;; k" := (bind m (fun x => k))
  (at level 100, m at next level, right associativity) : op_scope.

(** [for x in xs: s = body(x, s)]. *)
Fixpoint for_each {A S} (xs : list A) (body : A -> S -> M S) (s : S) : M S :=
  match xs with
  | [] => ret s
  | x :: xs' => (s' <- body x s ;; for_each xs' body s')%op
  end.

(** ** Python builtins *)

(** [float(n)] for an int [n]; ints beyond the binary64 range raise. *)
Definition py_float_of_int (n : Z) : result float64 :=
  match F64.of_Z n with
  | S754_infinity _ | S754_nan => Raise OverflowError
  | x => Ok x
  end.

(** [int(x)] for a float [x]: truncation towards zero. *)
Definition py_int_of_float (x : float64) : result Z :=
  match x with
  | S754_zero _ => Ok 0%Z
  | S754_finite s m e => Ok (cond_Zopp s (Z.shiftl (Zpos m) e))
  | S754_infinity _ => Raise OverflowError
  | S754_nan => Raise ValueError
  end.

(** [int(n * x)] for an int [n] and a float [x]. *)
Definition py_int_of_product (n : nat) (x : float64) : result Z :=
  match py_float_of_int (Z.of_nat n) with
  | Ok f => py_int_of_float (F64.mul f x)
  | Raise e => Raise e
  end.

(** [l[i]] with Python's negative indices. *)
Definition py_index {A} (l : list A) (i : Z) : result A :=
  let k := if (i <? 0)%Z then (i + Z.of_nat (length l))%Z else i in
  if (k <? 0)%Z then Raise IndexError
  else match l !! Z.to_nat k with
       | Some x => Ok x
       | None => Raise IndexError
       end.

(** Normalisation of a slice bound against a length, as [slice.indices]
    does for a positive step. *)
Definition slice_bound (len : nat) (k : Z) : nat :=
  if (k <? 0)%Z then Z.to_nat (Z.max 0 (k + Z.of_nat len))
  else Nat.min (Z.to_nat k) len.

(** [l[:k]] and [l[k:]]. *)
Definition slice_to {A} (k : Z) (l : list A) : list A := take (slice_bound (length l) k) l.
Definition slice_from {A} (k : Z) (l : list A) : list A := drop (slice_bound (length l) k) l.

(** ** numpy arrays *)

(** [Int64] is numpy's default integer dtype; the operators treat the
    other integer dtypes as they treat this one. *)
Inductive dtype : Type := Float32 | Float64 | Int64.

#[global] Instance dtype_eq_dec : EqDecision dtype.
Proof. solve_decision. Defined.

Record ndarray : Type := mk_ndarray {
  nd_dtype : dtype;
  shape : list nat;
  data : list float64   (* row-major *)
}.

Definition size_of (sh : list nat) : nat := foldr Nat.mul 1 sh.
Definition ndim (a : ndarray) : nat := length (shape a).

(** The elements fill the shape. *)
Definition well_formed (a : ndarray) : Prop := length (data a) = size_of (shape a).

(** [a.reshape(-1, 1)] *)
Definition reshape_column (a : ndarray) : ndarray :=
  {| nd_dtype := nd_dtype a; shape := [size_of (shape a); 1]; data := data a |}.

(** [a.flatten()] *)
Definition flatten (a : ndarray) : ndarray :=
  {| nd_dtype := nd_dtype a; shape := [size_of (shape a)]; data := data a |}.

(** [t, f = a.shape] *)
Definition unpack_shape (sh : list nat) : result (nat * nat) :=
  match sh with
  | [t; f] => Ok (t, f)
  | _ => Raise ShapeError
  end.

Definition shape_eqb (s1 s2 : list nat) : bool := bool_decide (s1 = s2).

Definition map_data (f : float64 -> float64) (a : ndarray) : ndarray :=
  {| nd_dtype := nd_dtype a; shape := shape a; data := f <$> data a |}.

(** The elements of [a += offset] on a float64 array. *)
Definition add_offset (a : ndarray) (offset : float64) : ndarray :=
  map_data (fun x => F64.add x offset) a.

(** [np.clip(a, lo, hi)] on one element.  With both bounds numpy runs its
    clip kernel, [min(max(x, lo), hi)] in which a NaN [x] is returned as it
    is; with one bound absent it calls [np.maximum] / [np.minimum]. *)
Definition clip_kernel (lo hi x : float64) : float64 :=
  let y := if F64.is_nan x then x else if F64.ltb lo x then x else lo in
  if F64.is_nan y then y else if F64.ltb y hi then y else hi.
Definition np_maximum (x y : float64) : float64 :=
  if F64.leb y x || F64.is_nan x then x else y.
Definition np_minimum (x y : float64) : float64 :=
  if F64.leb x y || F64.is_nan x then x else y.

Definition clip1 (lo hi : option float64) (x : float64) : float64 :=
  match lo, hi with
  | Some l, Some h => clip_kernel l h x
  | Some l, None => np_maximum x l
  | None, Some h => np_minimum x h
  | None, None => x
  end.

(** [np.clip(a, clip_min, clip_max)] *)
Definition np_clip (a : ndarray) (lo hi : option float64) : ndarray :=
  map_data (clip1 lo hi) a.

(** The post-processing shared by the three [fdda] operators, on a
    floating-point array: [a += offset] and then
    [if clip_min is not None or clip_max is not None: a = np.clip(...)]. *)
Definition offset_then_clip (a : ndarray) (offset : float64)
    (clip_min clip_max : option float64) : ndarray :=
  let a := add_offset a offset in
  match clip_min, clip_max with
  | None, None => a
  | _, _ => np_clip a clip_min clip_max
  end.

(** The same statements on an array of any dtype.  [offset] is a Python
    float, so the sum is a float64 array, and the in-place [a += offset]
    has to cast it back into [a]: numpy refuses that for an integer [a],
    whatever the offset is, 0.0 included. *)
Definition post_process (a : ndarray) (offset : float64)
    (clip_min clip_max : option float64) : result ndarray :=
  match nd_dtype a with
  | Int64 => Raise UFuncTypeError
  | Float32 | Float64 => Ok (offset_then_clip a offset clip_min clip_max)
  end.

(** ** The random generator's entry points *)

Definition draw_nat : M nat := fun g => Ok (rng_nat g (rng_pos g), advance g).
Definition draw_float : M float64 := fun g => Ok (rng_float g (rng_pos g), advance g).

(** [np.random.choice(a)]: one element of [a], at a drawn position. *)
Definition random_choice (a : list nat) : M nat :=
  match a with
  | [] => raise ValueError
  | _ => (k <- draw_nat ;; ret (nth (k mod length a) a 0))%op
  end.

(** [np.random.rand()] *)
Definition random_rand : M float64 := draw_float.

(** [np.random.rand(n)] and [np.random.uniform(0, 1, (n,))] *)
Fixpoint random_sample (n : nat) : M (list float64) :=
  match n with
  | 0 => ret []
  | S n' => (u <- draw_float ;; us <- random_sample n' ;; ret (u :: us))%op
  end.

(** [np.random.beta(a, b)]: numpy rejects a parameter that is [<= 0]. *)
Definition random_beta (a b : float64) : M float64 :=
  if F64.leb a F64.zero || F64.leb b F64.zero then raise ValueError
  else draw_float.

(** ** Two-dimensional buffers

    Every operator walks a (T, F) array column by column, so the buffers
    local to an operator are kept as the list of their F columns.
    [columns] reads the columns out of numpy's row-major layout and
    [of_columns] writes them back. *)

Abbreviation matrix A := (list (list A)).

(** [a[:, i]] for [a] of shape (T, F) *)
Definition column (a : ndarray) (T F i : nat) : list float64 :=
  (fun t => nth (t * F + i) (data a) F64.zero) <$> seq 0 T.

Definition columns (a : ndarray) (T F : nat) : matrix float64 :=
  (fun i => column a T F i) <$> seq 0 F.

Definition row_of (cols : matrix float64) (t : nat) : list float64 :=
  (fun c => nth t c F64.zero) <$> cols.

Definition of_columns (dt : dtype) (T : nat) (cols : matrix float64) : ndarray :=
  {| nd_dtype := dt; shape := [T; length cols];
     data := concat (row_of cols <$> seq 0 T) |}.

(** [m.shape[0]] of a buffer with at least one column. *)
Definition n_rows {A} (m : matrix A) : nat :=
  match m with
  | [] => 0
  | c :: _ => length c
  end.

(** [m[:, i]] *)
Definition matrix_column {A} (m : matrix A) (i : nat) : list A := default [] (m !! i).

(** [m[k, i]] *)
Definition matrix_get {A} (m : matrix A) (k i : nat) : result A :=
  match matrix_column m i !! k with
  | Some v => Ok v
  | None => Raise IndexError
  end.

(** [m[k, i] = v] *)
Definition matrix_set {A} (m : matrix A) (k i : nat) (v : A) : result (matrix A) :=
  if bool_decide (i < length m /\ k < length (matrix_column m i))
  then Ok (<[i := <[k := v]> (matrix_column m i)]> m)
  else Raise IndexError.

(** The value stored when a double is written into an array of dtype [dt]. *)
Definition store (dt : dtype) (x : float64) : float64 :=
  match dt with
  | Float32 => F64.to_f32 x
  | Float64 => x
  | Int64 => F64.to_int64 x
  end.

(** numpy's broadcasting of one-dimensional operands: lengths agree when
    they are equal or one of them is 1. *)
Definition broadcast_length (n1 n2 : nat) : result nat :=
  if n1 =? n2 then Ok n1
  else if n1 =? 1 then Ok n2
  else if n2 =? 1 then Ok n1
  else Raise BroadcastError.

Definition broadcast_to {A} (n : nat) (v : list A) : result (list A) :=
  if length v =? n then Ok v
  else match v with
       | [x] => Ok (replicate n x)
       | _ => Raise BroadcastError
       end.

(** [buf[:, i] = v] for a (T, F) buffer of dtype [dt]: [v] is broadcast to
    length T and its elements are converted to [dt]. *)
Definition set_column (dt : dtype) (T : nat) (buf : matrix float64) (i : nat)
    (v : list float64) : result (matrix float64) :=
  if bool_decide (length buf <= i) then Raise IndexError
  else match broadcast_to T v with
       | Ok v' => Ok (<[i := store dt <$> v']> buf)
       | Raise e => Raise e
       end.

(** [np.zeros_like] / [np.empty_like] of a (T, F) array.  What
    [np.empty_like] leaves in the buffer is unspecified; zeros stand for
    it. *)
Definition zeros (T F : nat) : matrix float64 := replicate F (replicate T F64.zero).

(** ** The libraries *)

(** numpy's transforms, per column (every call in the source is along
    axis 0). *)
Class Numpy : Type := {
  complex : Type;
  np_abs : complex -> float64;
  np_fft_rfft : list float64 -> list complex;
  np_fft_irfft : list complex -> nat -> list float64;  (* irfft(X, n) *)
  np_argsort : list float64 -> list nat
}.

Class NumpyLaws (N : Numpy) : Prop := {
  rfft_length : forall x, x <> [] -> length (np_fft_rfft x) = length x / 2 + 1;
  irfft_length : forall X n, 0 < n -> length (np_fft_irfft X n) = n;
  argsort_perm : forall m, Permutation (np_argsort m) (seq 0 (length m))
}.

(** PyEMD: [EMD().emd(s, max_imf=n)] returns the modes as the rows of a
    two-dimensional array.  [emd] is the result of a call that returns; the
    solver raises on a signal of one sample, and a statement that
    [emd_augmentation] returns is to be read for the signals on which the
    solver does. *)
Class PyEMD : Type := {
  emd : list float64 -> Z -> matrix float64
}.

Class PyEMDLaws (E : PyEMD) : Prop := {
  emd_rows : forall s n, Forall (fun imf => length imf = length s) (emd s n)
}.

(** PyWavelets with [mode="symmetric"]; the wavelet is given by name.
    [wavedec] and [waverec] are the results of calls that return;
    [pywt.wavedec] raises on an empty signal and on a negative level, and a
    statement that a method of [WaveAug] returns is to be read for the
    signals and levels on which the transforms do. *)
Class PyWavelets : Type := {
  wavelet : Type;
  wavedec : list float64 -> wavelet -> Z -> matrix float64;
  waverec : matrix float64 -> wavelet -> list float64
}.

Class PyWaveletsLaws (W : PyWavelets) : Prop := {
  (* the lengths of the coefficient arrays depend on the length of the
     signal, the wavelet and the level only *)
  wavedec_lengths : forall x y w l,
    length x = length y -> length <$> wavedec x w l = length <$> wavedec y w l;
  (* coefficient arrays of the lengths of a decomposition of [x]
     reconstruct to at least [len(x)] samples *)
  waverec_length : forall x w l cs,
    length <$> cs = length <$> wavedec x w l -> length x <= length (waverec cs w)
}.

(** ** [fdda/dshuffle.py] *)

Section DominantShuffle.
Context {N : Numpy}.

(** [np.fft.rfft(signal, axis=0)]; numpy refuses an empty axis. *)
Definition rfft_columns (T : nat) (cols : matrix float64) : result (matrix complex) :=
  if T =? 0 then Raise ValueError else Ok (np_fft_rfft <$> cols).

(** [np.abs(signal_f[1:])] *)
Definition magnitudes (signal_f : matrix complex) : matrix float64 :=
  (fun c => np_abs <$> drop 1 c) <$> signal_f.

(** [np.argsort(magnitude, axis=0)[-int(rate):, :] + 1] *)
Definition top_k (magnitude : matrix float64) (rate : Z) : matrix nat :=
  (fun m => S <$> slice_from (- rate) (np_argsort m)) <$> magnitude.

(** The body of the inner loop:
    [idx = topk_indices[j, i]],
    [random_idx = np.random.choice(topk_indices[:, i])],
    [new_signal_f[idx, i] = signal_f[random_idx, i]]. *)
Definition shuffle_step (signal_f : matrix complex) (topk_indices : matrix nat)
    (i j : nat) (new_signal_f : matrix complex) : M (matrix complex) :=
  (idx <- lift (matrix_get topk_indices j i) ;;
   random_idx <- random_choice (matrix_column topk_indices i) ;;
   v <- lift (matrix_get signal_f random_idx i) ;;
   lift (matrix_set new_signal_f idx i v))%op.

Definition shuffle (signal_f : matrix complex) (topk_indices : matrix nat)
    (features : nat) : M (matrix complex) :=
  let new_signal_f := signal_f in
  for_each (seq 0 features)
    (fun i new_signal_f =>
       for_each (seq 0 (n_rows topk_indices))
         (shuffle_step signal_f topk_indices i) new_signal_f)
    new_signal_f.

Definition dominant_shuffle (signal : ndarray) (rate : Z)
    (clip_min clip_max : option float64) (offset : float64) : M ndarray :=
  let original_shape := shape signal in
  let signal := if ndim signal =? 1 then reshape_column signal else signal in
  (tf <- lift (unpack_shape (shape signal)) ;;
   let '(time_steps, features) := tf in
   signal_f <- lift (rfft_columns time_steps (columns signal time_steps features)) ;;
   let magnitude := magnitudes signal_f in
   let topk_indices := top_k magnitude rate in
   new_signal_f <- shuffle signal_f topk_indices features ;;
   let augmented_signal :=
     of_columns Float64 time_steps
       ((fun c => np_fft_irfft c time_steps) <$> new_signal_f) in
   let augmented_signal := offset_then_clip augmented_signal offset clip_min clip_max in
   let augmented_signal :=
     if length original_shape =? 1 then flatten augmented_signal else augmented_signal in
   ret augmented_signal)%op.
End DominantShuffle.

(** ** [fdda/staug.py]: [emd_augmentation] *)

Section EMDAugmentation.
Context {E : PyEMD}.

(** [np.sum(weights[:, np.newaxis] * IMF, axis=0)]: the modes are scaled
    by their weights and the rows are added up from the first one. *)
Definition weighted_sum (weights : list float64) (IMF : matrix float64) : list float64 :=
  match zip_with (fun w imf => F64.mul w <$> imf) weights IMF with
  | [] => []
  | r :: rs => fold_left (zip_with F64.add) rs r
  end.

(** [2 * np.random.rand(len(IMF))] or [np.ones(len(IMF))], on one draw of
    [np.random.rand()]. *)
Definition draw_weights (random_weight_prob : float64) (n : nat) : M (list float64) :=
  (u <- random_rand ;;
   if F64.ltb u random_weight_prob
   then (us <- random_sample n ;; ret (F64.mul F64.two <$> us))
   else ret (replicate n F64.one))%op.

(** The body of the loop over the feature columns. *)
Definition emd_column (signal : ndarray) (time_steps features : nat)
    (n_imf : Z) (random_weight_prob imf_rate : float64)
    (i : nat) (augmented_signal : matrix float64) : M (matrix float64) :=
  let s := column signal time_steps features i in
  let IMF := emd s n_imf in
  if length IMF =? 0
  then lift (set_column (nd_dtype signal) time_steps augmented_signal i s)
  else
    (n <- lift (py_int_of_product (length IMF) imf_rate) ;;
     let n_imf_use := Z.max 1 n in
     let IMF := slice_to n_imf_use IMF in
     weights <- draw_weights random_weight_prob (length IMF) ;;
     lift (set_column (nd_dtype signal) time_steps augmented_signal i
             (weighted_sum weights IMF)))%op.

Definition emd_augmentation (signal : ndarray) (n_imf : Z)
    (random_weight_prob imf_rate : float64)
    (clip_min clip_max : option float64) (offset : float64) : M ndarray :=
  let original_shape := shape signal in
  let signal := if ndim signal =? 1 then reshape_column signal else signal in
  (tf <- lift (unpack_shape (shape signal)) ;;
   let '(time_steps, features) := tf in
   let augmented_signal := zeros time_steps features in
   augmented_signal <-
     for_each (seq 0 features)
       (emd_column signal time_steps features n_imf random_weight_prob imf_rate)
       augmented_signal ;;
   let augmented_signal := of_columns (nd_dtype signal) time_steps augmented_signal in
   augmented_signal <- lift (post_process augmented_signal offset clip_min clip_max) ;;
   let augmented_signal :=
     if length original_shape =? 1 then flatten augmented_signal else augmented_signal in
   ret augmented_signal)%op.
End EMDAugmentation.

(** ** [fdda/staug.py]: [mix_augmentation] *)

(** [a.shape[0]] *)
Definition shape0 (a : ndarray) : result nat :=
  match shape a with
  | [] => Raise IndexError
  | n :: _ => Ok n
  end.

(** Number of elements of the leading [k] rows: the extent of [a[:k]] in
    the row-major data. *)
Definition rows_extent (a : ndarray) (k : Z) : nat :=
  slice_bound (hd 0 (shape a)) k * size_of (tail (shape a)).

(** [a[:k]] *)
Definition rows_to (a : ndarray) (k : Z) : list float64 :=
  take (rows_extent a k) (data a).

(** [a[:k] = v] for [v] of the shape of [a[:k]]; the elements of [v] are
    converted to the dtype of [a]. *)
Definition assign_rows_to (a : ndarray) (k : Z) (v : list float64) : ndarray :=
  {| nd_dtype := nd_dtype a; shape := shape a;
     data := (store (nd_dtype a) <$> v) ++ drop (rows_extent a k) (data a) |}.

(** [lam * x + (1 - lam) * y] elementwise. *)
Definition mixup (lam : float64) (x y : list float64) : list float64 :=
  zip_with (fun a b => F64.add (F64.mul lam a) (F64.mul (F64.sub F64.one lam) b)) x y.

Definition mix_augmentation (signal1 signal2 : ndarray)
    (alpha mix_rate : float64) (clip_min clip_max : option float64)
    (offset : float64) : M ndarray :=
  if negb (shape_eqb (shape signal1) (shape signal2)) then raise ShapeMismatch
  else
    (lam <- random_beta alpha alpha ;;
     time_steps <- lift (shape0 signal1) ;;
     mix_length <- lift (py_int_of_product time_steps mix_rate) ;;
     let mixed_signal := signal1 in
     let mixed_signal :=
       assign_rows_to mixed_signal mix_length
         (mixup lam (rows_to signal1 mix_length) (rows_to signal2 mix_length)) in
     lift (post_process mixed_signal offset clip_min clip_max))%op.

(** ** [pdda/augments/wave_aug.py]: the methods of class [WaveAug] *)

Module WaveAug.
Section Methods.
Context {W : PyWavelets}.

(** [np.where(m, a, b)] for [m] and [a] of one length; [b] takes part
    in the broadcasting. *)
Definition np_where (m : list bool) (a b : list float64) : result (list float64) :=
  match broadcast_length (length a) (length b) with
  | Raise e => Raise e
  | Ok n =>
      match broadcast_to n m, broadcast_to n a, broadcast_to n b with
      | Ok m', Ok a', Ok b' =>
          Ok (zip_with (fun c ab => if c : bool then fst ab else snd ab) m' (zip a' b'))
      | _, _, _ => Raise BroadcastError
      end
  end.

(** [np.where(m, 0, c)] *)
Definition mask_where (m : list bool) (c : list float64) : list float64 :=
  zip_with (fun b x => if b : bool then F64.zero else x) m c.

(** [rates[min(i, len(rates) - 1)]] *)
Definition select_rate (rates : list float64) (i : nat) : result float64 :=
  py_index rates (Z.min (Z.of_nat i) (Z.of_nat (length rates) - 1)).

(** [np.random.uniform(0, 1, c.shape) < selected_rate] *)
Definition random_mask (n : nat) (selected_rate : float64) : M (list bool) :=
  (u <- random_sample n ;; ret ((fun x => F64.ltb x selected_rate) <$> u))%op.

(** The body of the masking loop of [augment]:
    [coeffs[i] = np.where(m, 0, c_i)]. *)
Definition mask_step (rates : list float64) (i : nat)
    (coeffs : matrix float64) : M (matrix float64) :=
  (c_i <- lift (py_index coeffs (Z.of_nat i)) ;;
   selected_rate <- lift (select_rate rates i) ;;
   m <- random_mask (length c_i) selected_rate ;;
   ret (<[i := mask_where m c_i]> coeffs))%op.

(** [for i in range(1, len(coeffs))] *)
Definition mask_coeffs (rates : list float64) (coeffs : matrix float64) : M (matrix float64) :=
  for_each (seq 1 (length coeffs - 1)) (mask_step rates) coeffs.

(** The body of the loop over the feature columns of [augment]. *)
Definition augment_column (signal : ndarray) (time_steps num_features : nat)
    (rates : list float64) (wv : wavelet) (level : Z)
    (col : nat) (s_mask : matrix float64) : M (matrix float64) :=
  let coeffs := wavedec (column signal time_steps num_features col) wv level in
  (coeffs <- mask_coeffs rates coeffs ;;
   let s := waverec coeffs wv in
   lift (set_column Float32 time_steps s_mask col (slice_to (Z.of_nat time_steps) s)))%op.

Definition augment (signal : ndarray) (rates : list float64)
    (wv : wavelet) (level : Z) : M ndarray :=
  let original_shape := shape signal in
  let signal := if ndim signal =? 1 then reshape_column signal else signal in
  (tf <- lift (unpack_shape (shape signal)) ;;
   let '(time_steps, num_features) := tf in
   let s_mask := zeros time_steps num_features in
   s_mask <-
     for_each (seq 0 num_features)
       (augment_column signal time_steps num_features rates wv level) s_mask ;;
   let s_mask := of_columns Float32 time_steps s_mask in
   let s_mask := if length original_shape =? 1 then flatten s_mask else s_mask in
   ret s_mask)%op.

(** The body of the mixing loop of [augment_multi]:
    [mixed_coeffs.append(np.where(mask, c1, c2))]. *)
Definition mix_step (rates : list float64) (coeffs1 coeffs2 : matrix float64)
    (i : nat) (mixed_coeffs : matrix float64) : M (matrix float64) :=
  (c1 <- lift (py_index coeffs1 (Z.of_nat i)) ;;
   c2 <- lift (py_index coeffs2 (Z.of_nat i)) ;;
   selected_rate <- lift (select_rate rates i) ;;
   mask <- random_mask (length c1) selected_rate ;;
   mixed_c <- lift (np_where mask c1 c2) ;;
   ret (mixed_coeffs ++ [mixed_c]))%op.

Definition augment_multi_column (signal1 signal2 : ndarray)
    (time_steps num_features : nat)
    (rates : list float64) (wv : wavelet) (level : Z)
    (col : nat) (s_mixed : matrix float64) : M (matrix float64) :=
  let coeffs1 := wavedec (column signal1 time_steps num_features col) wv level in
  let coeffs2 := wavedec (column signal2 time_steps num_features col) wv level in
  (mixed_coeffs <-
     for_each (seq 0 (length coeffs1)) (mix_step rates coeffs1 coeffs2) [] ;;
   let s := waverec mixed_coeffs wv in
   lift (set_column Float32 time_steps s_mixed col (slice_to (Z.of_nat time_steps) s)))%op.

Definition augment_multi (signal1 signal2 : ndarray) (rates : list float64)
    (wv : wavelet) (level : Z) : M ndarray :=
  if negb (shape_eqb (shape signal1) (shape signal2)) then raise ShapeMismatch
  else
    let original_shape := shape signal1 in
    let reshaped := ndim signal1 =? 1 in
    let signal1 := if reshaped then reshape_column signal1 else signal1 in
    let signal2 := if reshaped then reshape_column signal2 else signal2 in
    (tf <- lift (unpack_shape (shape signal1)) ;;
     let '(time_steps, num_features) := tf in
     let s_mixed := zeros time_steps num_features in
     s_mixed <-
       for_each (seq 0 num_features)
         (augment_multi_column signal1 signal2 time_steps num_features rates wv level)
         s_mixed ;;
     let s_mixed := of_columns Float32 time_steps s_mixed in
     let s_mixed := if length original_shape =? 1 then flatten s_mixed else s_mixed in
     ret s_mixed)%op.
End Methods.
End WaveAug.

(** ** Predicates used in the statements *)

(** Closed interval of binary64 values. *)
Definition within (lo hi x : float64) : Prop :=
  F64.leb lo x = true /\ F64.leb x hi = true.


(** [x + 0.0]: every value but [-0.0] is unchanged. *)
Definition plus_zero (x : float64) : float64 :=
  match x with
  | S754_zero true => F64.zero
  | _ => x
  end.

(** The generator after [n] more draws. *)
Definition skip (n : nat) (g : rng) : rng :=
  {| rng_nat := rng_nat g; rng_float := rng_float g; rng_pos := n + rng_pos g |}.

(** [col] is the column [orig] of the spectrum after the shuffle of the
    bins [selected], the [j]-th replacement index being the bin at position
    [draw j mod len(selected)] of [selected]: every selected bin holds the
    ORIGINAL value of its replacement bin, every other bin is unchanged. *)
Definition shuffled_column {A} (orig : list A) (selected : list nat)
    (draw : nat -> nat) (col : list A) : Prop :=
  length col = length orig
  /\ (forall j, j < length selected ->
        col !! nth j selected 0
        = orig !! nth (draw j mod length selected) selected 0)
  /\ (forall idx, idx ∉ selected -> col !! idx = orig !! idx).

(** [a] is a signal of T time steps and F features: of shape (T, F), or of
    shape (T,) with F = 1. *)
Definition dims (a : ndarray) (T F : nat) : Prop :=
  shape a = [T; F] \/ (shape a = [T] /\ F = 1).

(** Number of bins that [dominant_shuffle] selects in a column of a signal
    of T time steps: the length of [argsort(...)[-rate:]] over the T/2
    bins after the DC bin. *)
Definition n_selected (T : nat) (rate : Z) : nat :=
  T / 2 - slice_bound (T / 2) (- rate).

(** [out] is the array [pre] with the offset added to every element and
    the sum clipped to [lo, hi]; every element of [out] is then a NaN or
    inside the interval. *)
Definition offset_then_clipped (lo hi offset : float64) (pre out : ndarray) : Prop :=
  data out = (fun x => clip_kernel lo hi (F64.add x offset)) <$> data pre
  /\ Forall (fun y => F64.is_nan y = true \/ within lo hi y) (data out).

(** A monadic computation that never raises [ShapeMismatch]. *)
Definition no_mismatch {A} (m : M A) : Prop := forall g, m g <> Raise ShapeMismatch.

(** ** Inputs used in the examples *)

(** [np.array(l)] and [np.array(l).reshape(t, f)], float64. *)
Definition vector (l : list float64) : ndarray := mk_ndarray Float64 [length l] l.
Definition array2 (t f : nat) (l : list float64) : ndarray := mk_ndarray Float64 [t; f] l.

(** [np.array(l)] for a list of Python ints: an integer array. *)
Definition int_vector (l : list Z) : ndarray :=
  mk_ndarray Int64 [length l] (F64.of_Z <$> l).

(** [np.array([1., 2., 3., 4., 5., 6.])] *)
Definition ramp6 : ndarray := vector (F64.of_Z <$> [1; 2; 3; 4; 5; 6]%Z).

(** [np.array([[1., 2.], [3., 4.], [5., 6.]])] *)
Definition grid32 : ndarray := array2 3 2 (F64.of_Z <$> [1; 2; 3; 4; 5; 6]%Z).

(** A generator whose integer draws count up and whose float draws are 0.5. *)
Definition g0 : rng := mk_rng (fun n => n) (fun _ => F64.half) 0.

(** ** Stand-ins for the libraries

    Executable instances of the library interfaces that meet the contracts
    above; the worked examples run the operators on them.  They are not
    the transforms themselves, and no theorem depends on which instance is
    used. *)

(** Indices sorted by their keys, by stable insertion; a NaN key compares
    below nothing and stays where it is met. *)
Fixpoint insert_sorted (key : nat -> float64) (i : nat) (l : list nat) : list nat :=
  match l with
  | [] => [i]
  | j :: l' =>
      if F64.ltb (key i) (key j) then i :: j :: l'
      else j :: insert_sorted key i l'
  end.

Definition insertion_argsort (m : list float64) : list nat :=
  fold_left (fun acc i => insert_sorted (fun k => nth k m F64.nan) i acc)
    (seq 0 (length m)) [].

(** [l] cut or zero-padded to length [n]. *)
Definition resize (n : nat) (l : list float64) : list float64 :=
  take n (l ++ replicate n F64.zero).

Definition stub_numpy : Numpy := {|
  complex := float64 * float64;
  np_abs := fun z => SFabs (fst z);
  np_fft_rfft := fun x => (fun a => (a, F64.zero)) <$> resize (length x / 2 + 1) x;
  np_fft_irfft := fun X n => resize n (fst <$> X);
  np_argsort := insertion_argsort
|}.

(** A solver that finds no mode in a signal that is zero everywhere and
    one mode, the signal itself, in any other. *)
Definition is_zero (s : list float64) : bool :=
  forallb (fun y => F64.eqb y F64.zero) s.

Definition stub_emd : PyEMD := {|
  emd := fun s _ => if is_zero s then [] else [s]
|}.

(** A one-level split of the samples into a first half (the
    approximation) and a second half (the detail), whatever the wavelet and
    the level; the reconstruction joins the arrays again. *)
Definition stub_pywt : PyWavelets := {|
  wavelet := unit;
  wavedec := fun x _ _ => [take (length x / 2) x; drop (length x / 2) x];
  waverec := fun cs _ => concat cs
|}.

(** ** The order of argsort

    [np.argsort] returns the indices in ascending order of their keys, a
    NaN key after every number: no key is smaller than a key that comes
    before it. *)
Class ArgsortLaws (N : Numpy) : Prop := {
  argsort_sorted : forall m i j a b ka kb,
    i < j -> np_argsort m !! i = Some a -> np_argsort m !! j = Some b ->
    m !! a = Some ka -> m !! b = Some kb -> F64.ltb kb ka = false
}.

(** ** Further notions used in the statements *)

(** The outcome of a call, with the returned array flattened. *)
Definition flatten_result (r : result (ndarray * rng)) : result (ndarray * rng) :=
  match r with
  | Ok (out, g') => Ok (flatten out, g')
  | Raise e => Raise e
  end.

(** The next [n] numbers that the generator gives. *)
Definition next_floats (g : rng) (n : nat) : list float64 :=
  (fun k => rng_float g (k + rng_pos g)) <$> seq 0 n.

(** [np.where(mask, c1, c2)] for three arrays of one length. *)
Definition where_ (mask : list bool) (c1 c2 : list float64) : list float64 :=
  zip_with (fun c ab => if c : bool then fst ab else snd ab) mask (zip c1 c2).

(** The rate that the wavelet operators use at level [i]:
    [rates[min(i, len(rates) - 1)]]. *)
Definition rate_at (rates : list float64) (i : nat) : float64 :=
  nth (Nat.min i (length rates - 1)) rates F64.nan.

(** A decomposition with every detail array set to zero. *)
Definition details_zeroed (coeffs : matrix float64) : matrix float64 :=
  take 1 coeffs ++ ((fun c => replicate (length c) F64.zero) <$> drop 1 coeffs).

(** Number of random numbers that the masking loop of [WaveAug.augment]
    has drawn when it comes to the detail array [i]: one for every
    coefficient of the detail arrays 1, ..., i - 1. *)
Definition draws_before (coeffs : matrix float64) (i : nat) : nat :=
  sum_list_with length (take (i - 1) (drop 1 coeffs)).

(** The values that a float32 array holds: the zeros, the infinities, NaN
    and the finite values [m * 2^e] in the canonical form of binary32, in
    which [m] has at most 24 bits and [e] is between -149 and 104. *)
Definition is_float32 (x : float64) : bool := valid_binary 24 128 x.

(** [r] is a value next to the number [(-1)^s * m * 2^e] in the format of
    precision [prec] and maximal exponent [emax]: it has the sign of the
    number and is away from it by half a unit in the last place at most.
    The unit is [2^e1], for the exponent [e1] that the format gives to the
    numbers of this magnitude, and the two numbers are compared as
    multiples of [2^c], where [c] is the smaller one of [e] and [e1].  A
    zero stands for a number of half the smallest unit at most, an
    infinity for a number whose unit is the largest one of the format or
    beyond it. *)
Definition nearest (prec emax : Z) (s : bool) (m : positive) (e : Z)
    (r : float64) : Prop :=
  let e1 := fexp prec emax (Z.pos (digits2_pos m) + e) in
  let c := Z.min e e1 in
  let x := (Z.pos m * 2 ^ (e - c))%Z in
  match r with
  | S754_zero s' => s' = s /\ (2 * x <= 2 ^ (e1 - c))%Z
  | S754_finite s' m' e' =>
      s' = s /\ (e1 <= e')%Z
      /\ (2 * Z.abs (x - Z.pos m' * 2 ^ (e' - c)) <= 2 ^ (e1 - c))%Z
  | S754_infinity s' => s' = s /\ (emax - prec <= e1)%Z
  | S754_nan => False
  end.

(** The same for binary32: 24 bits, exponents up to 104, infinities from
    [2^128] on. *)
Definition nearest_float32 : bool -> positive -> Z -> float64 -> Prop := nearest 24 128.

(** The shift record [mrs] of the rounding describes the integer [M]
    shifted right by [k] bits: its mantissa is the quotient, and its two
    bits say where the remainder is with respect to the half of [2^k]. *)
Definition represents (M k : Z) (mrs : shr_record) : Prop :=
  (0 <= shr_m mrs)%Z
  /\ (0 <= M - shr_m mrs * 2 ^ k < 2 ^ k)%Z
  /\ match shr_r mrs, shr_s mrs with
     | false, false => (M - shr_m mrs * 2 ^ k = 0)%Z
     | false, true => (0 < 2 * (M - shr_m mrs * 2 ^ k) < 2 ^ k)%Z
     | true, false => (2 * (M - shr_m mrs * 2 ^ k) = 2 ^ k)%Z
     | true, true => (2 ^ k < 2 * (M - shr_m mrs * 2 ^ k))%Z
     end.
(** * Properties *)

Import WaveAug.

(** ** The operator monad *)

Lemma bind_ok {A B} (m : M A) (f : A -> M B) g a g' :
  m g = Ok (a, g') -> bind m f g = f a g'.
Proof. unfold bind. intros ->. reflexivity. Qed.

Lemma bind_inv {A B} (m : M A) (f : A -> M B) g r :
  bind m f g = Ok r -> exists a g', m g = Ok (a, g') /\ f a g' = Ok r.
Proof.
  unfold bind. destruct (m g) as [[a g']|e]; [|discriminate].
  intros H. exists a, g'. split; [reflexivity|exact H].
Qed.

Lemma lift_ok {A} (r : result A) a g : r = Ok a -> lift r g = Ok (a, g).
Proof. intros ->. reflexivity. Qed.

(** [run H] steps over the first action of a sequence with the equation
    [H] of what it returns; [run_lift H] does so for a lifted result. *)
Tactic Notation "run" open_constr(H) := rewrite (bind_ok _ _ _ _ _ H).
Tactic Notation "run_lift" open_constr(H) :=
  rewrite (bind_ok _ _ _ _ _ (lift_ok _ _ _ H)).

Lemma lift_inv {A} (r : result A) g a g' :
  lift r g = Ok (a, g') -> r = Ok a /\ g' = g.
Proof. unfold lift. destruct r; [|discriminate]. intros [= -> ->]. auto. Qed.

Lemma ret_inv {A} (a : A) g b g' : ret a g = Ok (b, g') -> b = a /\ g' = g.
Proof. unfold ret. intros [= -> ->]. auto. Qed.

(** A loop over [range(start, start + n)] establishes an invariant indexed
    by the iteration when every iteration does. *)
Lemma for_each_seq_total {S} (P : nat -> S -> rng -> Prop) n :
  forall start (body : nat -> S -> M S) s g,
    P start s g ->
    (forall j s g, start <= j < start + n -> P j s g ->
       exists s' g', body j s g = Ok (s', g') /\ P (Datatypes.S j) s' g') ->
    exists s' g', for_each (seq start n) body s g = Ok (s', g') /\ P (start + n) s' g'.
Proof.
  induction n as [|n IH]; intros start body s g H0 Hstep; simpl.
  - exists s, g. rewrite Nat.add_0_r. auto.
  - destruct (Hstep start s g) as (s1 & g1 & Hb & H1); [lia|assumption|].
    run Hb.
    destruct (IH (Datatypes.S start) body s1 g1 H1) as (s' & g' & Hf & HP).
    + intros j s2 g2 Hj. apply Hstep. lia.
    + exists s', g'. split; [assumption|].
      replace (start + Datatypes.S n) with (Datatypes.S start + n) by lia. assumption.
Qed.

(** The same for the iterations that return, when some may raise. *)
Lemma for_each_seq_partial {S} (P : nat -> S -> rng -> Prop) n :
  forall start (body : nat -> S -> M S) s g s' g',
    for_each (seq start n) body s g = Ok (s', g') ->
    P start s g ->
    (forall j s g s' g', start <= j < start + n -> P j s g ->
       body j s g = Ok (s', g') -> P (Datatypes.S j) s' g') ->
    P (start + n) s' g'.
Proof.
  induction n as [|n IH]; intros start body s g s' g' Hf H0 Hstep; simpl in Hf.
  - apply ret_inv in Hf as [-> ->]. rewrite Nat.add_0_r. assumption.
  - apply bind_inv in Hf as (s1 & g1 & Hb & Hf).
    replace (start + Datatypes.S n) with (Datatypes.S start + n) by lia.
    apply (IH _ _ _ _ _ _ Hf).
    + apply (Hstep start s g); [lia|assumption|assumption].
    + intros j s2 g2 s3 g3 Hj. apply Hstep. lia.
Qed.

(** ** Floating-point facts *)

Lemma add_zero_r (x : float64) :
  F64.add x F64.zero = match x with S754_zero true => F64.zero | _ => x end.
Proof. destruct x as [[]|[]| |[] m e]; reflexivity. Qed.

Lemma compare_refl (x : float64) : F64.is_nan x = false -> SFcompare x x = Some Eq.
Proof.
  destruct x as [s|[]| |[] m e]; simpl; try reflexivity; try discriminate; intros _.
  - rewrite Z.compare_refl, Pos.compare_cont_refl. reflexivity.
  - rewrite Z.compare_refl, Pos.compare_cont_refl. reflexivity.
Qed.

Lemma leb_refl (x : float64) : F64.is_nan x = false -> F64.leb x x = true.
Proof. intros H. unfold F64.leb, SFleb. rewrite (compare_refl x H). reflexivity. Qed.

Lemma ltb_leb (x y : float64) : F64.ltb x y = true -> F64.leb x y = true.
Proof.
  unfold F64.ltb, F64.leb, SFltb, SFleb.
  destruct (SFcompare x y) as [[]|]; congruence.
Qed.

Lemma leb_not_nan (x y : float64) :
  F64.leb x y = true -> F64.is_nan x = false /\ F64.is_nan y = false.
Proof.
  unfold F64.leb, SFleb. destruct x as [| | |], y as [| | |]; simpl; auto; discriminate.
Qed.

(** The clip kernel puts every value that is not a NaN between the bounds. *)
Lemma clip_kernel_within (lo hi x : float64) :
  F64.leb lo hi = true -> F64.is_nan x = false -> within lo hi (clip_kernel lo hi x).
Proof.
  intros Hle Hx. destruct (leb_not_nan _ _ Hle) as [Hlo Hhi].
  unfold clip_kernel, within. rewrite Hx.
  destruct (F64.ltb lo x) eqn:H1.
  - rewrite Hx. destruct (F64.ltb x hi) eqn:H2.
    + split; apply ltb_leb; assumption.
    + split; [assumption|apply leb_refl; assumption].
  - rewrite Hlo. destruct (F64.ltb lo hi) eqn:H2.
    + split; [apply leb_refl; assumption|assumption].
    + split; [assumption|apply leb_refl; assumption].
Qed.

Lemma clip_kernel_nan (lo hi : float64) : clip_kernel lo hi F64.nan = F64.nan.
Proof. reflexivity. Qed.

(** ** Arrays and post-processing *)

Lemma slice_bound_le (len : nat) (k : Z) : slice_bound len k <= len.
Proof. unfold slice_bound. destruct (Z.ltb_spec k 0); lia. Qed.

Lemma slice_bound_0 (len : nat) : slice_bound len 0 = 0.
Proof. reflexivity. Qed.

Lemma slice_bound_pos (len : nat) (k : Z) :
  (0 <= k)%Z -> slice_bound len k = Nat.min (Z.to_nat k) len.
Proof. intros H. unfold slice_bound. destruct (k <? 0)%Z eqn:E; [lia|reflexivity]. Qed.

Lemma shape_offset_then_clip a offset lo hi :
  shape (offset_then_clip a offset lo hi) = shape a.
Proof. unfold offset_then_clip. destruct lo, hi; reflexivity. Qed.

Lemma dtype_offset_then_clip a offset lo hi :
  nd_dtype (offset_then_clip a offset lo hi) = nd_dtype a.
Proof. unfold offset_then_clip. destruct lo, hi; reflexivity. Qed.

(** The post-processing is one map over the elements: the offset is added
    first and the sum is clipped. *)
Lemma data_offset_then_clip a offset lo hi :
  data (offset_then_clip a offset lo hi)
  = (fun x => clip1 lo hi (F64.add x offset)) <$> data a.
Proof.
  unfold offset_then_clip.
  destruct lo, hi; simpl; rewrite <- ?list_fmap_compose; reflexivity.
Qed.

Lemma well_formed_offset_then_clip a offset lo hi :
  well_formed a -> well_formed (offset_then_clip a offset lo hi).
Proof.
  unfold well_formed.
  rewrite data_offset_then_clip, shape_offset_then_clip, length_fmap. auto.
Qed.

Lemma well_formed_flatten a : well_formed a -> well_formed (flatten a).
Proof. unfold well_formed. simpl. lia. Qed.

(** The post-processing returns on the floating-point arrays and on no
    other. *)
Lemma post_process_float a offset lo hi :
  nd_dtype a <> Int64 ->
  post_process a offset lo hi = Ok (offset_then_clip a offset lo hi).
Proof. unfold post_process. destruct (nd_dtype a); congruence. Qed.

Lemma post_process_int a offset lo hi :
  nd_dtype a = Int64 -> post_process a offset lo hi = Raise UFuncTypeError.
Proof. unfold post_process. intros ->. reflexivity. Qed.

Lemma post_process_inv a offset lo hi out :
  post_process a offset lo hi = Ok out ->
  nd_dtype a <> Int64 /\ out = offset_then_clip a offset lo hi.
Proof.
  unfold post_process. destruct (nd_dtype a); [| |discriminate];
    intros [= <-]; split; auto; discriminate.
Qed.

Lemma post_process_no_mismatch a offset lo hi :
  post_process a offset lo hi <> Raise ShapeMismatch.
Proof. unfold post_process. destruct (nd_dtype a); discriminate. Qed.

(** ** [mix_augmentation] *)

(** What a call of [mix_augmentation] that returns has computed. *)
Lemma mix_augmentation_inv signal1 signal2 alpha mix_rate lo hi offset g out g' :
  mix_augmentation signal1 signal2 alpha mix_rate lo hi offset g = Ok (out, g') ->
  exists time_steps mix_length,
    let lam := rng_float g (rng_pos g) in
    shape signal1 = shape signal2 /\
    F64.leb alpha F64.zero = false /\
    shape0 signal1 = Ok time_steps /\
    py_int_of_product time_steps mix_rate = Ok mix_length /\
    g' = advance g /\
    out = offset_then_clip
            (assign_rows_to signal1 mix_length
               (mixup lam (rows_to signal1 mix_length) (rows_to signal2 mix_length)))
            offset lo hi.
Proof.
  unfold mix_augmentation, shape_eqb. intros H.
  case_bool_decide as Hs; simpl in H; [|discriminate].
  apply bind_inv in H as (lam & g1 & Hlam & H).
  unfold random_beta in Hlam. rewrite orb_diag in Hlam.
  destruct (F64.leb alpha F64.zero) eqn:Ha; [discriminate|].
  injection Hlam as <- <-.
  apply bind_inv in H as (T & g2 & HT & H). apply lift_inv in HT as [HT ->].
  apply bind_inv in H as (k & g3 & Hk & H). apply lift_inv in Hk as [Hk ->].
  apply lift_inv in H as [H ->]. apply post_process_inv in H as [_ ->].
  exists T, k. simpl. repeat split; auto.
Qed.

(** A call of [mix_augmentation] that returns was given a floating-point
    [signal1]. *)
Lemma mix_augmentation_float signal1 signal2 alpha mix_rate lo hi offset g out g' :
  mix_augmentation signal1 signal2 alpha mix_rate lo hi offset g = Ok (out, g') ->
  nd_dtype signal1 <> Int64.
Proof.
  unfold mix_augmentation. intros H.
  destruct (negb _); [discriminate|].
  apply bind_inv in H as (lam & g1 & _ & H).
  apply bind_inv in H as (T & g2 & _ & H).
  apply bind_inv in H as (k & g3 & _ & H).
  apply lift_inv in H as [H _]. apply post_process_inv in H as [H _]. exact H.
Qed.

(** When the shapes agree, the Beta parameter is accepted,
    [int(T * mix_rate)] is defined and [signal1] is a floating-point array,
    the call returns. *)
Lemma mix_augmentation_returns signal1 signal2 alpha mix_rate lo hi offset g
    time_steps mix_length :
  shape signal1 = shape signal2 ->
  F64.leb alpha F64.zero = false ->
  shape0 signal1 = Ok time_steps ->
  py_int_of_product time_steps mix_rate = Ok mix_length ->
  nd_dtype signal1 <> Int64 ->
  mix_augmentation signal1 signal2 alpha mix_rate lo hi offset g
  = Ok (offset_then_clip
          (assign_rows_to signal1 mix_length
             (mixup (rng_float g (rng_pos g))
                (rows_to signal1 mix_length) (rows_to signal2 mix_length)))
          offset lo hi, advance g).
Proof.
  intros Hs Ha HT Hk Hdt. unfold mix_augmentation, shape_eqb.
  rewrite bool_decide_eq_true_2 by assumption. simpl.
  unfold random_beta. rewrite Ha. simpl.
  unfold bind at 1. unfold draw_float.
  run_lift HT.
  run_lift Hk.
  apply lift_ok, post_process_float. exact Hdt.
Qed.

(** On an integer [signal1] the call raises [UFuncTypeError] once the
    three checks have passed. *)
Lemma mix_augmentation_int signal1 signal2 alpha mix_rate lo hi offset g
    time_steps mix_length :
  shape signal1 = shape signal2 ->
  F64.leb alpha F64.zero = false ->
  shape0 signal1 = Ok time_steps ->
  py_int_of_product time_steps mix_rate = Ok mix_length ->
  nd_dtype signal1 = Int64 ->
  mix_augmentation signal1 signal2 alpha mix_rate lo hi offset g = Raise UFuncTypeError.
Proof.
  intros Hs Ha HT Hk Hdt. unfold mix_augmentation, shape_eqb.
  rewrite bool_decide_eq_true_2 by assumption. simpl.
  unfold random_beta. rewrite Ha. simpl.
  unfold bind at 1. unfold draw_float.
  run_lift HT.
  run_lift Hk.
  unfold lift. rewrite post_process_int by exact Hdt. reflexivity.
Qed.

Lemma rows_extent_le a k :
  well_formed a -> shape a <> [] -> rows_extent a k <= length (data a).
Proof.
  unfold well_formed, rows_extent. intros -> Hne.
  destruct (shape a) as [|n sh]; [congruence|].
  change (slice_bound n k * size_of sh <= n * size_of sh).
  apply Nat.mul_le_mono_r, slice_bound_le.
Qed.

Lemma length_mixed signal1 signal2 lam k :
  well_formed signal1 -> well_formed signal2 ->
  shape signal1 = shape signal2 -> shape signal1 <> [] ->
  length (data (assign_rows_to signal1 k
                  (mixup lam (rows_to signal1 k) (rows_to signal2 k))))
  = length (data signal1).
Proof.
  intros W1 W2 Hs Hne. simpl. unfold mixup, rows_to.
  assert (He : rows_extent signal2 k = rows_extent signal1 k)
    by (unfold rows_extent; rewrite Hs; reflexivity).
  assert (Hl : length (data signal2) = length (data signal1))
    by (unfold well_formed in *; congruence).
  pose proof (rows_extent_le signal1 k W1 Hne).
  rewrite length_app, length_fmap, length_zip_with, !length_take, length_drop, He, Hl.
  fold (rows_extent signal1 k). lia.
Qed.

Lemma mix_augmentation_shape signal1 signal2 alpha mix_rate lo hi offset g out g' :
  mix_augmentation signal1 signal2 alpha mix_rate lo hi offset g = Ok (out, g') ->
  shape out = shape signal1.
Proof.
  intros H. apply mix_augmentation_inv in H as (T & k & _ & _ & _ & _ & _ & ->).
  rewrite shape_offset_then_clip. reflexivity.
Qed.

Lemma mix_augmentation_well_formed signal1 signal2 alpha mix_rate lo hi offset g out g' :
  well_formed signal1 -> well_formed signal2 ->
  mix_augmentation signal1 signal2 alpha mix_rate lo hi offset g = Ok (out, g') ->
  well_formed out.
Proof.
  intros W1 W2 H.
  apply mix_augmentation_inv in H as (T & k & Hs & _ & HT & _ & _ & ->).
  apply well_formed_offset_then_clip. unfold well_formed.
  rewrite length_mixed; try assumption.
  unfold shape0 in HT. destruct (shape signal1); [discriminate|congruence].
Qed.

(** [int(T * 0.0)] is 0 whenever [float(T)] is defined. *)
Lemma py_int_of_product_zero (n : nat) (f : float64) (s : bool) :
  py_float_of_int (Z.of_nat n) = Ok f ->
  py_int_of_product n (S754_zero s) = Ok 0%Z.
Proof.
  intros H. unfold py_int_of_product. rewrite H.
  unfold py_float_of_int in H.
  destruct (F64.of_Z (Z.of_nat n)) as [sf|sf| |sf m e];
    try discriminate; injection H as <-; reflexivity.
Qed.

(** ** Shape mismatch *)

Lemma no_mismatch_ret {A} (a : A) : no_mismatch (ret a).
Proof. intros g. discriminate. Qed.

Lemma no_mismatch_bind {A B} (m : M A) (f : A -> M B) :
  no_mismatch m -> (forall a, no_mismatch (f a)) -> no_mismatch (bind m f).
Proof.
  intros Hm Hf g. unfold bind. specialize (Hm g).
  destruct (m g) as [[a g']|e]; [apply Hf|].
  intros [= ->]. apply Hm. reflexivity.
Qed.

Lemma no_mismatch_lift {A} (r : result A) :
  r <> Raise ShapeMismatch -> no_mismatch (lift r).
Proof.
  intros H g. unfold lift. destruct r; [discriminate|].
  intros [= ->]. apply H. reflexivity.
Qed.

Lemma no_mismatch_for_each {A S} (xs : list A) (body : A -> S -> M S) :
  (forall x s, no_mismatch (body x s)) -> forall s, no_mismatch (for_each xs body s).
Proof.
  intros Hb. induction xs as [|x xs IH]; intros s; simpl.
  - apply no_mismatch_ret.
  - apply no_mismatch_bind; [apply Hb|apply IH].
Qed.

Lemma no_mismatch_random_sample n : no_mismatch (random_sample n).
Proof.
  induction n as [|n IH]; simpl; [apply no_mismatch_ret|].
  apply no_mismatch_bind; [intros g; discriminate|]. intros u.
  apply no_mismatch_bind; [assumption|]. intros us. apply no_mismatch_ret.
Qed.

Lemma py_index_no_mismatch {A} (l : list A) i : py_index l i <> Raise ShapeMismatch.
Proof.
  unfold py_index.
  destruct (_ <? 0)%Z; [discriminate|]. destruct (l !! _); discriminate.
Qed.

Lemma broadcast_to_no_mismatch {A} n (v : list A) : broadcast_to n v <> Raise ShapeMismatch.
Proof.
  unfold broadcast_to. destruct (_ =? _); [discriminate|].
  destruct v as [|x [|y v]]; discriminate.
Qed.

Lemma set_column_no_mismatch dt T buf i v : set_column dt T buf i v <> Raise ShapeMismatch.
Proof.
  unfold set_column. case_bool_decide; [discriminate|].
  pose proof (broadcast_to_no_mismatch T v).
  destruct (broadcast_to T v); [discriminate|congruence].
Qed.

Lemma np_where_no_mismatch m a b : np_where m a b <> Raise ShapeMismatch.
Proof.
  unfold np_where, broadcast_length.
  repeat (destruct (_ =? _); simpl);
    repeat match goal with
      | |- context [broadcast_to ?n ?v] => destruct (broadcast_to n v)
      end; discriminate.
Qed.

Lemma unpack_shape_no_mismatch sh : unpack_shape sh <> Raise ShapeMismatch.
Proof. destruct sh as [|t [|f [|x sh]]]; discriminate. Qed.

Section WaveAugMismatch.
Context {W : PyWavelets}.

Lemma mix_step_no_mismatch rates c1 c2 i mixed : no_mismatch (mix_step rates c1 c2 i mixed).
Proof.
  unfold mix_step.
  apply no_mismatch_bind; [apply no_mismatch_lift, py_index_no_mismatch|]. intros a1.
  apply no_mismatch_bind; [apply no_mismatch_lift, py_index_no_mismatch|]. intros a2.
  apply no_mismatch_bind; [apply no_mismatch_lift, py_index_no_mismatch|]. intros r.
  apply no_mismatch_bind.
  { unfold random_mask. apply no_mismatch_bind; [apply no_mismatch_random_sample|].
    intros u. apply no_mismatch_ret. }
  intros mask.
  apply no_mismatch_bind; [apply no_mismatch_lift, np_where_no_mismatch|]. intros c.
  apply no_mismatch_ret.
Qed.

Lemma augment_multi_column_no_mismatch s1 s2 T F rates wv level col buf :
  no_mismatch (augment_multi_column s1 s2 T F rates wv level col buf).
Proof.
  unfold augment_multi_column.
  apply no_mismatch_bind.
  - apply no_mismatch_for_each. intros. apply mix_step_no_mismatch.
  - intros c. apply no_mismatch_lift, set_column_no_mismatch.
Qed.

(** [WaveAug.augment_multi] raises the mismatch error exactly when the shapes
    differ. *)
Lemma augment_multi_mismatch_iff signal1 signal2 rates wv level g :
  WaveAug.augment_multi signal1 signal2 rates wv level g = Raise ShapeMismatch
  <-> shape signal1 <> shape signal2.
Proof.
  unfold WaveAug.augment_multi, shape_eqb. case_bool_decide as Hs; simpl.
  - split; [|congruence]. intros H. exfalso. revert H.
    apply no_mismatch_bind; [apply no_mismatch_lift, unpack_shape_no_mismatch|].
    intros [T F].
    apply no_mismatch_bind.
    + apply no_mismatch_for_each. intros. apply augment_multi_column_no_mismatch.
    + intros buf. apply no_mismatch_ret.
  - split; [auto|reflexivity].
Qed.
End WaveAugMismatch.

Lemma mix_augmentation_mismatch_iff signal1 signal2 alpha mix_rate lo hi offset g :
  mix_augmentation signal1 signal2 alpha mix_rate lo hi offset g = Raise ShapeMismatch
  <-> shape signal1 <> shape signal2.
Proof.
  unfold mix_augmentation, shape_eqb. case_bool_decide as Hs; simpl.
  - split; [|congruence]. intros H. exfalso. revert H.
    apply no_mismatch_bind.
    { unfold random_beta. destruct (_ || _); intros g1; discriminate. }
    intros lam.
    apply no_mismatch_bind.
    { apply no_mismatch_lift. unfold shape0. destruct (shape signal1); discriminate. }
    intros T.
    apply no_mismatch_bind;
      [|intros k; apply no_mismatch_lift, post_process_no_mismatch].
    apply no_mismatch_lift. unfold py_int_of_product, py_float_of_int, py_int_of_float.
    destruct (F64.of_Z _); try discriminate;
      destruct (F64.mul _ _); discriminate.
  - split; [auto|reflexivity].
Qed.

(** C3. The two-signal operators [mix_augmentation] and
    [WaveAug.augment_multi] raise the shape-mismatch error if and only if
    the shapes of the two signals differ; in particular mixing a (5, 2)
    array with a (3, 2) array raises it, and with equal shapes neither
    operator raises it. *)
Theorem shape_mismatch_iff_shapes_differ {W : PyWavelets}
    (signal1 signal2 : ndarray) (alpha mix_rate : float64)
    (clip_min clip_max : option float64) (offset : float64)
    (rates : list float64) (wv : wavelet) (level : Z) (g : rng) :
  (mix_augmentation signal1 signal2 alpha mix_rate clip_min clip_max offset g
     = Raise ShapeMismatch <-> shape signal1 <> shape signal2)
  /\ (WaveAug.augment_multi signal1 signal2 rates wv level g
     = Raise ShapeMismatch <-> shape signal1 <> shape signal2)
  /\ (forall dt1 dt2 d1 d2,
        mix_augmentation (mk_ndarray dt1 [5; 2] d1) (mk_ndarray dt2 [3; 2] d2)
          alpha mix_rate clip_min clip_max offset g = Raise ShapeMismatch).
Proof.
  split; [apply mix_augmentation_mismatch_iff|].
  split; [apply augment_multi_mismatch_iff|].
  intros dt1 dt2 d1 d2. apply mix_augmentation_mismatch_iff. simpl. congruence.
Qed.

(** ** [mix_rate = 0] *)

Lemma fmap_add_zero (l : list float64) :
  (fun x => F64.add x F64.zero) <$> l = plus_zero <$> l.
Proof. apply list_fmap_ext. intros i x _. apply add_zero_r. Qed.

(** C8, as the code has it.  With [mix_rate = 0], the default offset 0.0,
    no clip bounds, equal shapes and a Beta parameter that numpy accepts,
    [mix_augmentation] on a floating-point [signal1] returns
    [signal1 + 0.0] whatever the sampled coefficient and [signal2] are: the
    dtype and the shape are those of [signal1] and every element is the one
    of [signal1], except that [-0.0] has become [+0.0].  On an integer
    [signal1] the same call raises [UFuncTypeError], at
    [mixed_signal += offset]. *)
Theorem mix_rate_zero_returns_signal1_plus_zero
    (signal1 signal2 : ndarray) (alpha : float64) (s : bool) (g : rng)
    (time_steps : nat) (f : float64) :
  shape signal1 = shape signal2 ->
  F64.leb alpha F64.zero = false ->
  shape0 signal1 = Ok time_steps ->
  py_float_of_int (Z.of_nat time_steps) = Ok f ->
  (nd_dtype signal1 <> Int64 ->
   exists out,
     mix_augmentation signal1 signal2 alpha (S754_zero s) None None F64.zero g
       = Ok (out, advance g)
     /\ nd_dtype out = nd_dtype signal1
     /\ shape out = shape signal1
     /\ data out = plus_zero <$> data signal1)
  /\ (nd_dtype signal1 = Int64 ->
      mix_augmentation signal1 signal2 alpha (S754_zero s) None None F64.zero g
        = Raise UFuncTypeError).
Proof.
  intros Hs Ha HT Hf.
  pose proof (py_int_of_product_zero time_steps f s Hf) as Hk.
  split; intros Hdt.
  - eexists. split.
    + apply (mix_augmentation_returns _ _ _ _ _ _ _ _ _ _ Hs Ha HT Hk Hdt).
    + rewrite dtype_offset_then_clip, shape_offset_then_clip, data_offset_then_clip.
      split; [reflexivity|]. split; [reflexivity|].
      simpl. unfold rows_to, rows_extent. rewrite slice_bound_0. simpl.
      apply fmap_add_zero.
  - apply (mix_augmentation_int _ _ _ _ _ _ _ _ _ _ Hs Ha HT Hk Hdt).
Qed.

Lemma mix_rate_zero_returns_signal1_plus_zero_witness :
  (exists out,
     mix_augmentation (vector [F64.one; F64.neg_zero]) (vector [F64.two; F64.two])
       F64.half F64.zero None None F64.zero g0 = Ok (out, advance g0)
     /\ nd_dtype out = Float64
     /\ shape out = [2]
     /\ data out = [F64.one; F64.zero])
  /\ mix_augmentation (int_vector [1; 2]%Z) (int_vector [3; 4]%Z)
       F64.half F64.zero None None F64.zero g0 = Raise UFuncTypeError.
Proof.
  split.
  - apply (mix_rate_zero_returns_signal1_plus_zero
             (vector [F64.one; F64.neg_zero]) (vector [F64.two; F64.two])
             F64.half false g0 2 F64.two);
      reflexivity || discriminate.
  - apply (mix_rate_zero_returns_signal1_plus_zero
             (int_vector [1; 2]%Z) (int_vector [3; 4]%Z)
             F64.half false g0 2 F64.two);
      reflexivity.
Defined.

(** C8 as stated fails in three ways: an element [-0.0] of [signal1] comes
    back as [+0.0], so the result is not bit-for-bit [signal1]; a Beta
    parameter [alpha = 0] makes the call raise before anything is mixed;
    and on two integer arrays the call raises at [mixed_signal += offset]
    instead of returning [signal1]. *)
Lemma mix_rate_zero_not_bitwise_signal1 :
  (exists out g',
     mix_augmentation (vector [F64.neg_zero]) (vector [F64.one])
       F64.half F64.zero None None F64.zero g0 = Ok (out, g')
     /\ data out = [F64.zero]
     /\ out <> vector [F64.neg_zero])
  /\ mix_augmentation (vector [F64.neg_zero]) (vector [F64.one])
       F64.zero F64.zero None None F64.zero g0 = Raise ValueError
  /\ mix_augmentation (int_vector [1; 2; 3]%Z) (int_vector [4; 5; 6]%Z)
       F64.half F64.zero None None F64.zero g0 = Raise UFuncTypeError.
Proof.
  split; [|split; reflexivity].
  exists (vector [F64.zero]), (advance g0).
  split; [reflexivity|]. split; [reflexivity|]. discriminate.
Qed.

(** ** The generator *)

Lemma skip_0 g : skip 0 g = g.
Proof. destruct g. reflexivity. Qed.

Lemma advance_skip n g : advance (skip n g) = skip (S n) g.
Proof. reflexivity. Qed.

Lemma skip_skip n m g : skip n (skip m g) = skip (n + m) g.
Proof. unfold skip. simpl. f_equal. lia. Qed.

(** ** [dominant_shuffle]: the shuffle of the selected bins *)

Lemma matrix_column_lookup {A} (m : matrix A) i c :
  m !! i = Some c -> matrix_column m i = c.
Proof. unfold matrix_column. intros ->. reflexivity. Qed.

Lemma random_choice_ok (t : list nat) g r :
  t !! (rng_nat g (rng_pos g) mod length t) = Some r ->
  random_choice t g = Ok (r, advance g).
Proof.
  intros H. destruct t as [|x t]; [rewrite lookup_nil in H; discriminate|].
  unfold random_choice, bind, draw_nat, ret.
  rewrite nth_lookup, H. reflexivity.
Qed.

Section Shuffle.
Context {N : Numpy}.

(** One iteration of the inner loop. *)
Lemma shuffle_step_ok (signal_f : matrix complex) (topk : matrix nat) i j
    (new_f : matrix complex) g t o c idx r v :
  topk !! i = Some t -> t !! j = Some idx ->
  signal_f !! i = Some o -> new_f !! i = Some c ->
  t !! (rng_nat g (rng_pos g) mod length t) = Some r ->
  o !! r = Some v -> idx < length c ->
  shuffle_step signal_f topk i j new_f g
  = Ok (<[i := <[idx := v]> c]> new_f, advance g).
Proof.
  intros Ht Hj Ho Hc Hr Hv Hidx. unfold shuffle_step.
  assert (Hget : matrix_get topk j i = Ok idx).
  { unfold matrix_get. rewrite (matrix_column_lookup _ _ _ Ht), Hj. reflexivity. }
  run_lift Hget.
  rewrite (matrix_column_lookup _ _ _ Ht).
  run (random_choice_ok _ _ _ Hr).
  assert (Hget2 : matrix_get signal_f r i = Ok v).
  { unfold matrix_get. rewrite (matrix_column_lookup _ _ _ Ho), Hv. reflexivity. }
  run_lift Hget2.
  unfold matrix_set. rewrite (matrix_column_lookup _ _ _ Hc).
  rewrite bool_decide_eq_true_2; [reflexivity|].
  split; [|assumption]. apply lookup_lt_Some in Hc. assumption.
Qed.

(** The inner loop on column [i]: the selected bins of the column are
    overwritten one after the other from the original column [o]; the bins
    are distinct, so no write undoes another. *)
Lemma shuffle_inner_loop (signal_f : matrix complex) (topk : matrix nat) i
    (new_f : matrix complex) g t o :
  topk !! i = Some t -> signal_f !! i = Some o -> new_f !! i = Some o ->
  NoDup t -> (forall x, x ∈ t -> x < length o) ->
  exists col,
    for_each (seq 0 (length t)) (shuffle_step signal_f topk i) new_f g
      = Ok (<[i := col]> new_f, skip (length t) g)
    /\ shuffled_column o t (fun j => rng_nat g (j + rng_pos g)) col.
Proof.
  intros Ht Ho Hc Hnd Hlt.
  pose (P := fun (j : nat) (nf : matrix complex) (g1 : rng) =>
    g1 = skip j g /\
    exists col, nf = <[i := col]> new_f /\ length col = length o /\
      (forall jj, jj < j ->
         col !! nth jj t 0 = o !! nth (rng_nat g (jj + rng_pos g) mod length t) t 0) /\
      (forall idx, (forall jj, jj < j -> nth jj t 0 <> idx) -> col !! idx = o !! idx)).
  destruct (for_each_seq_total P (length t) 0 (shuffle_step signal_f topk i) new_f g)
    as (nf & g1 & Hrun & Hg & col & -> & Hlen & Hsel & Hrest).
  - split; [symmetry; apply skip_0|]. exists o. split.
    + symmetry. apply list_insert_id. assumption.
    + split; [reflexivity|]. split; [intros; lia|reflexivity].
  - intros j nf g1 Hj (-> & col & -> & Hlen & Hsel & Hrest).
    assert (Hi : i < length new_f) by (eapply lookup_lt_Some; eassumption).
    destruct (lookup_lt_is_Some_2 t j) as [idx Hidx]; [lia|].
    set (k := rng_nat g (j + rng_pos g) mod length t).
    assert (Hk : k < length t) by (apply Nat.mod_upper_bound; lia).
    destruct (lookup_lt_is_Some_2 t k) as [r Hr]; [assumption|].
    assert (Hro : r < length o).
    { apply Hlt. eapply list_elem_of_lookup_2. eassumption. }
    destruct (lookup_lt_is_Some_2 o r) as [v Hv]; [assumption|].
    assert (Hio : idx < length col).
    { rewrite Hlen. apply Hlt. eapply list_elem_of_lookup_2. eassumption. }
    eexists _, _. split.
    + eapply shuffle_step_ok; try eassumption.
      apply list_lookup_insert_eq. assumption.
    + split; [apply advance_skip|].
      exists (<[idx := v]> col). split; [apply list_insert_insert_eq|].
      split; [rewrite length_insert; assumption|].
      assert (Hnth : forall q y, t !! q = Some y -> nth q t 0 = y).
      { intros q y Hq. rewrite nth_lookup, Hq. reflexivity. }
      split.
      * intros jj Hjj. destruct (decide (jj = j)) as [->|Hne].
        -- rewrite (Hnth _ _ Hidx), list_lookup_insert_eq by assumption.
           fold k. rewrite (Hnth _ _ Hr). symmetry. assumption.
        -- rewrite list_lookup_insert_ne; [apply Hsel; lia|].
           intros Heq. apply Hne.
           destruct (lookup_lt_is_Some_2 t jj) as [y Hy]; [lia|].
           rewrite (Hnth _ _ Hy) in Heq. subst y.
           symmetry. eapply NoDup_lookup; eassumption.
      * intros idx' Hne. rewrite list_lookup_insert_ne.
        -- apply Hrest. intros jj Hjj. apply Hne. lia.
        -- rewrite <- (Hnth _ _ Hidx). apply Hne. lia.
  - subst g1. simpl in *. exists col. split; [exact Hrun|].
    split; [assumption|]. split; [intros; apply Hsel; assumption|].
    intros idx Hnot. apply Hrest. intros jj Hjj Heq. apply Hnot.
    destruct (lookup_lt_is_Some_2 t jj) as [y Hy]; [lia|].
    rewrite nth_lookup, Hy in Heq. simpl in Heq. subst y.
    eapply list_elem_of_lookup_2. eassumption.
Qed.
(** The two loops: column [i] is shuffled with the draws number
    [i * K], ..., [i * K + K - 1], where K is the number of selected bins
    of a column. *)
Lemma shuffle_spec (signal_f : matrix complex) (topk : matrix nat) F K g :
  length signal_f = F -> length topk = F ->
  (forall i t o, topk !! i = Some t -> signal_f !! i = Some o ->
     length t = K /\ NoDup t /\ forall x, x ∈ t -> x < length o) ->
  exists new_f,
    shuffle signal_f topk F g = Ok (new_f, skip (F * K) g)
    /\ length new_f = F
    /\ forall i t o, topk !! i = Some t -> signal_f !! i = Some o ->
         exists col, new_f !! i = Some col
           /\ shuffled_column o t (fun j => rng_nat g (j + (i * K + rng_pos g))) col.
Proof.
  intros Hsf Htk Hcols. unfold shuffle.
  pose (Q := fun (i : nat) (nf : matrix complex) (g1 : rng) =>
    g1 = skip (i * K) g /\ length nf = F /\
    (forall i', i <= i' -> nf !! i' = signal_f !! i') /\
    (forall i' t o, i' < i -> topk !! i' = Some t -> signal_f !! i' = Some o ->
       exists col, nf !! i' = Some col
         /\ shuffled_column o t (fun j => rng_nat g (j + (i' * K + rng_pos g))) col)).
  destruct (for_each_seq_total Q F 0
              (fun i nf => for_each (seq 0 (n_rows topk))
                             (shuffle_step signal_f topk i) nf) signal_f g)
    as (nf & g1 & Hrun & -> & Hlen & _ & Hdone).
  - split; [symmetry; apply skip_0|]. split; [assumption|].
    split; [reflexivity|]. intros; lia.
  - intros i nf g1 Hi (-> & Hlen & Hrest & Hdone).
    destruct (lookup_lt_is_Some_2 topk i) as [t Ht]; [lia|].
    destruct (lookup_lt_is_Some_2 signal_f i) as [o Ho]; [lia|].
    destruct (Hcols i t o Ht Ho) as (HK & Hnd & Hlt).
    assert (Hrows : n_rows topk = length t).
    { destruct topk as [|t0 topk']; [simpl in *; lia|]. simpl.
      destruct signal_f as [|o0 sf']; [simpl in *; lia|].
      destruct (Hcols 0 t0 o0 eq_refl eq_refl) as (HK0 & _). congruence. }
    rewrite Hrows.
    destruct (shuffle_inner_loop signal_f topk i nf (skip (i * K) g) t o Ht Ho)
      as (col & Hinner & Hcol); try assumption.
    { rewrite Hrest by lia. assumption. }
    exists (<[i := col]> nf), (skip (length t) (skip (i * K) g)). split; [exact Hinner|].
    split; [rewrite skip_skip, HK; reflexivity|].
    split; [rewrite length_insert; assumption|].
    split.
    + intros i' Hi'. rewrite list_lookup_insert_ne by lia. apply Hrest. lia.
    + intros i' t' o' Hi' Ht' Ho'. destruct (decide (i' = i)) as [->|Hne].
      * exists col. split; [apply list_lookup_insert_eq; lia|].
        assert (t' = t) by congruence. assert (o' = o) by congruence. subst.
        exact Hcol.
      * rewrite list_lookup_insert_ne by lia. apply Hdone; [lia|assumption|assumption].
  - exists nf. split; [exact Hrun|]. split; [assumption|].
    intros i t o Ht Ho. apply Hdone; [|assumption|assumption].
    apply lookup_lt_Some in Ht. lia.
Qed.
End Shuffle.

(** ** Shapes *)

Lemma length_concat_rows {A} (f : nat -> list A) (F T : nat) :
  (forall t, length (f t) = F) -> length (concat (f <$> seq 0 T)) = T * F.
Proof.
  intros Hf. generalize 0. induction T as [|T IH]; intros s; simpl; [reflexivity|].
  rewrite length_app, Hf, IH. reflexivity.
Qed.

Lemma well_formed_of_columns dt T (cols : matrix float64) :
  well_formed (of_columns dt T cols).
Proof.
  unfold well_formed, of_columns. simpl.
  rewrite (length_concat_rows _ (length cols)).
  - lia.
  - intros t. unfold row_of. apply length_fmap.
Qed.

Lemma length_column a T F i : length (column a T F i) = T.
Proof. unfold column. rewrite length_fmap, length_seq. reflexivity. Qed.

Lemma length_columns a T F : length (columns a T F) = F.
Proof. unfold columns. rewrite length_fmap, length_seq. reflexivity. Qed.

Lemma lookup_columns a T F i :
  i < F -> columns a T F !! i = Some (column a T F i).
Proof.
  intros Hi. unfold columns. rewrite list_lookup_fmap.
  rewrite (proj2 (lookup_seq 0 F i i)) by lia. reflexivity.
Qed.

(** The two-dimensional view that every operator takes of its input. *)
Lemma dims_unpack a T F :
  dims a T F ->
  unpack_shape (shape (if ndim a =? 1 then reshape_column a else a)) = Ok (T, F)
  /\ data (if ndim a =? 1 then reshape_column a else a) = data a
  /\ nd_dtype (if ndim a =? 1 then reshape_column a else a) = nd_dtype a.
Proof.
  unfold dims, ndim. intros [H|[H ->]]; rewrite H; simpl; rewrite H; simpl.
  - auto.
  - rewrite Nat.mul_1_r. auto.
Qed.

(** Restoring the shape of the input. *)
Lemma restore_shape a b T F :
  dims a T F -> shape b = [T; F] ->
  shape (if length (shape a) =? 1 then flatten b else b) = shape a.
Proof.
  unfold dims. intros [H|[H ->]] Hb; rewrite H; simpl.
  - assumption.
  - rewrite Hb. simpl. f_equal. lia.
Qed.

Lemma restore_data a b :
  data (if length (shape a) =? 1 then flatten b else b) = data b.
Proof. destruct (_ =? _); reflexivity. Qed.

Lemma column_restore (sh : list nat) a T F i :
  column (if length sh =? 1 then flatten a else a) T F i = column a T F i.
Proof. destruct (_ =? _); reflexivity. Qed.

Lemma restore_dtype a b :
  nd_dtype (if length (shape a) =? 1 then flatten b else b) = nd_dtype b.
Proof. destruct (_ =? _); reflexivity. Qed.

Lemma restore_well_formed a b :
  well_formed b -> well_formed (if length (shape a) =? 1 then flatten b else b).
Proof. intros H. destruct (_ =? _); [apply well_formed_flatten|]; assumption. Qed.

Lemma columns_reshape a T F :
  columns (if ndim a =? 1 then reshape_column a else a) T F = columns a T F.
Proof. destruct (_ =? _); reflexivity. Qed.

(** ** [dominant_shuffle]: the selected bins *)

Section Selection.
Context {N : Numpy} {NL : NumpyLaws N}.

Lemma argsort_length m : length (np_argsort m) = length m.
Proof. rewrite (Permutation_length (argsort_perm m)). apply length_seq. Qed.

Lemma argsort_NoDup m : NoDup (np_argsort m).
Proof. rewrite (argsort_perm m). apply NoDup_seq. Qed.

Lemma argsort_lt m x : x ∈ np_argsort m -> x < length m.
Proof. rewrite (argsort_perm m). rewrite elem_of_seq. lia. Qed.

(** The bins selected in a column [o] of the spectrum of a signal of T
    time steps: [n_selected T rate] distinct bins, none of them the DC
    bin, all of them inside the column. *)
Lemma top_k_column (signal_f : matrix complex) rate T i t o :
  top_k (magnitudes signal_f) rate !! i = Some t ->
  signal_f !! i = Some o -> length o = T / 2 + 1 ->
  length t = n_selected T rate /\ NoDup t /\ forall x, x ∈ t -> 1 <= x < length o.
Proof.
  unfold top_k, magnitudes. rewrite !list_lookup_fmap. intros Ht Ho Hlen.
  rewrite Ho in Ht. simpl in Ht. injection Ht as <-.
  set (m := np_abs <$> drop 1 o).
  assert (Hm : length m = T / 2) by (unfold m; rewrite length_fmap, length_drop; lia).
  unfold slice_from. rewrite argsort_length, Hm.
  split; [|split].
  - rewrite length_fmap, length_drop, argsort_length, Hm. reflexivity.
  - apply NoDup_fmap_2; [intros x y; lia|].
    eapply sublist_NoDup; [apply argsort_NoDup|apply sublist_drop].
  - intros x Hx. apply list_elem_of_fmap in Hx as (y & -> & Hy).
    assert (Hy' : y ∈ np_argsort m).
    { eapply elem_of_sublist; [eassumption|apply sublist_drop]. }
    apply argsort_lt in Hy'. lia.
Qed.
End Selection.

(** ** [dominant_shuffle]: the whole operator *)

Section DominantShuffleSpec.
Context {N : Numpy} {NL : NumpyLaws N}.

Lemma rfft_column_length signal T F i o :
  0 < T -> (np_fft_rfft <$> columns signal T F) !! i = Some o ->
  length o = T / 2 + 1.
Proof.
  intros HT Ho. rewrite list_lookup_fmap in Ho.
  destruct (columns signal T F !! i) as [c|] eqn:Hc; [|discriminate].
  injection Ho as <-.
  assert (Hi : i < F).
  { apply lookup_lt_Some in Hc. rewrite length_columns in Hc. assumption. }
  rewrite lookup_columns in Hc by assumption. injection Hc as <-.
  rewrite rfft_length, length_column; [reflexivity|].
  intros Hnil. apply (f_equal length) in Hnil.
  rewrite length_column in Hnil. simpl in Hnil. lia.
Qed.

(** On a signal of T >= 1 time steps and F features the operator returns:
    it shuffles the spectrum as [shuffled_column] says, transforms the
    columns back, post-processes and restores the shape. *)
Lemma dominant_shuffle_spec signal T F rate lo hi offset g :
  dims signal T F -> 0 < T ->
  let signal_f := np_fft_rfft <$> columns signal T F in
  let topk := top_k (magnitudes signal_f) rate in
  let K := n_selected T rate in
  exists new_f,
    shuffle signal_f topk F g = Ok (new_f, skip (F * K) g)
    /\ length new_f = F
    /\ (forall i t o, topk !! i = Some t -> signal_f !! i = Some o ->
          exists col, new_f !! i = Some col
            /\ shuffled_column o t (fun j => rng_nat g (j + (i * K + rng_pos g))) col)
    /\ dominant_shuffle signal rate lo hi offset g
       = Ok (let a := offset_then_clip
                        (of_columns Float64 T ((fun c => np_fft_irfft c T) <$> new_f))
                        offset lo hi in
             if length (shape signal) =? 1 then flatten a else a,
             skip (F * K) g).
Proof.
  intros Hd HT signal_f topk K.
  destruct (shuffle_spec signal_f topk F K g) as (new_f & Hrun & Hlen & Hcols).
  - unfold signal_f. rewrite length_fmap. apply length_columns.
  - unfold topk, top_k, magnitudes, signal_f. rewrite !length_fmap. apply length_columns.
  - intros i t o Ht Ho.
    pose proof (rfft_column_length _ _ _ _ _ HT Ho) as Hlen.
    destruct (top_k_column _ _ T _ _ _ Ht Ho Hlen) as (H1 & H2 & H3).
    split; [exact H1|]. split; [exact H2|]. intros x Hx. apply H3 in Hx. lia.
  - exists new_f. split; [exact Hrun|]. split; [exact Hlen|]. split; [exact Hcols|].
    unfold dominant_shuffle.
    destruct (dims_unpack signal T F Hd) as (Hu & _ & _).
    run_lift Hu.
    rewrite columns_reshape.
    assert (Hr : rfft_columns T (columns signal T F) = Ok signal_f).
    { unfold rfft_columns. destruct (Nat.eqb_spec T 0); [lia|reflexivity]. }
    run_lift Hr.
    fold topk. run Hrun. reflexivity.
Qed.

Lemma dominant_shuffle_shape signal T F rate lo hi offset g :
  dims signal T F -> 0 < T ->
  exists out g',
    dominant_shuffle signal rate lo hi offset g = Ok (out, g')
    /\ shape out = shape signal /\ well_formed out.
Proof.
  intros Hd HT.
  destruct (dominant_shuffle_spec signal T F rate lo hi offset g Hd HT)
    as (new_f & _ & Hlen & _ & Hrun).
  eexists _, _. split; [exact Hrun|]. split.
  - apply (restore_shape _ _ T F Hd).
    rewrite shape_offset_then_clip. simpl. rewrite length_fmap, Hlen. reflexivity.
  - apply restore_well_formed, well_formed_offset_then_clip, well_formed_of_columns.
Qed.
End DominantShuffleSpec.

(** ** The stand-ins meet the contracts *)

Lemma length_resize n l : length (resize n l) = n.
Proof.
  unfold resize. rewrite length_take, length_app, length_replicate. lia.
Qed.

Lemma insert_sorted_perm key i l : Permutation (insert_sorted key i l) (i :: l).
Proof.
  induction l as [|j l IH]; simpl; [reflexivity|].
  destruct (F64.ltb _ _); [reflexivity|].
  rewrite IH. apply perm_swap.
Qed.

Lemma fold_insert_sorted_perm key xs :
  forall acc,
    Permutation (fold_left (fun acc i => insert_sorted key i acc) xs acc) (xs ++ acc).
Proof.
  induction xs as [|x xs IH]; intros acc; simpl; [reflexivity|].
  rewrite IH, insert_sorted_perm. symmetry. apply Permutation_middle.
Qed.

Lemma stub_numpy_laws : NumpyLaws stub_numpy.
Proof.
  split; simpl.
  - intros x _. rewrite length_fmap. apply length_resize.
  - intros X n _. apply length_resize.
  - intros m. unfold insertion_argsort.
    rewrite fold_insert_sorted_perm, app_nil_r. reflexivity.
Qed.

(** ** Claims on [dominant_shuffle] *)

(** C6. In [dominant_shuffle] the replacement index of every selected bin
    is drawn from the selected bins of its own column (one draw per bin,
    with replacement, so a bin may draw itself), the value written is read
    from the original spectrum [signal_f], and the writes go to the copy
    [new_signal_f]: after the loops every selected bin of the copy holds
    the ORIGINAL value of its replacement bin, whatever was written
    before. *)
Theorem shuffle_reads_original_spectrum {N : Numpy} {NL : NumpyLaws N}
    (signal : ndarray) (T F : nat) (rate : Z) (g : rng) :
  dims signal T F -> 0 < T ->
  let signal_f := np_fft_rfft <$> columns signal T F in
  let topk_indices := top_k (magnitudes signal_f) rate in
  let K := n_selected T rate in
  exists new_signal_f,
    shuffle signal_f topk_indices F g = Ok (new_signal_f, skip (F * K) g)
    /\ forall i, i < F ->
         exists o t col,
           signal_f !! i = Some o /\ topk_indices !! i = Some t
           /\ new_signal_f !! i = Some col
           /\ length t = K
           /\ forall j, j < K ->
                let idx := nth j t 0 in
                let random_idx := nth (rng_nat g (j + (i * K + rng_pos g)) mod K) t 0 in
                random_idx ∈ t /\ col !! idx = o !! random_idx.
Proof.
  intros Hd HT signal_f topk K.
  destruct (dominant_shuffle_spec signal T F rate None None F64.zero g Hd HT)
    as (new_f & Hrun & Hlen & Hcols & _).
  exists new_f. split; [exact Hrun|]. intros i Hi.
  assert (Hsf : length signal_f = F)
    by (unfold signal_f; rewrite length_fmap; apply length_columns).
  assert (Htk : length topk = F)
    by (unfold topk, top_k, magnitudes; rewrite !length_fmap; exact Hsf).
  destruct (lookup_lt_is_Some_2 signal_f i) as [o Ho]; [lia|].
  destruct (lookup_lt_is_Some_2 topk i) as [t Ht]; [lia|].
  destruct (Hcols i t o Ht Ho) as (col & Hcol & Hlc & Hsel & _).
  pose proof (rfft_column_length _ _ _ _ _ HT Ho) as Hlo.
  destruct (top_k_column _ _ T _ _ _ Ht Ho Hlo) as (HK & _ & _).
  exists o, t, col. repeat (split; [assumption|]).
  intros j Hj. fold K in HK. split.
  - destruct (lookup_lt_is_Some_2 t (rng_nat g (j + (i * K + rng_pos g)) mod K)) as [r Hr].
    { rewrite HK. apply Nat.mod_upper_bound. lia. }
    rewrite nth_lookup, Hr. simpl. eapply list_elem_of_lookup_2. eassumption.
  - rewrite <- HK at 2. apply Hsel. lia.
Qed.

Lemma shuffle_reads_original_spectrum_witness :
  dims ramp6 6 1 /\ 0 < 6
  /\ exists new_signal_f g',
       let signal_f := @np_fft_rfft stub_numpy <$> columns ramp6 6 1 in
       shuffle (N := stub_numpy) signal_f
         (top_k (N := stub_numpy) (magnitudes (N := stub_numpy) signal_f) 2) 1 g0
       = Ok (new_signal_f, g').
Proof.
  assert (Hd : dims ramp6 6 1) by (right; split; reflexivity).
  assert (HT : 0 < 6) by lia.
  split; [exact Hd|]. split; [exact HT|].
  destruct (@shuffle_reads_original_spectrum stub_numpy stub_numpy_laws
              ramp6 6 1 2 g0 Hd HT)
    as (new_f & Hrun & _).
  exists new_f. eexists. exact Hrun.
Defined.

Lemma n_selected_rate (T : nat) (rate : Z) :
  (1 <= rate <= Z.of_nat (T / 2))%Z -> n_selected T rate = Z.to_nat rate.
Proof.
  intros H. unfold n_selected, slice_bound.
  destruct (Z.ltb_spec (- rate) 0); lia.
Qed.

Lemma n_selected_zero (T : nat) : n_selected T 0 = T / 2.
Proof. unfold n_selected. simpl. rewrite slice_bound_0. lia. Qed.

(** The part of C5 that the code meets: for [1 <= rate <= T/2] exactly
    [rate] distinct bins of every column are selected, the DC bin is not
    among them, and the DC bin and every bin that is not selected keep
    their original values in the modified spectrum. *)
Lemma selection_bound_for_positive_rate {N : Numpy} {NL : NumpyLaws N}
    (signal : ndarray) (T F : nat) (rate : Z) (g : rng) :
  dims signal T F -> 0 < T -> (1 <= rate <= Z.of_nat (T / 2))%Z ->
  let signal_f := np_fft_rfft <$> columns signal T F in
  let topk_indices := top_k (magnitudes signal_f) rate in
  exists new_signal_f g',
    shuffle signal_f topk_indices F g = Ok (new_signal_f, g')
    /\ forall i, i < F ->
         exists o t col,
           signal_f !! i = Some o /\ topk_indices !! i = Some t
           /\ new_signal_f !! i = Some col
           /\ length t = Z.to_nat rate /\ NoDup t /\ (0 ∉ t)
           /\ col !! 0 = o !! 0
           /\ forall idx, idx ∉ t -> col !! idx = o !! idx.
Proof.
  intros Hd HT Hrate signal_f topk.
  destruct (dominant_shuffle_spec signal T F rate None None F64.zero g Hd HT)
    as (new_f & Hrun & Hlen & Hcols & _).
  exists new_f. eexists. split; [exact Hrun|]. intros i Hi.
  assert (Hsf : length signal_f = F)
    by (unfold signal_f; rewrite length_fmap; apply length_columns).
  assert (Htk : length topk = F)
    by (unfold topk, top_k, magnitudes; rewrite !length_fmap; exact Hsf).
  destruct (lookup_lt_is_Some_2 signal_f i) as [o Ho]; [lia|].
  destruct (lookup_lt_is_Some_2 topk i) as [t Ht]; [lia|].
  destruct (Hcols i t o Ht Ho) as (col & Hcol & _ & _ & Hrest).
  pose proof (rfft_column_length _ _ _ _ _ HT Ho) as Hlo.
  destruct (top_k_column _ _ T _ _ _ Ht Ho Hlo) as (HK & Hnd & Hin).
  assert (H0 : 0 ∉ t) by (intros H0; apply Hin in H0; lia).
  exists o, t, col. repeat (split; [assumption|]).
  split; [rewrite HK; apply n_selected_rate; assumption|].
  split; [assumption|]. split; [assumption|]. split; [apply Hrest; assumption|].
  exact Hrest.
Qed.

(** C5 at [rate = 0].  [argsort(...)[-0:]] is the whole of
    [argsort(...)]: every one of the T/2 bins after the DC bin is
    selected, not none. *)
Theorem rate_zero_selects_every_bin {N : Numpy} {NL : NumpyLaws N}
    (signal : ndarray) (T F : nat) :
  dims signal T F -> 0 < T ->
  let signal_f := np_fft_rfft <$> columns signal T F in
  let topk_indices := top_k (magnitudes signal_f) 0 in
  forall i, i < F ->
    exists t, topk_indices !! i = Some t
      /\ length t = T / 2 /\ Permutation t (seq 1 (T / 2)).
Proof.
  intros Hd HT signal_f topk i Hi.
  assert (Hsf : length signal_f = F)
    by (unfold signal_f; rewrite length_fmap; apply length_columns).
  destruct (lookup_lt_is_Some_2 signal_f i) as [o Ho]; [lia|].
  pose proof (rfft_column_length _ _ _ _ _ HT Ho) as Hlo.
  unfold topk, top_k, magnitudes. rewrite !list_lookup_fmap, Ho. simpl.
  eexists. split; [reflexivity|].
  unfold slice_from. rewrite slice_bound_0, drop_0.
  assert (Hm : length (np_abs <$> drop 1 o) = T / 2)
    by (rewrite length_fmap, length_drop; lia).
  split.
  - rewrite length_fmap, argsort_length. exact Hm.
  - rewrite (argsort_perm _), Hm. rewrite fmap_S_seq. reflexivity.
Qed.

Lemma rate_zero_selects_every_bin_witness :
  dims ramp6 6 1 /\ 0 < 6
  /\ exists t,
       top_k (N := stub_numpy)
         (magnitudes (N := stub_numpy) (@np_fft_rfft stub_numpy <$> columns ramp6 6 1)) 0
       !! 0 = Some t
       /\ length t = 3.
Proof.
  assert (Hd : dims ramp6 6 1) by (right; split; reflexivity).
  assert (HT : 0 < 6) by lia.
  split; [exact Hd|]. split; [exact HT|].
  destruct (@rate_zero_selects_every_bin stub_numpy stub_numpy_laws ramp6 6 1 Hd HT 0)
    as (t & Ht & Hlen & _); [lia|].
  exists t. split; [exact Ht|exact Hlen].
Defined.

(** ** Buffers kept by column *)

Lemma nth_concat_rows {A} (f : nat -> list A) (F : nat) (d : A) :
  (forall t, length (f t) = F) ->
  forall T s t i, t < T -> i < F ->
    nth (t * F + i) (concat (f <$> seq s T)) d = nth i (f (s + t)) d.
Proof.
  intros Hf. induction T as [|T IH]; intros s t i Ht Hi; [lia|]. simpl.
  destruct t as [|t].
  - simpl. rewrite Nat.add_0_r. apply app_nth1. rewrite Hf. assumption.
  - rewrite app_nth2 by (rewrite Hf; simpl; lia).
    rewrite Hf. replace (S t * F + i - F) with (t * F + i) by (simpl; lia).
    rewrite IH by lia. f_equal. f_equal. lia.
Qed.

Lemma fmap_nth_seq {A} (c : list A) (d : A) :
  (fun t => nth t c d) <$> seq 0 (length c) = c.
Proof.
  apply list_eq. intros k. rewrite list_lookup_fmap.
  destruct (decide (k < length c)) as [Hk|Hk].
  - rewrite (proj2 (lookup_seq 0 (length c) k k)) by lia. simpl.
    destruct (lookup_lt_is_Some_2 c k Hk) as [x Hx].
    rewrite nth_lookup, Hx. reflexivity.
  - rewrite (lookup_ge_None_2 c) by lia.
    rewrite lookup_ge_None_2 by (rewrite length_seq; lia). reflexivity.
Qed.

(** Reading a column back from the row-major layout. *)
Lemma column_of_columns dt T (cols : matrix float64) i c :
  cols !! i = Some c -> length c = T ->
  column (of_columns dt T cols) T (length cols) i = c.
Proof.
  intros Hc Hlen. unfold column, of_columns. simpl.
  assert (Hi : i < length cols) by (eapply lookup_lt_Some; eassumption).
  transitivity ((fun t => nth t c F64.zero) <$> seq 0 T);
    [|rewrite <- Hlen; apply fmap_nth_seq].
  apply list_fmap_ext. intros k t Ht.
  apply lookup_seq in Ht as [-> Ht]. simpl.
  rewrite (nth_concat_rows (row_of cols) (length cols)); try assumption.
  - unfold row_of. simpl. rewrite nth_lookup, list_lookup_fmap, Hc. reflexivity.
  - intros t. unfold row_of. apply length_fmap.
Qed.

Lemma column_of_buffer dt T F (cols : matrix float64) i c :
  length cols = F -> cols !! i = Some c -> length c = T ->
  column (of_columns dt T cols) T F i = c.
Proof. intros <-. apply column_of_columns. Qed.

Lemma length_data_of_columns dt T F (cols : matrix float64) :
  length cols = F -> length (data (of_columns dt T cols)) = T * F.
Proof.
  intros <-. pose proof (well_formed_of_columns dt T cols) as W.
  unfold well_formed in W. simpl in *. lia.
Qed.

(** Writing the columns of an array out again gives the array. *)
Lemma of_columns_columns a T F :
  length (data a) = T * F ->
  data (of_columns (nd_dtype a) T (columns a T F)) = data a.
Proof.
  intros Hlen. unfold of_columns. simpl.
  assert (Hrow : forall t, length (row_of (columns a T F) t) = F).
  { intros t. unfold row_of. rewrite length_fmap. apply length_columns. }
  apply (nth_ext _ _ F64.zero F64.zero).
  - rewrite (length_concat_rows _ F) by assumption. lia.
  - intros k Hk. rewrite (length_concat_rows _ F) in Hk by assumption.
    assert (HF : 0 < F) by (destruct F; [lia|lia]).
    rewrite (Nat.div_mod_eq k F) at 1.
    assert (Hi : k mod F < F) by (apply Nat.mod_upper_bound; lia).
    assert (Ht : k / F < T) by (apply Nat.Div0.div_lt_upper_bound; lia).
    rewrite (Nat.mul_comm F (k / F)).
    rewrite (nth_concat_rows _ F) by assumption. simpl.
    unfold row_of. rewrite nth_lookup, list_lookup_fmap.
    rewrite lookup_columns by assumption. simpl.
    unfold column. rewrite nth_lookup, list_lookup_fmap.
    rewrite (proj2 (lookup_seq 0 T (k / F) (k / F))) by lia. simpl.
    f_equal. rewrite (Nat.div_mod_eq k F) at 3. lia.
Qed.

(** A loop that fills the columns of a buffer one after the other: when
    iteration [i] sets column [i] to a column that satisfies [R i], the
    loop returns a buffer whose every column does. *)
Lemma fill_columns_total (R : nat -> list float64 -> Prop)
    (body : nat -> matrix float64 -> M (matrix float64)) F buf0 g :
  length buf0 = F ->
  (forall i buf g, i < F -> length buf = F ->
     exists c g', body i buf g = Ok (<[i := c]> buf, g') /\ R i c) ->
  exists buf g',
    for_each (seq 0 F) body buf0 g = Ok (buf, g')
    /\ length buf = F
    /\ forall i, i < F -> exists c, buf !! i = Some c /\ R i c.
Proof.
  intros Hlen Hbody.
  pose (P := fun (i : nat) (buf : matrix float64) (_ : rng) =>
    length buf = F /\ forall i', i' < i -> exists c, buf !! i' = Some c /\ R i' c).
  destruct (for_each_seq_total P F 0 body buf0 g) as (buf & g' & Hrun & Hl & Hcols).
  - split; [assumption|]. intros; lia.
  - intros i buf g1 Hi (Hl & Hcols).
    destruct (Hbody i buf g1) as (c & g2 & Hb & Hc); [lia|assumption|].
    exists (<[i := c]> buf), g2. split; [assumption|].
    split; [rewrite length_insert; assumption|].
    intros i' Hi'. destruct (decide (i' = i)) as [->|Hne].
    + exists c. split; [apply list_lookup_insert_eq; lia|assumption].
    + rewrite list_lookup_insert_ne by lia. apply Hcols. lia.
  - exists buf, g'. split; [assumption|]. split; [assumption|]. exact Hcols.
Qed.

(** The same for a loop in which an iteration may raise: if the loop
    returns, every column satisfies [R]. *)
Lemma fill_columns_partial (R : nat -> list float64 -> Prop)
    (body : nat -> matrix float64 -> M (matrix float64)) F buf0 g buf g' :
  for_each (seq 0 F) body buf0 g = Ok (buf, g') ->
  length buf0 = F ->
  (forall i b g1 b' g2, i < F -> length b = F -> body i b g1 = Ok (b', g2) ->
     exists c, b' = <[i := c]> b /\ R i c) ->
  length buf = F /\ forall i, i < F -> exists c, buf !! i = Some c /\ R i c.
Proof.
  intros Hrun Hlen Hbody.
  pose (P := fun (i : nat) (buf : matrix float64) (_ : rng) =>
    length buf = F /\ forall i', i' < i -> exists c, buf !! i' = Some c /\ R i' c).
  apply (for_each_seq_partial P F 0 body buf0 g buf g' Hrun).
  - split; [assumption|]. intros; lia.
  - intros i b g1 b' g2 Hi (Hl & Hcols) Hb.
    destruct (Hbody i b g1 b' g2) as (c & -> & Hc); [lia|assumption|assumption|].
    split; [rewrite length_insert; assumption|].
    intros i' Hi'. destruct (decide (i' = i)) as [->|Hne].
    + exists c. split; [apply list_lookup_insert_eq; lia|assumption].
    + rewrite list_lookup_insert_ne by lia. apply Hcols. lia.
Qed.

Lemma length_zeros T F : length (zeros T F) = F.
Proof. apply length_replicate. Qed.

Lemma set_column_ok dt T (buf : matrix float64) i v :
  i < length buf -> length v = T ->
  set_column dt T buf i v = Ok (<[i := store dt <$> v]> buf).
Proof.
  intros Hi Hv. unfold set_column, broadcast_to.
  rewrite bool_decide_eq_false_2 by lia.
  rewrite Hv, Nat.eqb_refl. reflexivity.
Qed.

(** ** [emd_augmentation] *)

Lemma random_sample_ok n :
  forall g,
    random_sample n g
    = Ok ((fun k => rng_float g (k + rng_pos g)) <$> seq 0 n, skip n g).
Proof.
  induction n as [|n IH]; intros g; simpl.
  - unfold ret. rewrite skip_0. reflexivity.
  - unfold bind at 1. unfold draw_float.
    run (IH (advance g)). unfold ret.
    f_equal. f_equal.
    + f_equal. rewrite <- fmap_S_seq, <- list_fmap_compose.
      apply list_fmap_ext. intros i k _. simpl. f_equal. lia.
    + unfold skip, advance. simpl. f_equal. lia.
Qed.

Lemma length_fold_zip_with (f : float64 -> float64 -> float64) T
    (rs : matrix float64) :
  Forall (fun r => length r = T) rs ->
  forall r, length r = T -> length (fold_left (zip_with f) rs r) = T.
Proof.
  induction 1 as [|r' rs Hr' _ IH]; intros r Hr; simpl; [assumption|].
  apply IH. rewrite length_zip_with. lia.
Qed.

Section EMDSpec.
Context {E : PyEMD} {EL : PyEMDLaws E}.

Lemma draw_weights_ok p n g :
  exists ws g', draw_weights p n g = Ok (ws, g') /\ length ws = n.
Proof.
  unfold draw_weights, random_rand. unfold bind at 1. unfold draw_float.
  destruct (F64.ltb _ _).
  - run (random_sample_ok n _).
    eexists _, _. split; [reflexivity|].
    rewrite !length_fmap, length_seq. reflexivity.
  - eexists _, _. split; [reflexivity|]. apply length_replicate.
Qed.

Lemma weighted_sum_length T (ws : list float64) (IMF : matrix float64) :
  IMF <> [] -> length ws = length IMF ->
  Forall (fun imf => length imf = T) IMF ->
  length (weighted_sum ws IMF) = T.
Proof.
  intros Hne Hlen Hrows. unfold weighted_sum.
  destruct IMF as [|imf IMF]; [congruence|].
  destruct ws as [|w ws]; [discriminate|]. simpl.
  apply Forall_cons in Hrows as [Himf Hrows].
  apply length_fold_zip_with; [|rewrite length_fmap; assumption].
  clear -Hrows. revert ws. induction Hrows as [|r rs Hr _ IH]; intros ws.
  - destruct ws; constructor.
  - destruct ws as [|w ws]; simpl; constructor.
    + rewrite length_fmap. assumption.
    + apply IH.
Qed.

(** The modes kept of a non-empty decomposition: at least one, each of the
    length of the column. *)
Lemma kept_modes (IMF : matrix float64) (n : Z) T :
  IMF <> [] -> Forall (fun imf => length imf = T) IMF ->
  slice_to (Z.max 1 n) IMF <> []
  /\ Forall (fun imf => length imf = T) (slice_to (Z.max 1 n) IMF).
Proof.
  intros Hne Hrows. unfold slice_to. split.
  - rewrite slice_bound_pos by lia.
    destruct IMF as [|imf IMF]; [congruence|].
    assert (Z.to_nat (Z.max 1 n) `min` length (imf :: IMF) = S (pred (Z.to_nat (Z.max 1 n) `min` length (imf :: IMF)))) as ->
      by (simpl; lia).
    discriminate.
  - apply Forall_take. assumption.
Qed.

(** One iteration of the loop over the columns: column [i] of the buffer
    is set; to the column of the signal itself when the solver finds no
    mode in it, and then no random number is drawn. *)
Lemma emd_column_total signal T F n_imf p imf_rate i buf g :
  i < length buf ->
  (emd (column signal T F i) n_imf <> [] ->
   exists z, py_int_of_product (length (emd (column signal T F i) n_imf)) imf_rate = Ok z) ->
  exists v g',
    emd_column signal T F n_imf p imf_rate i buf g
      = Ok (<[i := store (nd_dtype signal) <$> v]> buf, g')
    /\ length v = T
    /\ (emd (column signal T F i) n_imf = [] -> v = column signal T F i /\ g' = g).
Proof.
  intros Hi Hrate. unfold emd_column.
  pose proof (emd_rows (column signal T F i) n_imf) as Hrows.
  rewrite length_column in Hrows.
  destruct (emd (column signal T F i) n_imf) as [|imf IMF] eqn:HIMF.
  - simpl. exists (column signal T F i), g. split; [|split; [apply length_column|auto]].
    apply lift_ok, set_column_ok; [assumption|apply length_column].
  - change (length (imf :: IMF) =? 0) with false. cbv iota.
    destruct Hrate as [z Hz]; [discriminate|].
    run_lift Hz.
    destruct (kept_modes (imf :: IMF) z T) as [Hne Hkept]; [discriminate|assumption|].
    destruct (draw_weights_ok p (length (slice_to (Z.max 1 z) (imf :: IMF))) g)
      as (ws & g' & Hws & Hlen).
    run Hws.
    exists (weighted_sum ws (slice_to (Z.max 1 z) (imf :: IMF))), g'.
    split; [|split; [|discriminate]].
    + apply lift_ok, set_column_ok; [assumption|].
      apply weighted_sum_length; assumption.
    + apply weighted_sum_length; assumption.
Qed.

(** The operator returns on a floating-point signal of T time steps and F
    features when [int(len(IMF) * imf_rate)] is defined for every column
    that has modes; column [i] of the result is the post-processed column
    [v] that the loop has stored. *)
Lemma emd_augmentation_spec signal T F n_imf p imf_rate lo hi offset g :
  dims signal T F -> nd_dtype signal <> Int64 ->
  (forall i, i < F -> emd (column signal T F i) n_imf <> [] ->
     exists z, py_int_of_product (length (emd (column signal T F i) n_imf)) imf_rate = Ok z) ->
  exists buf g',
    emd_augmentation signal n_imf p imf_rate lo hi offset g
      = Ok (let a := offset_then_clip (of_columns (nd_dtype signal) T buf) offset lo hi in
            if length (shape signal) =? 1 then flatten a else a, g')
    /\ length buf = F
    /\ forall i, i < F ->
         exists v, buf !! i = Some (store (nd_dtype signal) <$> v) /\ length v = T
           /\ (emd (column signal T F i) n_imf = [] -> v = column signal T F i).
Proof.
  intros Hd Hfloat Hrate. unfold emd_augmentation.
  destruct (dims_unpack signal T F Hd) as (Hu & Hdata & Hdt).
  run_lift Hu.
  set (signal' := if ndim signal =? 1 then reshape_column signal else signal) in *.
  assert (Hcol : forall i, column signal' T F i = column signal T F i).
  { intros i. unfold column. rewrite Hdata. reflexivity. }
  destruct (fill_columns_total
              (fun i c => exists v, c = store (nd_dtype signal) <$> v /\ length v = T
                 /\ (emd (column signal T F i) n_imf = [] -> v = column signal T F i))
              (emd_column signal' T F n_imf p imf_rate) F (zeros T F) g)
    as (buf & g' & Hrun & Hlen & Hcols).
  - apply length_zeros.
  - intros i b g1 Hi Hb.
    destruct (emd_column_total signal' T F n_imf p imf_rate i b g1)
      as (v & g2 & Hstep & Hv & Hempty).
    { lia. }
    { rewrite Hcol. apply Hrate. assumption. }
    rewrite Hdt in Hstep. eexists _, g2. split; [exact Hstep|].
    exists v. split; [reflexivity|]. split; [assumption|].
    intros He. rewrite <- Hcol. apply Hempty. rewrite Hcol. assumption.
  - run Hrun. rewrite Hdt.
    run_lift (post_process_float (of_columns (nd_dtype signal) T buf) offset lo hi Hfloat).
    exists buf, g'. split; [reflexivity|]. split; [assumption|].
    intros i Hi. destruct (Hcols i Hi) as (c & Hc & v & -> & Hv & He).
    exists v. auto.
Qed.
End EMDSpec.

Lemma column_fmap (f : float64 -> float64) a b T F i :
  length (data a) = T * F -> i < F -> data b = f <$> data a ->
  column b T F i = f <$> column a T F i.
Proof.
  intros Hlen Hi Hb. unfold column. rewrite Hb, <- list_fmap_compose.
  apply list_fmap_ext. intros k t Ht. apply lookup_seq in Ht as [-> Ht]. simpl.
  assert (Hk : k * F + i < length (data a)) by nia.
  destruct (lookup_lt_is_Some_2 (data a) _ Hk) as [x Hx].
  rewrite !nth_lookup, list_lookup_fmap, Hx. reflexivity.
Qed.

Lemma dims_length_data a T F :
  dims a T F -> well_formed a -> length (data a) = T * F.
Proof.
  unfold dims, well_formed. intros [H|[H ->]] ->; rewrite H; simpl; lia.
Qed.

Lemma store_float64 (v : list float64) : store Float64 <$> v = v.
Proof. apply list_fmap_id. Qed.

(** Every column of the result of [dominant_shuffle] is the inverse
    transform, at length T, of the shuffled column of the spectrum, with
    the offset added and the sum clipped. *)
Lemma dominant_shuffle_columns {N : Numpy} {NL : NumpyLaws N}
    signal T F rate lo hi offset g :
  dims signal T F -> 0 < T ->
  exists new_signal_f out g',
    shuffle (np_fft_rfft <$> columns signal T F)
      (top_k (magnitudes (np_fft_rfft <$> columns signal T F)) rate) F g
      = Ok (new_signal_f, g')
    /\ dominant_shuffle signal rate lo hi offset g = Ok (out, g')
    /\ forall i col, new_signal_f !! i = Some col ->
         column out T F i
         = (fun x => clip1 lo hi (F64.add x offset)) <$> np_fft_irfft col T.
Proof.
  intros Hd HT.
  destruct (dominant_shuffle_spec signal T F rate lo hi offset g Hd HT)
    as (new_f & Hrun & Hlen & _ & Hop).
  eexists new_f, _, _. split; [exact Hrun|]. split; [exact Hop|].
  intros i col Hcol. cbv zeta. rewrite column_restore.
  assert (Hi : i < F) by (apply lookup_lt_Some in Hcol; lia).
  rewrite (column_fmap (fun x => clip1 lo hi (F64.add x offset))
             (of_columns Float64 T ((fun c => np_fft_irfft c T) <$> new_f)));
    [|apply length_data_of_columns; rewrite length_fmap; assumption
     |assumption|apply data_offset_then_clip].
  f_equal. apply column_of_buffer.
  - rewrite length_fmap. assumption.
  - rewrite list_lookup_fmap, Hcol. reflexivity.
  - apply irfft_length. assumption.
Qed.

Lemma stub_emd_laws : PyEMDLaws stub_emd.
Proof.
  split. intros s n. simpl. destruct (is_zero s); repeat constructor.
Qed.

(** ** Clipping *)

Lemma offset_then_clipped_intro lo hi offset (sh : list nat) pre :
  F64.leb lo hi = true ->
  offset_then_clipped lo hi offset pre
    (if length sh =? 1
     then flatten (offset_then_clip pre offset (Some lo) (Some hi))
     else offset_then_clip pre offset (Some lo) (Some hi)).
Proof.
  intros Hle. unfold offset_then_clipped.
  assert (Hdata : data (if length sh =? 1
                        then flatten (offset_then_clip pre offset (Some lo) (Some hi))
                        else offset_then_clip pre offset (Some lo) (Some hi))
                  = (fun x => clip_kernel lo hi (F64.add x offset)) <$> data pre).
  { destruct (length sh =? 1); [unfold flatten; cbn [data]|];
      apply (data_offset_then_clip pre offset (Some lo) (Some hi)). }
  rewrite Hdata. split; [reflexivity|].
  apply Forall_fmap, Forall_forall. intros x _. simpl.
  destruct (F64.is_nan (F64.add x offset)) eqn:Hnan.
  - left. destruct (F64.add x offset); try discriminate. reflexivity.
  - right. apply clip_kernel_within; assumption.
Qed.

(** What [dominant_shuffle] computes before the post-processing does not
    depend on the offset and the clip bounds: a call that returns has
    computed an array [pre], and the call returns the post-processed [pre]
    for every offset and all bounds. *)
Lemma dominant_shuffle_pre {N : Numpy} signal rate lo hi offset g out g' :
  dominant_shuffle signal rate lo hi offset g = Ok (out, g') ->
  exists pre,
    forall lo' hi' offset',
      dominant_shuffle signal rate lo' hi' offset' g
      = Ok (if length (shape signal) =? 1
            then flatten (offset_then_clip pre offset' lo' hi')
            else offset_then_clip pre offset' lo' hi', g').
Proof.
  unfold dominant_shuffle. intros H.
  apply bind_inv in H as ([T F] & g1 & Hu & H). apply lift_inv in Hu as [Hu ->].
  apply bind_inv in H as (sf & g2 & Hsf & H). apply lift_inv in Hsf as [Hsf ->].
  apply bind_inv in H as (nf & g3 & Hrun & H). apply ret_inv in H as [_ ->].
  eexists. intros lo' hi' offset'.
  run_lift Hu. run_lift Hsf. run Hrun. reflexivity.
Qed.

Lemma emd_augmentation_pre {E : PyEMD} signal n_imf p imf_rate lo hi offset g out g' :
  emd_augmentation signal n_imf p imf_rate lo hi offset g = Ok (out, g') ->
  exists pre,
    forall lo' hi' offset',
      emd_augmentation signal n_imf p imf_rate lo' hi' offset' g
      = Ok (if length (shape signal) =? 1
            then flatten (offset_then_clip pre offset' lo' hi')
            else offset_then_clip pre offset' lo' hi', g').
Proof.
  unfold emd_augmentation. intros H.
  apply bind_inv in H as ([T F] & g1 & Hu & H). apply lift_inv in Hu as [Hu ->].
  apply bind_inv in H as (buf & g2 & Hrun & H).
  apply bind_inv in H as (a & g3 & Hp & H). apply lift_inv in Hp as [Hp ->].
  apply post_process_inv in Hp as [Hfloat _]. apply ret_inv in H as [_ ->].
  eexists. intros lo' hi' offset'.
  run_lift Hu. run Hrun.
  run_lift (post_process_float _ offset' lo' hi' Hfloat). reflexivity.
Qed.

Lemma mix_augmentation_pre signal1 signal2 alpha mix_rate lo hi offset g out g' :
  mix_augmentation signal1 signal2 alpha mix_rate lo hi offset g = Ok (out, g') ->
  exists pre,
    forall lo' hi' offset',
      mix_augmentation signal1 signal2 alpha mix_rate lo' hi' offset' g
      = Ok (offset_then_clip pre offset' lo' hi', g').
Proof.
  intros H. pose proof (mix_augmentation_float _ _ _ _ _ _ _ _ _ _ H) as Hfloat.
  apply mix_augmentation_inv in H as (T & k & Hs & Ha & HT & Hk & -> & _).
  eexists. intros lo' hi' offset'.
  apply (mix_augmentation_returns _ _ _ _ _ _ _ _ _ _ Hs Ha HT Hk Hfloat).
Qed.

(** C2, as the code has it.  Each of the three operators that take clip
    bounds computes an array [pre] that depends on neither the offset nor
    the bounds, adds the offset to it and clips the sum afterwards; when
    both bounds are given with [clip_min <= clip_max], every element of the
    returned array is inside [clip_min, clip_max] or is a NaN, which
    [np.clip] returns as it is. *)
Theorem clipped_output_within_bounds_or_nan {N : Numpy} {E : PyEMD}
    (signal signal2 : ndarray) (rate n_imf : Z)
    (random_weight_prob imf_rate alpha mix_rate : float64)
    (lo hi offset : float64) (g : rng) :
  F64.leb lo hi = true ->
  nd_dtype signal = Float64 ->
  (forall out g',
     dominant_shuffle signal rate (Some lo) (Some hi) offset g = Ok (out, g') ->
     exists pre,
       (forall lo' hi' offset',
          dominant_shuffle signal rate lo' hi' offset' g
          = Ok (if length (shape signal) =? 1
                then flatten (offset_then_clip pre offset' lo' hi')
                else offset_then_clip pre offset' lo' hi', g'))
       /\ offset_then_clipped lo hi offset pre out)
  /\ (forall out g',
        emd_augmentation signal n_imf random_weight_prob imf_rate
          (Some lo) (Some hi) offset g = Ok (out, g') ->
        exists pre,
          (forall lo' hi' offset',
             emd_augmentation signal n_imf random_weight_prob imf_rate
               lo' hi' offset' g
             = Ok (if length (shape signal) =? 1
                   then flatten (offset_then_clip pre offset' lo' hi')
                   else offset_then_clip pre offset' lo' hi', g'))
          /\ offset_then_clipped lo hi offset pre out)
  /\ (forall out g',
        mix_augmentation signal signal2 alpha mix_rate (Some lo) (Some hi) offset g
          = Ok (out, g') ->
        exists pre,
          (forall lo' hi' offset',
             mix_augmentation signal signal2 alpha mix_rate lo' hi' offset' g
             = Ok (offset_then_clip pre offset' lo' hi', g'))
          /\ offset_then_clipped lo hi offset pre out).
Proof.
  intros Hle _. split; [|split].
  - intros out g' H. destruct (dominant_shuffle_pre _ _ _ _ _ _ _ _ H) as [pre Hpre].
    exists pre. split; [exact Hpre|].
    rewrite Hpre in H. injection H as <-.
    apply offset_then_clipped_intro. assumption.
  - intros out g' H. destruct (emd_augmentation_pre _ _ _ _ _ _ _ _ _ _ H) as [pre Hpre].
    exists pre. split; [exact Hpre|].
    rewrite Hpre in H. injection H as <-.
    apply offset_then_clipped_intro. assumption.
  - intros out g' H. destruct (mix_augmentation_pre _ _ _ _ _ _ _ _ _ _ H) as [pre Hpre].
    exists pre. split; [exact Hpre|].
    rewrite Hpre in H. injection H as <-.
    apply (offset_then_clipped_intro lo hi offset [] pre Hle).
Qed.

Lemma clipped_output_within_bounds_or_nan_witness :
  F64.leb F64.zero F64.one = true
  /\ nd_dtype ramp6 = Float64
  /\ (exists pre out g',
        dominant_shuffle (N := stub_numpy) ramp6 2
          (Some F64.zero) (Some F64.one) F64.zero g0 = Ok (out, g')
        /\ offset_then_clipped F64.zero F64.one F64.zero pre out)
  /\ (exists pre out g',
        emd_augmentation (E := stub_emd) ramp6 10 F64.half F64.one
          (Some F64.zero) (Some F64.one) F64.zero g0 = Ok (out, g')
        /\ offset_then_clipped F64.zero F64.one F64.zero pre out)
  /\ (exists pre out g',
        mix_augmentation ramp6 ramp6 F64.half F64.one
          (Some F64.zero) (Some F64.one) F64.zero g0 = Ok (out, g')
        /\ offset_then_clipped F64.zero F64.one F64.zero pre out).
Proof.
  assert (Hle : F64.leb F64.zero F64.one = true) by reflexivity.
  assert (Hd : dims ramp6 6 1) by (right; split; reflexivity).
  destruct (@clipped_output_within_bounds_or_nan stub_numpy stub_emd ramp6 ramp6
              2 10 F64.half F64.one F64.half F64.one F64.zero F64.one F64.zero g0
              Hle eq_refl)
    as (H1 & H2 & H3).
  split; [exact Hle|]. split; [reflexivity|]. split; [|split].
  - destruct (@dominant_shuffle_shape stub_numpy stub_numpy_laws ramp6 6 1 2
                (Some F64.zero) (Some F64.one) F64.zero g0 Hd)
      as (out & g' & Hrun & _); [lia|].
    destruct (H1 out g' Hrun) as (pre & _ & Hc).
    exists pre, out, g'. split; [exact Hrun|exact Hc].
  - destruct (@emd_augmentation_spec stub_emd stub_emd_laws ramp6 6 1 10
                F64.half F64.one (Some F64.zero) (Some F64.one) F64.zero g0 Hd)
      as (buf & g' & Hrun & _).
    { discriminate. }
    { intros i Hi _. exists 1%Z. destruct i as [|i]; [reflexivity|lia]. }
    destruct (H2 _ g' Hrun) as (pre & _ & Hc).
    eexists pre, _, g'. split; [exact Hrun|exact Hc].
  - assert (Hfloat : nd_dtype ramp6 <> Int64) by discriminate.
    pose proof (mix_augmentation_returns ramp6 ramp6 F64.half F64.one
                  (Some F64.zero) (Some F64.one) F64.zero g0 6 6
                  eq_refl eq_refl eq_refl eq_refl Hfloat) as Hrun.
    destruct (H3 _ _ Hrun) as (pre & _ & Hc).
    eexists pre, _, _. split; [exact Hrun|exact Hc].
Defined.

(** C2 as stated fails on a NaN: [np.clip] returns a NaN as it is, and a
    NaN is in no interval. *)
Lemma clipped_output_can_be_nan :
  exists out g',
    mix_augmentation (vector [F64.nan; F64.two]) (vector [F64.zero; F64.zero])
      F64.half F64.one (Some F64.zero) (Some F64.one) F64.zero g0 = Ok (out, g')
    /\ F64.leb F64.zero F64.one = true
    /\ data out = [F64.nan; F64.one]
    /\ F64.leb F64.zero F64.nan = false
    /\ F64.leb F64.nan F64.one = false.
Proof.
  exists (vector [F64.nan; F64.one]), (advance g0).
  repeat split; reflexivity.
Qed.

(** ** [WaveAug]: masking and mixing the coefficients *)

Lemma py_index_ok {A} (l : list A) (i : nat) x :
  l !! i = Some x -> py_index l (Z.of_nat i) = Ok x.
Proof.
  intros H. unfold py_index.
  destruct (Z.ltb_spec (Z.of_nat i) 0); [lia|].
  destruct (Z.ltb_spec (Z.of_nat i) 0); [lia|].
  rewrite Nat2Z.id, H. reflexivity.
Qed.

(** [rates[min(i, len(rates) - 1)]] of a non-empty list: the rate at
    position [i], or the last one when [i] is past the end. *)
Lemma select_rate_ok (rates : list float64) (i : nat) :
  rates <> [] ->
  select_rate rates i = Ok (nth (Nat.min i (length rates - 1)) rates F64.nan).
Proof.
  intros Hne. unfold select_rate.
  assert (Hlen : 0 < length rates) by (destruct rates; [congruence|simpl; lia]).
  replace (Z.min (Z.of_nat i) (Z.of_nat (length rates) - 1))
    with (Z.of_nat (Nat.min i (length rates - 1))) by lia.
  apply py_index_ok.
  destruct (lookup_lt_is_Some_2 rates (Nat.min i (length rates - 1))) as [r Hr]; [lia|].
  rewrite nth_lookup, Hr. reflexivity.
Qed.

Lemma slice_to_take {A} (T : nat) (s : list A) : slice_to (Z.of_nat T) s = take T s.
Proof.
  unfold slice_to. rewrite slice_bound_pos by lia. rewrite Nat2Z.id.
  destruct (decide (T <= length s)).
  - f_equal. lia.
  - rewrite Nat.min_r by lia. rewrite !take_ge by lia. reflexivity.
Qed.

Lemma broadcast_to_length {A} n (v v' : list A) :
  broadcast_to n v = Ok v' -> length v' = n.
Proof.
  unfold broadcast_to. destruct (Nat.eqb_spec (length v) n).
  - intros [= <-]. assumption.
  - destruct v as [|x [|y v]]; try discriminate.
    intros [= <-]. apply length_replicate.
Qed.

Lemma broadcast_to_same {A} n (v : list A) : length v = n -> broadcast_to n v = Ok v.
Proof. intros H. unfold broadcast_to. rewrite H, Nat.eqb_refl. reflexivity. Qed.

Lemma broadcast_to_short {A} n (v : list A) :
  length v <> n -> length v <> 1 -> broadcast_to n v = Raise BroadcastError.
Proof.
  intros H1 H2. unfold broadcast_to.
  destruct (Nat.eqb_spec (length v) n); [contradiction|].
  destruct v as [|x [|y v]]; simpl in *; congruence.
Qed.

Lemma length_mask_where (m : list bool) (c : list float64) :
  length m = length c -> length (mask_where m c) = length c.
Proof. intros H. unfold mask_where. rewrite length_zip_with. lia. Qed.

Section MaskCoeffs.
Context {W : PyWavelets}.

Lemma random_mask_ok n r g :
  random_mask n r g
  = Ok ((fun x => F64.ltb x r) <$> ((fun k => rng_float g (k + rng_pos g)) <$> seq 0 n),
        skip n g).
Proof.
  unfold random_mask. run (random_sample_ok n g). reflexivity.
Qed.

(** One iteration of the masking loop, on a detail array [c_i]. *)
Lemma mask_step_ok rates i (coeffs : matrix float64) c_i g :
  rates <> [] -> coeffs !! i = Some c_i ->
  exists u,
    length u = length c_i
    /\ mask_step rates i coeffs g
       = Ok (<[i := mask_where
                      ((fun x => F64.ltb x (nth (Nat.min i (length rates - 1)) rates F64.nan))
                         <$> u) c_i]> coeffs,
             skip (length c_i) g).
Proof.
  intros Hne Hc. unfold mask_step.
  run_lift ((py_index_ok _ _ _ Hc)).
  run_lift ((select_rate_ok rates i Hne)).
  run (random_mask_ok _ _ _).
  eexists. split; [|reflexivity].
  rewrite length_fmap, length_seq. reflexivity.
Qed.

(** The masking loop of [WaveAug.augment]: array 0 is left as it is; every array
    at an index [i >= 1] is masked against uniform draws with the rate
    [rates[min(i, len(rates) - 1)]]. *)
Lemma mask_coeffs_spec rates (coeffs : matrix float64) g :
  rates <> [] ->
  exists coeffs' g',
    mask_coeffs rates coeffs g = Ok (coeffs', g')
    /\ length <$> coeffs' = length <$> coeffs
    /\ coeffs' !! 0 = coeffs !! 0
    /\ forall i c_i, 1 <= i -> coeffs !! i = Some c_i ->
         exists u,
           length u = length c_i
           /\ coeffs' !! i
              = Some (mask_where
                        ((fun x => F64.ltb x (nth (Nat.min i (length rates - 1)) rates F64.nan))
                           <$> u) c_i).
Proof.
  intros Hne. unfold mask_coeffs.
  pose (P := fun (j : nat) (cs : matrix float64) (_ : rng) =>
    length <$> cs = length <$> coeffs
    /\ (forall i, i = 0 \/ j <= i -> cs !! i = coeffs !! i)
    /\ forall i c_i, 1 <= i < j -> coeffs !! i = Some c_i ->
         exists u,
           length u = length c_i
           /\ cs !! i
              = Some (mask_where
                        ((fun x => F64.ltb x (nth (Nat.min i (length rates - 1)) rates F64.nan))
                           <$> u) c_i)).
  destruct (for_each_seq_total P (length coeffs - 1) 1 (mask_step rates) coeffs g)
    as (cs & g' & Hrun & Hlen & Hkeep & Hmask).
  - split; [reflexivity|]. split; [reflexivity|]. intros; lia.
  - intros j cs g1 Hj (Hlen & Hkeep & Hmask).
    destruct (lookup_lt_is_Some_2 coeffs j) as [c_j Hc]; [lia|].
    destruct (mask_step_ok rates j cs c_j g1 Hne) as (u & Hu & Hstep).
    { rewrite Hkeep by lia. assumption. }
    eexists _, _. split; [exact Hstep|]. split; [|split].
    + rewrite list_fmap_insert, <- Hlen.
      apply list_insert_id. rewrite Hlen, list_lookup_fmap, Hc. simpl.
      f_equal. symmetry. apply length_mask_where. rewrite length_fmap. assumption.
    + intros i Hi. rewrite list_lookup_insert_ne by lia. apply Hkeep. lia.
    + intros i c_i Hi Hci. destruct (decide (i = j)) as [->|Hij].
      * exists u. assert (c_i = c_j) by congruence. subst c_i.
        split; [assumption|]. apply list_lookup_insert_eq.
        apply (f_equal length) in Hlen. rewrite !length_fmap in Hlen. lia.
      * rewrite list_lookup_insert_ne by lia. apply Hmask; [lia|assumption].
  - exists cs, g'. split; [exact Hrun|]. split; [assumption|].
    split; [apply Hkeep; auto|].
    intros i c_i Hi Hci. apply Hmask; [|assumption].
    apply lookup_lt_Some in Hci. lia.
Qed.
End MaskCoeffs.

Section WaveAugSpec.
Context {W : PyWavelets}.

Lemma np_where_ok (m : list bool) (a b : list float64) :
  length m = length a -> length b = length a ->
  np_where m a b
  = Ok (zip_with (fun c ab => if c : bool then fst ab else snd ab) m (zip a b)).
Proof.
  intros Hm Hb. unfold np_where, broadcast_length.
  rewrite Hb, Nat.eqb_refl.
  rewrite !broadcast_to_same by congruence. reflexivity.
Qed.

(** One iteration of the mixing loop of [WaveAug.augment_multi]. *)
Lemma mix_step_ok rates (coeffs1 coeffs2 : matrix float64) i c1 c2 mixed g :
  rates <> [] -> coeffs1 !! i = Some c1 -> coeffs2 !! i = Some c2 ->
  length c2 = length c1 ->
  exists u,
    length u = length c1
    /\ mix_step rates coeffs1 coeffs2 i mixed g
       = Ok (mixed ++
               [zip_with (fun c ab => if c : bool then fst ab else snd ab)
                  ((fun x => F64.ltb x (nth (Nat.min i (length rates - 1)) rates F64.nan))
                     <$> u)
                  (zip c1 c2)],
             skip (length c1) g).
Proof.
  intros Hne H1 H2 Hlen. unfold mix_step.
  run_lift ((py_index_ok _ _ _ H1)).
  run_lift ((py_index_ok _ _ _ H2)).
  run_lift ((select_rate_ok rates i Hne)).
  run (random_mask_ok _ _ _).
  eexists. split; [|erewrite (bind_ok _ _ _ _ _ (lift_ok _ _ _ (np_where_ok _ _ _ _ Hlen)));
                    reflexivity].
  rewrite length_fmap, length_seq. reflexivity.
  Unshelve. rewrite !length_fmap, length_seq. reflexivity.
Qed.

(** The mixing loop: one mixed array per level, the approximation
    included, of the length of the arrays it is mixed from. *)
Lemma mix_coeffs_spec rates (coeffs1 coeffs2 : matrix float64) g :
  rates <> [] -> length <$> coeffs2 = length <$> coeffs1 ->
  exists mixed g',
    for_each (seq 0 (length coeffs1)) (mix_step rates coeffs1 coeffs2) [] g
      = Ok (mixed, g')
    /\ length <$> mixed = length <$> coeffs1.
Proof.
  intros Hne Hlens.
  pose (P := fun (j : nat) (mixed : matrix float64) (_ : rng) =>
    length <$> mixed = length <$> take j coeffs1).
  destruct (for_each_seq_total P (length coeffs1) 0
              (mix_step rates coeffs1 coeffs2) [] g) as (mixed & g' & Hrun & HP).
  - reflexivity.
  - intros j mixed g1 Hj HP.
    destruct (lookup_lt_is_Some_2 coeffs1 j) as [c1 H1]; [lia|].
    destruct (lookup_lt_is_Some_2 coeffs2 j) as [c2 H2].
    { apply (f_equal length) in Hlens. rewrite !length_fmap in Hlens. lia. }
    assert (Hl : length c2 = length c1).
    { apply (f_equal (fun l => l !! j)) in Hlens.
      rewrite !list_lookup_fmap, H1, H2 in Hlens. simpl in Hlens. congruence. }
    destruct (mix_step_ok rates coeffs1 coeffs2 j c1 c2 mixed g1 Hne H1 H2 Hl)
      as (u & Hu & Hstep).
    eexists _, _. split; [exact Hstep|].
    unfold P in *. rewrite (take_S_r _ _ _ H1), !fmap_app, HP. simpl.
    f_equal. f_equal. rewrite length_zip_with, length_zip, length_fmap. lia.
  - exists mixed, g'. split; [exact Hrun|].
    unfold P in HP. simpl in HP. rewrite take_ge in HP by lia. exact HP.
Qed.

(** ** [WaveAug]: the reconstructed column *)

(** What an iteration of [WaveAug.augment] that returns has done. *)
Lemma augment_column_inv signal T F rates wv level col buf g buf' g' :
  augment_column signal T F rates wv level col buf g = Ok (buf', g') ->
  exists coeffs' v,
    mask_coeffs rates (wavedec (column signal T F col) wv level) g = Ok (coeffs', g')
    /\ broadcast_to T (take T (waverec coeffs' wv)) = Ok v
    /\ buf' = <[col := F64.to_f32 <$> v]> buf.
Proof.
  unfold augment_column. intros H.
  apply bind_inv in H as (coeffs' & g1 & Hmask & H).
  apply lift_inv in H as [H ->]. rewrite slice_to_take in H.
  unfold set_column in H. case_bool_decide; [discriminate|].
  destruct (broadcast_to T (take T (waverec coeffs' wv))) as [v|e] eqn:Hv; [|discriminate].
  injection H as <-. exists coeffs', v. auto.
Qed.

Lemma augment_multi_column_inv signal1 signal2 T F rates wv level col buf g buf' g' :
  augment_multi_column signal1 signal2 T F rates wv level col buf g = Ok (buf', g') ->
  exists mixed_coeffs v,
    for_each (seq 0 (length (wavedec (column signal1 T F col) wv level)))
      (mix_step rates (wavedec (column signal1 T F col) wv level)
         (wavedec (column signal2 T F col) wv level)) [] g = Ok (mixed_coeffs, g')
    /\ broadcast_to T (take T (waverec mixed_coeffs wv)) = Ok v
    /\ buf' = <[col := F64.to_f32 <$> v]> buf.
Proof.
  unfold augment_multi_column. intros H.
  apply bind_inv in H as (mixed & g1 & Hmix & H).
  apply lift_inv in H as [H ->]. rewrite slice_to_take in H.
  unfold set_column in H. case_bool_decide; [discriminate|].
  destruct (broadcast_to T (take T (waverec mixed wv))) as [v|e] eqn:Hv; [|discriminate].
  injection H as <-. exists mixed, v. auto.
Qed.

(** The column assignment [buf[:, col] = s[:T]] on a reconstruction [s]:
    with at least T samples the first T are stored, rounded to float32;
    with fewer than T, and not exactly one, the assignment raises. *)
Lemma store_reconstruction T (buf : matrix float64) col (s : list float64) :
  col < length buf ->
  (T <= length s ->
   set_column Float32 T buf col (slice_to (Z.of_nat T) s)
   = Ok (<[col := F64.to_f32 <$> take T s]> buf)
   /\ length (take T s) = T)
  /\ (length s < T -> length s <> 1 ->
      set_column Float32 T buf col (slice_to (Z.of_nat T) s) = Raise BroadcastError)
  /\ (forall x, s = [x] -> 1 < T ->
      set_column Float32 T buf col (slice_to (Z.of_nat T) s)
      = Ok (<[col := F64.to_f32 <$> replicate T x]> buf)).
Proof.
  intros Hcol. rewrite slice_to_take. unfold set_column.
  rewrite bool_decide_eq_false_2 by lia. split; [|split].
  - intros Hs. rewrite broadcast_to_same by (rewrite length_take; lia).
    split; [reflexivity|]. rewrite length_take. lia.
  - intros Hs H1. rewrite take_ge by lia.
    rewrite broadcast_to_short by lia. reflexivity.
  - intros x -> HT. rewrite take_ge by (simpl; lia).
    unfold broadcast_to. cbn [length].
    destruct (Nat.eqb_spec 1 T) as [|_]; [lia|]. reflexivity.
Qed.

(** The masking loop never writes to array 0, whatever the rates are. *)
Lemma mask_coeffs_keeps_approximation rates (coeffs : matrix float64) g coeffs' g' :
  mask_coeffs rates coeffs g = Ok (coeffs', g') -> coeffs' !! 0 = coeffs !! 0.
Proof.
  unfold mask_coeffs. intros Hrun.
  apply (for_each_seq_partial
           (fun (_ : nat) (cs : matrix float64) (_ : rng) => cs !! 0 = coeffs !! 0)
           (length coeffs - 1) 1 (mask_step rates) coeffs g coeffs' g' Hrun).
  - reflexivity.
  - intros j cs g1 cs' g2 Hj Hcs Hstep. unfold mask_step in Hstep.
    apply bind_inv in Hstep as (c_i & ga & _ & Hstep).
    apply bind_inv in Hstep as (r & gb & _ & Hstep).
    apply bind_inv in Hstep as (m & gc & _ & Hstep).
    apply ret_inv in Hstep as [-> _].
    rewrite list_lookup_insert_ne by lia. assumption.
Qed.
End WaveAugSpec.

Lemma unpack_dims a T F :
  unpack_shape (shape (if ndim a =? 1 then reshape_column a else a)) = Ok (T, F) ->
  dims a T F.
Proof.
  unfold ndim, dims. destruct (shape a) as [|n [|f [|x sh]]] eqn:Hs; simpl;
    rewrite ?Hs; simpl; try discriminate.
  - rewrite Nat.mul_1_r. intros [= <- <-]. auto.
  - intros [= <- <-]. auto.
Qed.

Section WaveAugOperators.
Context {W : PyWavelets}.

(** What a call of [WaveAug.augment] that returns has computed: a float32 array
    whose every column is the reconstruction of the masked coefficients of
    the input column, cut to T samples and rounded to float32. *)
Lemma augment_inv signal rates wv level g out g' :
  WaveAug.augment signal rates wv level g = Ok (out, g') ->
  exists T F buf,
    dims signal T F
    /\ out = (if length (shape signal) =? 1
              then flatten (of_columns Float32 T buf) else of_columns Float32 T buf)
    /\ length buf = F
    /\ forall col, col < F ->
         exists coeffs' v g1 g2,
           mask_coeffs rates (wavedec (column signal T F col) wv level) g1 = Ok (coeffs', g2)
           /\ broadcast_to T (take T (waverec coeffs' wv)) = Ok v
           /\ buf !! col = Some (F64.to_f32 <$> v).
Proof.
  unfold WaveAug.augment. intros H.
  apply bind_inv in H as ([T F] & g1 & Hu & H). apply lift_inv in Hu as [Hu ->].
  apply bind_inv in H as (buf & g2 & Hloop & H). apply ret_inv in H as [-> ->].
  pose proof (unpack_dims _ _ _ Hu) as Hd.
  destruct (dims_unpack signal T F Hd) as (_ & Hdata & _).
  exists T, F, buf. split; [assumption|]. split; [reflexivity|].
  destruct (fill_columns_partial
           (fun col c => exists coeffs' v g1 g2,
              mask_coeffs rates (wavedec (column signal T F col) wv level) g1 = Ok (coeffs', g2)
              /\ broadcast_to T (take T (waverec coeffs' wv)) = Ok v
              /\ c = F64.to_f32 <$> v)
           _ F (zeros T F) g buf g2 Hloop (length_zeros T F)) as [Hlen Hcols].
  - intros col b g3 b' g4 Hcol Hb Hstep.
    apply augment_column_inv in Hstep as (coeffs' & v & Hmask & Hv & ->).
    eexists. split; [reflexivity|]. exists coeffs', v, g3, g4.
    split; [|auto]. unfold column in *. rewrite Hdata in Hmask. exact Hmask.
  - split; [exact Hlen|]. intros col Hcol.
    destruct (Hcols col Hcol) as (c & Hc & coeffs' & v & g3 & g4 & Hm & Hv & ->).
    exists coeffs', v, g3, g4. auto.
Qed.

Lemma augment_multi_inv signal1 signal2 rates wv level g out g' :
  WaveAug.augment_multi signal1 signal2 rates wv level g = Ok (out, g') ->
  exists T F buf,
    shape signal1 = shape signal2
    /\ dims signal1 T F
    /\ out = (if length (shape signal1) =? 1
              then flatten (of_columns Float32 T buf) else of_columns Float32 T buf)
    /\ length buf = F
    /\ forall col, col < F ->
         exists mixed_coeffs v g1 g2,
           for_each (seq 0 (length (wavedec (column signal1 T F col) wv level)))
             (mix_step rates (wavedec (column signal1 T F col) wv level)
                (wavedec (column signal2 T F col) wv level)) [] g1 = Ok (mixed_coeffs, g2)
           /\ broadcast_to T (take T (waverec mixed_coeffs wv)) = Ok v
           /\ buf !! col = Some (F64.to_f32 <$> v).
Proof.
  unfold WaveAug.augment_multi, shape_eqb. intros H.
  case_bool_decide as Hs; simpl in H; [|discriminate].
  apply bind_inv in H as ([T F] & g1 & Hu & H). apply lift_inv in Hu as [Hu ->].
  apply bind_inv in H as (buf & g2 & Hloop & H). apply ret_inv in H as [-> ->].
  pose proof (unpack_dims _ _ _ Hu) as Hd.
  assert (Hd2 : dims signal2 T F) by (unfold dims in *; rewrite <- Hs; assumption).
  destruct (dims_unpack signal1 T F Hd) as (_ & Hdata1 & _).
  assert (Hdata2 : data (if ndim signal1 =? 1 then reshape_column signal2 else signal2)
                   = data signal2) by (destruct (_ =? _); reflexivity).
  exists T, F, buf. split; [assumption|]. split; [assumption|]. split; [reflexivity|].
  destruct (fill_columns_partial
           (fun col c => exists mixed_coeffs v g1 g2,
              for_each (seq 0 (length (wavedec (column signal1 T F col) wv level)))
                (mix_step rates (wavedec (column signal1 T F col) wv level)
                   (wavedec (column signal2 T F col) wv level)) [] g1 = Ok (mixed_coeffs, g2)
              /\ broadcast_to T (take T (waverec mixed_coeffs wv)) = Ok v
              /\ c = F64.to_f32 <$> v)
           _ F (zeros T F) g buf g2 Hloop (length_zeros T F)) as [Hlen Hcols].
  - intros col b g3 b' g4 Hcol Hb Hstep.
    apply augment_multi_column_inv in Hstep as (mixed & v & Hmix & Hv & ->).
    eexists. split; [reflexivity|]. exists mixed, v, g3, g4.
    split; [|auto]. unfold column in *. rewrite Hdata1, Hdata2 in Hmix. exact Hmix.
  - split; [exact Hlen|]. intros col Hcol.
    destruct (Hcols col Hcol) as (c & Hc & mixed & v & g3 & g4 & Hm & Hv & ->).
    exists mixed, v, g3, g4. auto.
Qed.

Context {WL : PyWaveletsLaws W}.

(** With a non-empty list of rates, [WaveAug.augment] returns on every signal of
    T time steps and F features. *)
Lemma augment_returns signal T F rates wv level g :
  dims signal T F -> rates <> [] ->
  exists out g', WaveAug.augment signal rates wv level g = Ok (out, g').
Proof.
  intros Hd Hne. unfold WaveAug.augment.
  destruct (dims_unpack signal T F Hd) as (Hu & Hdata & _).
  run_lift Hu.
  destruct (fill_columns_total (fun _ _ => True)
              (augment_column (if ndim signal =? 1 then reshape_column signal else signal)
                 T F rates wv level) F (zeros T F) g) as (buf & g' & Hrun & _).
  - apply length_zeros.
  - intros col b g1 Hcol Hb. unfold augment_column.
    destruct (mask_coeffs_spec rates
                (wavedec (column (if ndim signal =? 1 then reshape_column signal else signal)
                            T F col) wv level) g1 Hne)
      as (coeffs' & g2 & Hmask & Hlens & _).
    run Hmask.
    pose proof (waverec_length _ _ _ _ Hlens) as Hrec. rewrite length_column in Hrec.
    destruct (store_reconstruction T b col (waverec coeffs' wv)) as [Hstore _]; [lia|].
    destruct (Hstore Hrec) as [Hset _].
    eexists _, g2. split; [|exact I]. apply lift_ok. exact Hset.
  - run Hrun. eexists _, _. reflexivity.
Qed.

(** With a non-empty list of rates, [WaveAug.augment_multi] returns on every pair
    of signals of one shape, of T time steps and F features. *)
Lemma augment_multi_returns signal1 signal2 T F rates wv level g :
  dims signal1 T F -> shape signal1 = shape signal2 -> rates <> [] ->
  exists out g', WaveAug.augment_multi signal1 signal2 rates wv level g = Ok (out, g').
Proof.
  intros Hd Hs Hne. unfold WaveAug.augment_multi, shape_eqb.
  rewrite bool_decide_eq_true_2 by assumption. simpl.
  destruct (dims_unpack signal1 T F Hd) as (Hu & _ & _).
  run_lift Hu.
  set (s1 := if ndim signal1 =? 1 then reshape_column signal1 else signal1).
  set (s2 := if ndim signal1 =? 1 then reshape_column signal2 else signal2).
  destruct (fill_columns_total (fun _ _ => True)
              (augment_multi_column s1 s2 T F rates wv level) F (zeros T F) g)
    as (buf & g' & Hrun & _).
  - apply length_zeros.
  - intros col b g1 Hcol Hb. unfold augment_multi_column.
    destruct (mix_coeffs_spec rates (wavedec (column s1 T F col) wv level)
                (wavedec (column s2 T F col) wv level) g1 Hne)
      as (mixed & g2 & Hmix & Hlens).
    { apply wavedec_lengths. rewrite !length_column. reflexivity. }
    run Hmix.
    pose proof (waverec_length _ _ _ _ Hlens) as Hrec. rewrite length_column in Hrec.
    destruct (store_reconstruction T b col (waverec mixed wv)) as [Hstore _]; [lia|].
    destruct (Hstore Hrec) as [Hset _].
    eexists _, g2. split; [|exact I]. apply lift_ok. exact Hset.
  - run Hrun. eexists _, _. reflexivity.
Qed.
End WaveAugOperators.

Lemma stub_pywt_laws : PyWaveletsLaws stub_pywt.
Proof.
  split; simpl.
  - intros x y _ _ Hlen. rewrite !length_take, !length_drop, Hlen. reflexivity.
  - intros x _ _ cs Hlens.
    destruct cs as [|a [|b [|c cs]]]; try discriminate.
    injection Hlens as Ha Hb. simpl.
    rewrite !length_app, Ha, Hb, length_take, length_drop. simpl. lia.
Qed.

(** ** Shape preservation *)

Lemma dims_shape0 a T F : dims a T F -> shape0 a = Ok T.
Proof. unfold dims, shape0. intros [->|[-> _]]; reflexivity. Qed.

(** A loop keeps what each of its iterations keeps. *)
Lemma for_each_preserves {A S} (P : S -> Prop) (body : A -> S -> M S) xs :
  (forall x s g s' g', body x s g = Ok (s', g') -> P s -> P s') ->
  forall s g s' g', for_each xs body s g = Ok (s', g') -> P s -> P s'.
Proof.
  intros Hbody. induction xs as [|x xs IH]; intros s g s' g' Hrun HP; simpl in Hrun.
  - apply ret_inv in Hrun as [-> _]. assumption.
  - apply bind_inv in Hrun as (s1 & g1 & Hb & Hrun).
    eapply IH; [eassumption|]. eapply Hbody; eassumption.
Qed.

Lemma set_column_length dt T (buf buf' : matrix float64) i v :
  set_column dt T buf i v = Ok buf' -> length buf' = length buf.
Proof.
  unfold set_column. case_bool_decide; [discriminate|].
  destruct (broadcast_to T v); [|discriminate].
  intros [= <-]. apply length_insert.
Qed.

(** Whenever [dominant_shuffle] returns, the result has the shape of the
    input and its elements fill it. *)
Lemma dominant_shuffle_returned_shape {N : Numpy} signal rate lo hi offset g out g' :
  dominant_shuffle signal rate lo hi offset g = Ok (out, g') ->
  shape out = shape signal /\ well_formed out.
Proof.
  unfold dominant_shuffle. intros H.
  apply bind_inv in H as ([T F] & g1 & Hu & H). apply lift_inv in Hu as [Hu ->].
  apply bind_inv in H as (sf & g2 & Hsf & H). apply lift_inv in Hsf as [Hsf ->].
  apply bind_inv in H as (nf & g3 & Hrun & H). apply ret_inv in H as [-> _].
  pose proof (unpack_dims _ _ _ Hu) as Hd.
  assert (Hlen : length sf = F).
  { unfold rfft_columns in Hsf. destruct (T =? 0); [discriminate|].
    injection Hsf as <-. rewrite length_fmap. apply length_columns. }
  assert (Hnf : length nf = F).
  { unfold shuffle in Hrun.
    apply (for_each_preserves (fun m : matrix complex => length m = F)) in Hrun;
      [assumption| |assumption].
    intros i m ga m' gb Hinner Hm.
    apply (for_each_preserves (fun m : matrix complex => length m = F)) in Hinner;
      [assumption| |assumption].
    clear. intros j m ga m' gb Hstep Hm. unfold shuffle_step in Hstep.
    apply bind_inv in Hstep as (idx & g1 & _ & Hstep).
    apply bind_inv in Hstep as (r & g2 & _ & Hstep).
    apply bind_inv in Hstep as (v & g3 & _ & Hstep).
    apply lift_inv in Hstep as [Hset _]. unfold matrix_set in Hset.
    case_bool_decide; [|discriminate]. injection Hset as <-.
    rewrite length_insert. assumption. }
  split.
  - apply (restore_shape _ _ T F Hd). rewrite shape_offset_then_clip. simpl.
    rewrite length_fmap, Hnf. reflexivity.
  - apply restore_well_formed, well_formed_offset_then_clip, well_formed_of_columns.
Qed.

(** Whenever [emd_augmentation] returns, the result has the shape of the
    input and its elements fill it. *)
Lemma emd_augmentation_returned_shape {E : PyEMD}
    signal n_imf p imf_rate lo hi offset g out g' :
  emd_augmentation signal n_imf p imf_rate lo hi offset g = Ok (out, g') ->
  shape out = shape signal /\ well_formed out.
Proof.
  unfold emd_augmentation. intros H.
  apply bind_inv in H as ([T F] & g1 & Hu & H). apply lift_inv in Hu as [Hu ->].
  apply bind_inv in H as (buf & g2 & Hrun & H).
  apply bind_inv in H as (a & g3 & Hp & H). apply lift_inv in Hp as [Hp ->].
  apply post_process_inv in Hp as [_ ->]. apply ret_inv in H as [-> _].
  pose proof (unpack_dims _ _ _ Hu) as Hd.
  assert (Hbuf : length buf = F).
  { apply (for_each_preserves (fun m : matrix float64 => length m = F)) in Hrun;
      [assumption| |apply length_zeros].
    clear. intros i m ga m' gb Hstep Hm. unfold emd_column in Hstep.
    destruct (_ =? 0).
    - apply lift_inv in Hstep as [Hset _].
      rewrite (set_column_length _ _ _ _ _ _ Hset). assumption.
    - apply bind_inv in Hstep as (n & g1 & _ & Hstep).
      apply bind_inv in Hstep as (ws & g2 & _ & Hstep).
      apply lift_inv in Hstep as [Hset _].
      rewrite (set_column_length _ _ _ _ _ _ Hset). assumption. }
  split.
  - apply (restore_shape _ _ T F Hd). rewrite shape_offset_then_clip. simpl.
    rewrite Hbuf. reflexivity.
  - apply restore_well_formed, well_formed_offset_then_clip, well_formed_of_columns.
Qed.

Section WaveAugShape.
Context {W : PyWavelets}.

Lemma augment_returned_shape signal rates wv level g out g' :
  WaveAug.augment signal rates wv level g = Ok (out, g') ->
  shape out = shape signal /\ well_formed out.
Proof.
  intros H. apply augment_inv in H as (T & F & buf & Hd & -> & Hlen & _). split.
  - apply (restore_shape _ _ T F Hd). simpl. rewrite Hlen. reflexivity.
  - apply restore_well_formed, well_formed_of_columns.
Qed.

Lemma augment_multi_returned_shape signal1 signal2 rates wv level g out g' :
  WaveAug.augment_multi signal1 signal2 rates wv level g = Ok (out, g') ->
  shape out = shape signal1 /\ well_formed out.
Proof.
  intros H. apply augment_multi_inv in H as (T & F & buf & _ & Hd & -> & Hlen & _). split.
  - apply (restore_shape _ _ T F Hd). simpl. rewrite Hlen. reflexivity.
  - apply restore_well_formed, well_formed_of_columns.
Qed.
End WaveAugShape.


(** * Further properties of the operators *)

(** ** The order of binary64 values *)

Lemma ltb_compare (x y : float64) : F64.ltb x y = true <-> SFcompare x y = Some Lt.
Proof.
  unfold F64.ltb, SFltb. destruct (SFcompare x y) as [[]|]; split; congruence.
Qed.

Lemma ltb_irrefl (x : float64) : F64.ltb x x = false.
Proof.
  destruct (F64.is_nan x) eqn:Hx.
  - destruct x; try discriminate. reflexivity.
  - unfold F64.ltb, SFltb. rewrite (compare_refl x Hx). reflexivity.
Qed.

Lemma ltb_trans (x y z : float64) :
  F64.ltb x y = true -> F64.ltb y z = true -> F64.ltb x z = true.
Proof.
  rewrite !ltb_compare.
  destruct x as [sx|sx| |sx mx ex], y as [sy|sy| |sy my ey], z as [sz|sz| |sz mz ez];
    simpl; try discriminate;
    try (destruct sx; try discriminate; destruct sy; try discriminate;
         destruct sz; discriminate || reflexivity || congruence);
    try (destruct sx; try discriminate; destruct sy; discriminate || reflexivity || congruence);
    try (destruct sy; try discriminate; destruct sz; discriminate || reflexivity || congruence);
    try (destruct sx; try discriminate; destruct sz; discriminate || reflexivity || congruence).
  change (PosDef.Pos.compare_cont Eq mx my) with (Pos.compare mx my).
  change (PosDef.Pos.compare_cont Eq my mz) with (Pos.compare my mz).
  change (PosDef.Pos.compare_cont Eq mx mz) with (Pos.compare mx mz).
  destruct sx, sy, sz; try discriminate; try reflexivity;
    destruct (Z.compare_spec ex ey), (Z.compare_spec ey ez); try discriminate;
    destruct (Z.compare_spec ex ez); try lia; try reflexivity;
    destruct (Pos.compare_spec mx my), (Pos.compare_spec my mz); try discriminate;
    destruct (Pos.compare_spec mx mz); simpl; try lia; try reflexivity.
Qed.

Lemma ltb_asym (x y : float64) : F64.ltb x y = true -> F64.ltb y x = false.
Proof.
  intros H. destruct (F64.ltb y x) eqn:E; [|reflexivity].
  pose proof (ltb_trans _ _ _ H E) as Hxx. rewrite ltb_irrefl in Hxx. discriminate.
Qed.

(** ** The insertion argsort is in ascending order *)

Lemma StronglySorted_lookup {A} (R : A -> A -> Prop) (l : list A) :
  StronglySorted R l ->
  forall i j a b, i < j -> l !! i = Some a -> l !! j = Some b -> R a b.
Proof.
  induction 1 as [|x l Hl IH Hx]; intros i j a b Hij Ha Hb.
  - rewrite lookup_nil in Ha. discriminate.
  - destruct j as [|j]; [lia|]. destruct i as [|i]; simpl in *.
    + injection Ha as <-. rewrite Forall_forall in Hx. apply Hx.
      eapply list_elem_of_lookup_2. eassumption.
    + apply (IH i j); [lia|assumption|assumption].
Qed.

Lemma insert_sorted_sorted (key : nat -> float64) i l :
  StronglySorted (fun a b => F64.ltb (key b) (key a) = false) l ->
  StronglySorted (fun a b => F64.ltb (key b) (key a) = false) (insert_sorted key i l).
Proof.
  induction 1 as [|j l Hl IH Hj]; simpl.
  - constructor; constructor.
  - destruct (F64.ltb (key i) (key j)) eqn:Hij.
    + constructor; [constructor; assumption|].
      constructor; [apply ltb_asym; assumption|].
      rewrite Forall_forall in *. intros e He.
      destruct (F64.ltb (key e) (key i)) eqn:Hei; [|reflexivity].
      rewrite <- (Hj e He). symmetry. eapply ltb_trans; eassumption.
    + constructor; [assumption|].
      rewrite Forall_forall in *. intros e He.
      rewrite insert_sorted_perm in He.
      apply elem_of_cons in He as [->|He]; [assumption|].
      apply Hj. assumption.
Qed.

Lemma fold_insert_sorted_sorted (key : nat -> float64) xs :
  forall acc,
    StronglySorted (fun a b => F64.ltb (key b) (key a) = false) acc ->
    StronglySorted (fun a b => F64.ltb (key b) (key a) = false)
      (fold_left (fun acc i => insert_sorted key i acc) xs acc).
Proof.
  induction xs as [|x xs IH]; intros acc Hacc; simpl; [assumption|].
  apply IH, insert_sorted_sorted. assumption.
Qed.

Lemma stub_numpy_argsort_laws : ArgsortLaws stub_numpy.
Proof.
  split. simpl. intros m i j a b ka kb Hij Ha Hb Hka Hkb.
  unfold insertion_argsort in *.
  pose proof (fold_insert_sorted_sorted (fun k => nth k m F64.nan)
                (seq 0 (length m)) [] (SSorted_nil _)) as Hs.
  pose proof (StronglySorted_lookup _ _ Hs i j a b Hij Ha Hb) as H.
  simpl in H. rewrite !nth_lookup, Hka, Hkb in H. exact H.
Qed.

(** ** [dominant_shuffle]: which bins are shuffled *)

Section Bins.
Context {N : Numpy} {NL : NumpyLaws N}.

(** The bins selected in a column [o] of the spectrum. *)
Lemma top_k_lookup (signal_f : matrix complex) (rate : Z) i o :
  signal_f !! i = Some o ->
  top_k (magnitudes signal_f) rate !! i
  = Some (S <$> drop (slice_bound (length o - 1) (- rate))
                  (np_argsort (np_abs <$> drop 1 o))).
Proof.
  intros Ho. unfold top_k, magnitudes. rewrite !list_lookup_fmap, Ho. simpl.
  unfold slice_from. rewrite argsort_length, length_fmap, length_drop. reflexivity.
Qed.

Lemma spectrum_lookup signal T F i :
  i < F ->
  (np_fft_rfft <$> columns signal T F) !! i = Some (np_fft_rfft (column signal T F i)).
Proof. intros Hi. rewrite list_lookup_fmap, lookup_columns by assumption. reflexivity. Qed.

Lemma spectrum_length signal T F i :
  0 < T -> length (np_fft_rfft (column signal T F i)) = T / 2 + 1.
Proof.
  intros HT. rewrite rfft_length, length_column; [reflexivity|].
  intros Hnil. apply (f_equal length) in Hnil. rewrite length_column in Hnil.
  simpl in Hnil. lia.
Qed.

(** X1. With [1 <= rate <= T // 2], [dominant_shuffle] shuffles exactly
    [rate] distinct bins in every column of the spectrum, all of them among
    the bins 1 .. T // 2; the DC bin and every bin that is not selected
    keep their values, and one random number is drawn per selected bin,
    [F * rate] in all. *)
Theorem rate_in_range_shuffles_exactly_rate_bins
    (signal : ndarray) (T F : nat) (rate : Z) (g : rng) :
  dims signal T F -> 0 < T -> (1 <= rate <= Z.of_nat (T / 2))%Z ->
  let signal_f := np_fft_rfft <$> columns signal T F in
  let topk_indices := top_k (magnitudes signal_f) rate in
  exists new_signal_f,
    shuffle signal_f topk_indices F g = Ok (new_signal_f, skip (F * Z.to_nat rate) g)
    /\ forall i, i < F ->
         exists o t col,
           signal_f !! i = Some o /\ topk_indices !! i = Some t
           /\ new_signal_f !! i = Some col
           /\ length t = Z.to_nat rate /\ NoDup t
           /\ (forall x, x ∈ t -> 1 <= x <= T / 2)
           /\ length col = length o
           /\ col !! 0 = o !! 0
           /\ forall idx, idx ∉ t -> col !! idx = o !! idx.
Proof.
  intros Hd HT Hrate signal_f topk.
  destruct (dominant_shuffle_spec signal T F rate None None F64.zero g Hd HT)
    as (new_f & Hrun & Hlen & Hcols & _).
  rewrite (n_selected_rate T rate Hrate) in Hrun.
  exists new_f. split; [exact Hrun|]. intros i Hi.
  pose proof (spectrum_lookup signal T F i Hi) as Ho.
  pose proof (spectrum_length signal T F i HT) as Hlo.
  set (o := np_fft_rfft (column signal T F i)) in *.
  pose proof (top_k_lookup _ rate i o Ho) as Ht.
  destruct (Hcols i _ o Ht Ho) as (col & Hcol & Hlc & _ & Hrest).
  destruct (top_k_column _ _ T _ _ _ Ht Ho Hlo) as (HK & Hnd & Hin).
  eexists o, _, col. split; [exact Ho|]. split; [exact Ht|]. split; [exact Hcol|].
  split; [rewrite HK; apply n_selected_rate; assumption|].
  split; [assumption|].
  split; [intros x Hx; apply Hin in Hx; lia|].
  split; [assumption|].
  split; [apply Hrest; intros H0; apply Hin in H0; lia|exact Hrest].
Qed.

(** X2. A rate of at least [T // 2], the default [rate = 4] on a signal of
    fewer than ten time steps for one, selects every bin after the DC bin:
    the slice [[-rate:]] of a shorter array is the whole array. *)
Theorem rate_beyond_half_selects_every_bin
    (signal : ndarray) (T F : nat) (rate : Z) :
  dims signal T F -> 0 < T -> (Z.of_nat (T / 2) <= rate)%Z ->
  let signal_f := np_fft_rfft <$> columns signal T F in
  let topk_indices := top_k (magnitudes signal_f) rate in
  forall i, i < F ->
    exists t, topk_indices !! i = Some t /\ Permutation t (seq 1 (T / 2)).
Proof.
  intros Hd HT Hrate signal_f topk i Hi.
  pose proof (spectrum_lookup signal T F i Hi) as Ho.
  pose proof (spectrum_length signal T F i HT) as Hlo.
  set (o := np_fft_rfft (column signal T F i)) in *.
  eexists. split; [apply (top_k_lookup _ rate i o Ho)|].
  assert (Hb : slice_bound (length o - 1) (- rate) = 0).
  { unfold slice_bound. destruct (Z.ltb_spec (- rate) 0); lia. }
  rewrite Hb, drop_0.
  assert (Hm : length (np_abs <$> drop 1 o) = T / 2)
    by (rewrite length_fmap, length_drop; lia).
  rewrite (argsort_perm _), Hm, fmap_S_seq. reflexivity.
Qed.

(** X3. A negative rate raises nothing: with [rate = -k] the slice is
    [argsort(...)[k:]], so the [k] bins at the head of the ascending order
    are left out and the other [T // 2 - min(k, T // 2)] bins of every column are
    selected. *)
Theorem negative_rate_leaves_out_the_first_bins
    (signal : ndarray) (T F : nat) (rate : Z) :
  dims signal T F -> 0 < T -> (rate < 0)%Z ->
  let signal_f := np_fft_rfft <$> columns signal T F in
  let topk_indices := top_k (magnitudes signal_f) rate in
  let k := Nat.min (Z.to_nat (- rate)) (T / 2) in
  forall i, i < F ->
    exists o t,
      signal_f !! i = Some o /\ topk_indices !! i = Some t
      /\ t = S <$> drop k (np_argsort (np_abs <$> drop 1 o))
      /\ length t = T / 2 - k /\ NoDup t.
Proof.
  intros Hd HT Hrate signal_f topk k i Hi.
  pose proof (spectrum_lookup signal T F i Hi) as Ho.
  pose proof (spectrum_length signal T F i HT) as Hlo.
  set (o := np_fft_rfft (column signal T F i)) in *.
  pose proof (top_k_lookup _ rate i o Ho) as Ht.
  destruct (top_k_column _ _ T _ _ _ Ht Ho Hlo) as (HK & Hnd & _).
  assert (Hb : slice_bound (length o - 1) (- rate) = k).
  { unfold slice_bound, k. destruct (Z.ltb_spec (- rate) 0); [lia|].
    rewrite Hlo. f_equal. lia. }
  rewrite Hb in *.
  eexists o, _. split; [exact Ho|]. split; [exact Ht|]. split; [reflexivity|].
  split; [|assumption].
  rewrite length_fmap, length_drop, argsort_length, length_fmap, length_drop. lia.
Qed.

(** A column in which at most one bin is selected comes out of the shuffle
    as it went in: the only bin there is to draw is the bin itself. *)
Lemma shuffled_column_fixed {A} (o : list A) (t : list nat) draw (col : list A) :
  shuffled_column o t draw col -> length t <= 1 -> col = o.
Proof.
  intros (Hlen & Hsel & Hrest) Ht. apply list_eq. intros idx.
  destruct (decide (idx ∈ t)) as [Hin|Hnot]; [|apply Hrest; assumption].
  destruct t as [|x [|y t]]; simpl in Ht; [|clear Ht|lia].
  - apply elem_of_nil in Hin. contradiction.
  - apply list_elem_of_singleton in Hin. subst idx.
    specialize (Hsel 0 ltac:(simpl; lia)). cbn [length nth] in Hsel.
    rewrite Nat.mod_1_r in Hsel. exact Hsel.
Qed.

(** When every column has at most one selected bin, the shuffle returns
    the spectrum it was given and the result is the inverse transform of the
    transform of the signal, post-processed. *)
Lemma dominant_shuffle_fixed signal T F rate lo hi offset g :
  dims signal T F -> 0 < T -> n_selected T rate <= 1 ->
  let signal_f := np_fft_rfft <$> columns signal T F in
  shuffle signal_f (top_k (magnitudes signal_f) rate) F g
  = Ok (signal_f, skip (F * n_selected T rate) g)
  /\ exists out,
       dominant_shuffle signal rate lo hi offset g
       = Ok (out, skip (F * n_selected T rate) g)
       /\ forall i, i < F ->
            column out T F i
            = (fun x => clip1 lo hi (F64.add x offset))
                <$> np_fft_irfft (np_fft_rfft (column signal T F i)) T.
Proof.
  intros Hd HT HK signal_f.
  destruct (dominant_shuffle_spec signal T F rate lo hi offset g Hd HT)
    as (new_f & Hrun & Hlen & Hcols & Hop).
  assert (Hsame : new_f = signal_f).
  { apply list_eq. intros i. destruct (decide (i < F)) as [Hi|Hi].
    - pose proof (spectrum_lookup signal T F i Hi) as Ho.
      pose proof (spectrum_length signal T F i HT) as Hlo.
      pose proof (top_k_lookup _ rate i _ Ho) as Ht.
      destruct (Hcols i _ _ Ht Ho) as (col & Hcol & Hsh).
      destruct (top_k_column _ _ T _ _ _ Ht Ho Hlo) as (HKt & _ & _).
      rewrite (shuffled_column_fixed _ _ _ _ Hsh) in Hcol by (rewrite HKt; assumption).
      fold signal_f in Ho. congruence.
    - rewrite !lookup_ge_None_2; [reflexivity| |lia].
      unfold signal_f. rewrite length_fmap, length_columns. lia. }
  rewrite Hsame in Hrun. split; [exact Hrun|].
  destruct (dominant_shuffle_columns signal T F rate lo hi offset g Hd HT)
    as (nf & out & g' & Hrun' & Hop' & Hcol).
  pose proof (eq_trans (eq_sym Hrun) Hrun') as Heq. injection Heq as <- <-.
  exists out. split; [exact Hop'|]. intros i Hi.
  apply Hcol. apply spectrum_lookup. assumption.
Qed.

(** X4. When no bin is selected, which is so for a signal of one time step
    and for every [rate <= -(T // 2)], [dominant_shuffle] draws no random
    number and changes nothing in the spectrum: every column of the result
    (of a float64 signal) is the inverse transform of the transform of the
    input column, with the offset added and the sum clipped. *)
Theorem no_selected_bin_no_shuffle
    (signal : ndarray) (T F : nat) (rate : Z)
    (clip_min clip_max : option float64) (offset : float64) (g : rng) :
  dims signal T F -> nd_dtype signal = Float64 -> 0 < T ->
  T = 1 \/ (rate <= - Z.of_nat (T / 2))%Z ->
  exists out,
    dominant_shuffle signal rate clip_min clip_max offset g = Ok (out, g)
    /\ forall i, i < F ->
         column out T F i
         = (fun x => clip1 clip_min clip_max (F64.add x offset))
             <$> np_fft_irfft (np_fft_rfft (column signal T F i)) T.
Proof.
  intros Hd _ HT Hnone.
  assert (HK : n_selected T rate = 0).
  { unfold n_selected, slice_bound. destruct Hnone as [->|Hr]; [reflexivity|].
    destruct (Z.ltb_spec (- rate) 0); lia. }
  destruct (dominant_shuffle_fixed signal T F rate clip_min clip_max offset g Hd HT)
    as (_ & out & Hop & Hcols); [lia|].
  rewrite HK, Nat.mul_0_r, skip_0 in Hop.
  exists out. split; assumption.
Qed.

(** X5. With [rate = 1] on a signal of at least two time steps the one
    selected bin of a column can only be replaced by itself: the spectrum is
    not changed, although one random number per column is drawn, and every
    column of the result (of a float64 signal) is the inverse transform of
    the transform of the input column, post-processed. *)
Theorem rate_one_keeps_the_spectrum
    (signal : ndarray) (T F : nat)
    (clip_min clip_max : option float64) (offset : float64) (g : rng) :
  dims signal T F -> nd_dtype signal = Float64 -> 2 <= T ->
  let signal_f := np_fft_rfft <$> columns signal T F in
  shuffle signal_f (top_k (magnitudes signal_f) 1) F g = Ok (signal_f, skip F g)
  /\ exists out,
       dominant_shuffle signal 1 clip_min clip_max offset g = Ok (out, skip F g)
       /\ forall i, i < F ->
            column out T F i
            = (fun x => clip1 clip_min clip_max (F64.add x offset))
                <$> np_fft_irfft (np_fft_rfft (column signal T F i)) T.
Proof.
  intros Hd _ HT signal_f.
  assert (Hhalf : 1 <= T / 2) by (apply Nat.div_le_lower_bound; lia).
  assert (HK : n_selected T 1 = 1) by (rewrite n_selected_rate; lia).
  destruct (dominant_shuffle_fixed signal T F 1 clip_min clip_max offset g Hd)
    as (Hrun & out & Hop & Hcols); [lia|lia|].
  rewrite HK, Nat.mul_1_r in Hrun, Hop.
  split; [exact Hrun|]. exists out. split; assumption.
Qed.

(** X6. On a signal of rank 1 or 2 [dominant_shuffle] raises a
    [ValueError] exactly when the signal has no time step: [np.fft.rfft]
    refuses an empty axis, and on every other such signal the operator
    returns. *)
Theorem empty_time_axis_is_rejected
    (signal : ndarray) (T F : nat) (rate : Z)
    (clip_min clip_max : option float64) (offset : float64) (g : rng) :
  dims signal T F ->
  (dominant_shuffle signal rate clip_min clip_max offset g = Raise ValueError <-> T = 0)
  /\ (0 < T ->
      exists out g', dominant_shuffle signal rate clip_min clip_max offset g = Ok (out, g')).
Proof.
  intros Hd.
  assert (Hret : 0 < T ->
            exists out g',
              dominant_shuffle signal rate clip_min clip_max offset g = Ok (out, g')).
  { intros HT.
    destruct (dominant_shuffle_shape signal T F rate clip_min clip_max offset g Hd HT)
      as (out & g' & Hrun & _).
    exists out, g'. exact Hrun. }
  split; [|exact Hret]. split.
  - intros Hraise. destruct T as [|T]; [reflexivity|].
    destruct Hret as (out & g' & Hrun); [lia|]. congruence.
  - intros ->. unfold dominant_shuffle.
    destruct (dims_unpack signal 0 F Hd) as (Hu & _ & _).
    run_lift Hu. reflexivity.
Qed.
End Bins.

Section Dominance.
Context {N : Numpy} {NL : NumpyLaws N} {AL : ArgsortLaws N}.

(** X7. The bins that [dominant_shuffle] selects are the dominant ones:
    in every column, no bin after the DC bin that is left out has a larger
    magnitude than a selected bin. *)
Theorem selected_bins_have_the_largest_magnitudes
    (signal : ndarray) (T F : nat) (rate : Z) :
  dims signal T F -> 0 < T ->
  let signal_f := np_fft_rfft <$> columns signal T F in
  let topk_indices := top_k (magnitudes signal_f) rate in
  forall i, i < F ->
    exists o t,
      signal_f !! i = Some o /\ topk_indices !! i = Some t
      /\ forall x y vx vy,
           x ∈ t -> y ∉ t -> 1 <= y ->
           o !! x = Some vx -> o !! y = Some vy ->
           F64.ltb (np_abs vx) (np_abs vy) = false.
Proof.
  intros Hd HT signal_f topk i Hi.
  pose proof (spectrum_lookup signal T F i Hi) as Ho.
  set (o := np_fft_rfft (column signal T F i)) in *.
  pose proof (top_k_lookup _ rate i o Ho) as Ht.
  eexists o, _. split; [exact Ho|]. split; [exact Ht|].
  set (m := np_abs <$> drop 1 o) in *.
  set (b := slice_bound (length o - 1) (- rate)) in *.
  intros x y vx vy Hx Hy Hy1 Hvx Hvy.
  apply list_elem_of_fmap in Hx as (a & -> & Ha).
  apply list_elem_of_lookup_1 in Ha as [j Hj]. rewrite lookup_drop in Hj.
  destruct y as [|a']; [lia|].
  assert (Hma : m !! a = Some (np_abs vx)).
  { unfold m. rewrite list_lookup_fmap, lookup_drop. simpl. rewrite Hvx. reflexivity. }
  assert (Hma' : m !! a' = Some (np_abs vy)).
  { unfold m. rewrite list_lookup_fmap, lookup_drop. simpl. rewrite Hvy. reflexivity. }
  assert (Hin : a' ∈ np_argsort m).
  { rewrite (argsort_perm m), elem_of_seq. apply lookup_lt_Some in Hma'. lia. }
  apply list_elem_of_lookup_1 in Hin as [p Hp].
  assert (Hpb : p < b).
  { destruct (decide (p < b)) as [|Hge]; [assumption|]. exfalso. apply Hy.
    apply list_elem_of_fmap. exists a'. split; [reflexivity|].
    apply (list_elem_of_lookup_2 _ (p - b)). rewrite lookup_drop.
    replace (b + (p - b)) with p by lia. assumption. }
  apply (argsort_sorted m p (b + j) a' a); try assumption. lia.
Qed.
End Dominance.

Lemma rate_in_range_shuffles_exactly_rate_bins_witness :
  dims grid32 3 2 /\ 0 < 3 /\ (1 <= 1 <= Z.of_nat (3 / 2))%Z
  /\ exists new_signal_f,
       let signal_f := @np_fft_rfft stub_numpy <$> columns grid32 3 2 in
       shuffle (N := stub_numpy) signal_f
         (top_k (N := stub_numpy) (magnitudes (N := stub_numpy) signal_f) 1) 2 g0
       = Ok (new_signal_f, skip (2 * Z.to_nat 1) g0).
Proof.
  assert (Hd : dims grid32 3 2) by (left; reflexivity).
  assert (HT : 0 < 3) by lia.
  assert (Hr : (1 <= 1 <= Z.of_nat (3 / 2))%Z) by (simpl; lia).
  split; [exact Hd|]. split; [exact HT|]. split; [exact Hr|].
  destruct (@rate_in_range_shuffles_exactly_rate_bins stub_numpy stub_numpy_laws
              grid32 3 2 1 g0 Hd HT Hr) as (new_f & Hrun & _).
  exists new_f. exact Hrun.
Defined.

Lemma selected_bins_have_the_largest_magnitudes_witness :
  dims ramp6 6 1 /\ 0 < 6
  /\ exists o t,
       (@np_fft_rfft stub_numpy <$> columns ramp6 6 1) !! 0 = Some o
       /\ top_k (N := stub_numpy)
            (magnitudes (N := stub_numpy) (@np_fft_rfft stub_numpy <$> columns ramp6 6 1)) 2
          !! 0 = Some t
       /\ forall x y vx vy,
            x ∈ t -> y ∉ t -> 1 <= y -> o !! x = Some vx -> o !! y = Some vy ->
            F64.ltb (@np_abs stub_numpy vx) (@np_abs stub_numpy vy) = false.
Proof.
  assert (Hd : dims ramp6 6 1) by (right; split; reflexivity).
  assert (HT : 0 < 6) by lia.
  split; [exact Hd|]. split; [exact HT|].
  apply (@selected_bins_have_the_largest_magnitudes stub_numpy stub_numpy_laws
           stub_numpy_argsort_laws ramp6 6 1 2 Hd HT 0).
  lia.
Defined.

Lemma rate_beyond_half_selects_every_bin_witness :
  dims ramp6 6 1 /\ 0 < 6 /\ (Z.of_nat (6 / 2) <= 4)%Z
  /\ exists t,
       top_k (N := stub_numpy)
         (magnitudes (N := stub_numpy) (@np_fft_rfft stub_numpy <$> columns ramp6 6 1)) 4
       !! 0 = Some t
       /\ Permutation t [1; 2; 3].
Proof.
  assert (Hd : dims ramp6 6 1) by (right; split; reflexivity).
  assert (HT : 0 < 6) by lia.
  assert (Hr : (Z.of_nat (6 / 2) <= 4)%Z) by (simpl; lia).
  split; [exact Hd|]. split; [exact HT|]. split; [exact Hr|].
  apply (@rate_beyond_half_selects_every_bin stub_numpy stub_numpy_laws
           ramp6 6 1 4 Hd HT Hr 0).
  lia.
Defined.

Lemma negative_rate_leaves_out_the_first_bins_witness :
  dims ramp6 6 1 /\ 0 < 6 /\ (-1 < 0)%Z
  /\ exists o t,
       (@np_fft_rfft stub_numpy <$> columns ramp6 6 1) !! 0 = Some o
       /\ top_k (N := stub_numpy)
            (magnitudes (N := stub_numpy) (@np_fft_rfft stub_numpy <$> columns ramp6 6 1)) (-1)
          !! 0 = Some t
       /\ length t = 2.
Proof.
  assert (Hd : dims ramp6 6 1) by (right; split; reflexivity).
  assert (HT : 0 < 6) by lia.
  assert (Hr : (-1 < 0)%Z) by lia.
  split; [exact Hd|]. split; [exact HT|]. split; [exact Hr|].
  destruct (@negative_rate_leaves_out_the_first_bins stub_numpy stub_numpy_laws
              ramp6 6 1 (-1) Hd HT Hr 0) as (o & t & Ho & Ht & _ & Hlen & _); [lia|].
  exists o, t. split; [exact Ho|]. split; [exact Ht|exact Hlen].
Defined.

Lemma no_selected_bin_no_shuffle_witness :
  dims ramp6 6 1 /\ nd_dtype ramp6 = Float64 /\ 0 < 6
  /\ (6 = 1 \/ (-3 <= - Z.of_nat (6 / 2))%Z)
  /\ exists out,
       dominant_shuffle (N := stub_numpy) ramp6 (-3) None None F64.zero g0 = Ok (out, g0).
Proof.
  assert (Hd : dims ramp6 6 1) by (right; split; reflexivity).
  assert (HT : 0 < 6) by lia.
  assert (Hr : 6 = 1 \/ (-3 <= - Z.of_nat (6 / 2))%Z) by (right; simpl; lia).
  split; [exact Hd|]. split; [reflexivity|]. split; [exact HT|]. split; [exact Hr|].
  destruct (@no_selected_bin_no_shuffle stub_numpy stub_numpy_laws
              ramp6 6 1 (-3) None None F64.zero g0 Hd eq_refl HT Hr) as (out & Hrun & _).
  exists out. exact Hrun.
Defined.

Lemma rate_one_keeps_the_spectrum_witness :
  dims grid32 3 2 /\ nd_dtype grid32 = Float64 /\ 2 <= 3
  /\ shuffle (N := stub_numpy) (@np_fft_rfft stub_numpy <$> columns grid32 3 2)
       (top_k (N := stub_numpy)
          (magnitudes (N := stub_numpy) (@np_fft_rfft stub_numpy <$> columns grid32 3 2)) 1)
       2 g0
     = Ok (@np_fft_rfft stub_numpy <$> columns grid32 3 2, skip 2 g0).
Proof.
  assert (Hd : dims grid32 3 2) by (left; reflexivity).
  assert (HT : 2 <= 3) by lia.
  split; [exact Hd|]. split; [reflexivity|]. split; [exact HT|].
  apply (@rate_one_keeps_the_spectrum stub_numpy stub_numpy_laws
           grid32 3 2 None None F64.zero g0 Hd eq_refl HT).
Defined.

Lemma empty_time_axis_is_rejected_witness :
  dims (vector []) 0 1
  /\ dominant_shuffle (N := stub_numpy) (vector []) 4 None None F64.zero g0
     = Raise ValueError.
Proof.
  assert (Hd : dims (vector []) 0 1) by (right; split; reflexivity).
  split; [exact Hd|].
  apply (@empty_time_axis_is_rejected stub_numpy stub_numpy_laws
           (vector []) 0 1 4 None None F64.zero g0 Hd).
  reflexivity.
Defined.

(** ** The rank of the input *)

Lemma unpack_bad_rank a :
  ndim a <> 1 -> ndim a <> 2 ->
  unpack_shape (shape (if ndim a =? 1 then reshape_column a else a)) = Raise ShapeError.
Proof.
  unfold ndim. intros H1 H2.
  destruct (shape a) as [|n [|f [|x sh]]] eqn:Hs; simpl in *; try lia;
    rewrite Hs; reflexivity.
Qed.

(** X8. The operators that unpack [time_steps, features = signal.shape]
    accept signals of rank 1 and rank 2 only: on a signal of any other
    rank, a scalar array or an array of three or more axes,
    [dominant_shuffle], [emd_augmentation] and [WaveAug.augment] raise the
    [ValueError] of the unpacking before they compute anything, and so does
    [WaveAug.augment_multi] when the two shapes agree. *)
Theorem rank_other_than_1_or_2_is_rejected {N : Numpy} {E : PyEMD} {W : PyWavelets}
    (signal signal2 : ndarray) (rate n_imf : Z)
    (random_weight_prob imf_rate : float64)
    (clip_min clip_max : option float64) (offset : float64)
    (rates : list float64) (wv : wavelet) (level : Z) (g : rng) :
  ndim signal <> 1 -> ndim signal <> 2 ->
  dominant_shuffle signal rate clip_min clip_max offset g = Raise ShapeError
  /\ emd_augmentation signal n_imf random_weight_prob imf_rate clip_min clip_max offset g
     = Raise ShapeError
  /\ WaveAug.augment signal rates wv level g = Raise ShapeError
  /\ (shape signal = shape signal2 ->
      WaveAug.augment_multi signal signal2 rates wv level g = Raise ShapeError).
Proof.
  intros H1 H2. pose proof (unpack_bad_rank signal H1 H2) as Hu.
  split; [|split; [|split]].
  - unfold dominant_shuffle, bind, lift. rewrite Hu. reflexivity.
  - unfold emd_augmentation, bind, lift. rewrite Hu. reflexivity.
  - unfold WaveAug.augment, bind, lift. rewrite Hu. reflexivity.
  - intros Hs. unfold WaveAug.augment_multi, shape_eqb.
    rewrite bool_decide_eq_true_2 by assumption. simpl.
    unfold bind, lift. rewrite Hu. reflexivity.
Qed.

Lemma rank_other_than_1_or_2_is_rejected_witness :
  let cube := mk_ndarray Float64 [1; 1; 2] [F64.one; F64.two] in
  ndim cube <> 1 /\ ndim cube <> 2
  /\ dominant_shuffle (N := stub_numpy) cube 4 None None F64.zero g0 = Raise ShapeError
  /\ WaveAug.augment (W := stub_pywt) cube [F64.half] tt 2 g0 = Raise ShapeError.
Proof.
  cbv zeta.
  assert (H1 : ndim (mk_ndarray Float64 [1; 1; 2] [F64.one; F64.two]) <> 1) by discriminate.
  assert (H2 : ndim (mk_ndarray Float64 [1; 1; 2] [F64.one; F64.two]) <> 2) by discriminate.
  split; [exact H1|]. split; [exact H2|].
  destruct (@rank_other_than_1_or_2_is_rejected stub_numpy stub_emd stub_pywt
              (mk_ndarray Float64 [1; 1; 2] [F64.one; F64.two])
              (mk_ndarray Float64 [1; 1; 2] [F64.one; F64.two])
              4 10 F64.half F64.one None None F64.zero [F64.half] tt 2 g0 H1 H2)
    as (Hds & _ & Haug & _).
  split; [exact Hds|exact Haug].
Defined.

Lemma flatten_result_bind {A} (m : M A) (f : A -> M ndarray) (f' : A -> M ndarray) g :
  (forall a g1, f a g1 = flatten_result (f' a g1)) ->
  bind m f g = flatten_result (bind m f' g).
Proof.
  intros Hf. unfold bind. destruct (m g) as [[a g1]|e]; [apply Hf|reflexivity].
Qed.

Lemma flatten_result_ret (a : ndarray) g : ret (flatten a) g = flatten_result (ret a g).
Proof. reflexivity. Qed.

(** X9. A signal of rank 1 is processed as the signal of one column that
    [reshape(-1, 1)] makes of it: each of the four operators that reshape
    computes, raises and draws on a signal of shape (T,) exactly what it
    does on the signal reshaped to (T, 1), and returns that result
    flattened. *)
Theorem rank1_signal_is_one_column {N : Numpy} {E : PyEMD} {W : PyWavelets}
    (signal signal2 : ndarray) (T : nat) (rate n_imf : Z)
    (random_weight_prob imf_rate : float64)
    (clip_min clip_max : option float64) (offset : float64)
    (rates : list float64) (wv : wavelet) (level : Z) (g : rng) :
  shape signal = [T] -> shape signal2 = [T] ->
  dominant_shuffle signal rate clip_min clip_max offset g
  = flatten_result (dominant_shuffle (reshape_column signal) rate clip_min clip_max offset g)
  /\ emd_augmentation signal n_imf random_weight_prob imf_rate clip_min clip_max offset g
     = flatten_result
         (emd_augmentation (reshape_column signal) n_imf random_weight_prob imf_rate
            clip_min clip_max offset g)
  /\ WaveAug.augment signal rates wv level g
     = flatten_result (WaveAug.augment (reshape_column signal) rates wv level g)
  /\ WaveAug.augment_multi signal signal2 rates wv level g
     = flatten_result
         (WaveAug.augment_multi (reshape_column signal) (reshape_column signal2)
            rates wv level g).
Proof.
  intros Hs Hs2.
  assert (Hn : ndim signal = 1) by (unfold ndim; rewrite Hs; reflexivity).
  split; [|split; [|split]].
  - unfold dominant_shuffle. rewrite Hn, Hs. cbn [ndim reshape_column shape length Nat.eqb].
    apply flatten_result_bind. intros [t f] g1.
    apply flatten_result_bind. intros sf g2.
    apply flatten_result_bind. intros nf g3. apply flatten_result_ret.
  - unfold emd_augmentation. rewrite Hn, Hs. cbn [ndim reshape_column shape length Nat.eqb].
    apply flatten_result_bind. intros [t f] g1.
    apply flatten_result_bind. intros buf g2.
    apply flatten_result_bind. intros a g3. apply flatten_result_ret.
  - unfold WaveAug.augment. rewrite Hn, Hs. cbn [ndim reshape_column shape length Nat.eqb].
    apply flatten_result_bind. intros [t f] g1.
    apply flatten_result_bind. intros buf g2. apply flatten_result_ret.
  - unfold WaveAug.augment_multi, shape_eqb. rewrite Hn, Hs, Hs2.
    cbn [ndim reshape_column shape length Nat.eqb]. rewrite ?Hs, ?Hs2.
    rewrite !bool_decide_eq_true_2 by reflexivity. cbn [negb].
    apply flatten_result_bind. intros [t f] g1.
    apply flatten_result_bind. intros buf g2. apply flatten_result_ret.
Qed.

Lemma rank1_signal_is_one_column_witness :
  shape ramp6 = [6]
  /\ dominant_shuffle (N := stub_numpy) ramp6 2 None None F64.zero g0
     = flatten_result
         (dominant_shuffle (N := stub_numpy) (reshape_column ramp6) 2 None None F64.zero g0)
  /\ WaveAug.augment (W := stub_pywt) ramp6 [F64.half] tt 2 g0
     = flatten_result (WaveAug.augment (W := stub_pywt) (reshape_column ramp6) [F64.half] tt 2 g0).
Proof.
  assert (Hs : shape ramp6 = [6]) by reflexivity.
  split; [exact Hs|].
  destruct (@rank1_signal_is_one_column stub_numpy stub_emd stub_pywt ramp6 ramp6 6
              2 10 F64.half F64.one None None F64.zero [F64.half] tt 2 g0 Hs Hs)
    as (Hds & _ & Haug & _).
  split; [exact Hds|exact Haug].
Defined.

(** ** Clipping with one bound *)

Lemma np_maximum_bound (x lo : float64) :
  F64.is_nan (np_maximum x lo) = true \/ F64.leb lo (np_maximum x lo) = true.
Proof.
  unfold np_maximum. destruct (F64.leb lo x) eqn:Hle; [right; exact Hle|].
  destruct (F64.is_nan x) eqn:Hx; cbn [orb]; [left; first [exact Hx|reflexivity]|].
  destruct (F64.is_nan lo) eqn:Hlo; [left; first [exact Hlo|reflexivity]|].
  right. cbn [orb]. apply leb_refl. first [exact Hlo|reflexivity].
Qed.

Lemma np_minimum_bound (x hi : float64) :
  F64.is_nan (np_minimum x hi) = true \/ F64.leb (np_minimum x hi) hi = true.
Proof.
  unfold np_minimum. destruct (F64.leb x hi) eqn:Hle; [right; exact Hle|].
  destruct (F64.is_nan x) eqn:Hx; cbn [orb]; [left; first [exact Hx|reflexivity]|].
  destruct (F64.is_nan hi) eqn:Hhi; [left; first [exact Hhi|reflexivity]|].
  right. cbn [orb]. apply leb_refl. first [exact Hhi|reflexivity].
Qed.

Lemma one_sided_post (lo hi : option float64) offset (sh : list nat) pre
    (P : float64 -> Prop) :
  (forall x, P (clip1 lo hi x)) ->
  Forall P (data (if length sh =? 1
                  then flatten (offset_then_clip pre offset lo hi)
                  else offset_then_clip pre offset lo hi)).
Proof.
  intros HP.
  assert (Hdata : data (if length sh =? 1
                        then flatten (offset_then_clip pre offset lo hi)
                        else offset_then_clip pre offset lo hi)
                  = (fun x => clip1 lo hi (F64.add x offset)) <$> data pre).
  { destruct (length sh =? 1); [unfold flatten; cbn [data]|];
      apply data_offset_then_clip. }
  rewrite Hdata. apply Forall_fmap, Forall_forall. intros x _. apply HP.
Qed.

(** X10. With one clip bound only, [np.clip] is [np.maximum] or
    [np.minimum]: when only [clip_min] is given, every element of what
    [dominant_shuffle], [emd_augmentation] and [mix_augmentation] return on
    a float64 signal is a NaN or at least [clip_min]; when only [clip_max]
    is given, every element is a NaN or at most [clip_max]. *)
Theorem one_bound_clips_one_side {N : Numpy} {E : PyEMD}
    (signal signal2 : ndarray) (rate n_imf : Z)
    (random_weight_prob imf_rate alpha mix_rate : float64)
    (bound offset : float64) (g : rng) :
  nd_dtype signal = Float64 ->
  let at_least y := F64.is_nan y = true \/ F64.leb bound y = true in
  let at_most y := F64.is_nan y = true \/ F64.leb y bound = true in
  (forall out g',
     dominant_shuffle signal rate (Some bound) None offset g = Ok (out, g') ->
     Forall at_least (data out))
  /\ (forall out g',
        dominant_shuffle signal rate None (Some bound) offset g = Ok (out, g') ->
        Forall at_most (data out))
  /\ (forall out g',
        emd_augmentation signal n_imf random_weight_prob imf_rate
          (Some bound) None offset g = Ok (out, g') ->
        Forall at_least (data out))
  /\ (forall out g',
        emd_augmentation signal n_imf random_weight_prob imf_rate
          None (Some bound) offset g = Ok (out, g') ->
        Forall at_most (data out))
  /\ (forall out g',
        mix_augmentation signal signal2 alpha mix_rate (Some bound) None offset g
          = Ok (out, g') ->
        Forall at_least (data out))
  /\ (forall out g',
        mix_augmentation signal signal2 alpha mix_rate None (Some bound) offset g
          = Ok (out, g') ->
        Forall at_most (data out)).
Proof.
  intros _ at_least at_most.
  assert (Hlo : forall x, at_least (clip1 (Some bound) None x))
    by (intros x; apply np_maximum_bound).
  assert (Hhi : forall x, at_most (clip1 None (Some bound) x))
    by (intros x; apply np_minimum_bound).
  repeat split; intros out g' H.
  - destruct (dominant_shuffle_pre _ _ _ _ _ _ _ _ H) as [pre Hpre].
    rewrite Hpre in H. injection H as <-.
    apply (one_sided_post (Some bound) None offset (shape signal) pre), Hlo.
  - destruct (dominant_shuffle_pre _ _ _ _ _ _ _ _ H) as [pre Hpre].
    rewrite Hpre in H. injection H as <-.
    apply (one_sided_post None (Some bound) offset (shape signal) pre), Hhi.
  - destruct (emd_augmentation_pre _ _ _ _ _ _ _ _ _ _ H) as [pre Hpre].
    rewrite Hpre in H. injection H as <-.
    apply (one_sided_post (Some bound) None offset (shape signal) pre), Hlo.
  - destruct (emd_augmentation_pre _ _ _ _ _ _ _ _ _ _ H) as [pre Hpre].
    rewrite Hpre in H. injection H as <-.
    apply (one_sided_post None (Some bound) offset (shape signal) pre), Hhi.
  - destruct (mix_augmentation_pre _ _ _ _ _ _ _ _ _ _ H) as [pre Hpre].
    rewrite Hpre in H. injection H as <-.
    apply (one_sided_post (Some bound) None offset [] pre), Hlo.
  - destruct (mix_augmentation_pre _ _ _ _ _ _ _ _ _ _ H) as [pre Hpre].
    rewrite Hpre in H. injection H as <-.
    apply (one_sided_post None (Some bound) offset [] pre), Hhi.
Qed.

Lemma one_bound_clips_one_side_witness :
  nd_dtype ramp6 = Float64
  /\ exists out g',
       mix_augmentation ramp6 ramp6 F64.half F64.one (Some F64.two) None F64.zero g0
         = Ok (out, g')
       /\ Forall (fun y => F64.is_nan y = true \/ F64.leb F64.two y = true) (data out).
Proof.
  split; [reflexivity|].
  assert (Hrun : mix_augmentation ramp6 ramp6 F64.half F64.one (Some F64.two) None
                   F64.zero g0
                 = Ok (offset_then_clip
                         (assign_rows_to ramp6 6
                            (mixup (rng_float g0 (rng_pos g0)) (rows_to ramp6 6) (rows_to ramp6 6)))
                         F64.zero (Some F64.two) None, advance g0)).
  { apply (mix_augmentation_returns ramp6 ramp6 F64.half F64.one (Some F64.two) None
             F64.zero g0 6 6); reflexivity || discriminate. }
  eexists _, _. split; [exact Hrun|].
  destruct (@one_bound_clips_one_side stub_numpy stub_emd ramp6 ramp6 4 10
              F64.half F64.one F64.half F64.one F64.two F64.zero g0 eq_refl)
    as (_ & _ & _ & _ & Hmix & _).
  apply (Hmix _ _ Hrun).
Defined.

(** ** [emd_augmentation]: the modes that are used *)

Lemma set_column_inv dt T (buf buf' : matrix float64) i v :
  set_column dt T buf i v = Ok buf' ->
  i < length buf
  /\ exists v', broadcast_to T v = Ok v' /\ buf' = <[i := store dt <$> v']> buf.
Proof.
  unfold set_column. case_bool_decide as Hi; [discriminate|].
  destruct (broadcast_to T v) as [v'|e]; [|discriminate].
  intros [= <-]. split; [lia|]. exists v'. auto.
Qed.

(** A loop whose iterations keep an invariant of the state when they
    return, and raise only exceptions of one kind, does the same. *)
Lemma for_each_seq_outcome {S} (I : S -> Prop) (P : exn -> Prop) n :
  forall start (body : nat -> S -> M S) s g,
    I s ->
    (forall j s g, start <= j < start + n -> I s ->
       match body j s g with Ok (s', _) => I s' | Raise e => P e end) ->
    match for_each (seq start n) body s g with Ok (s', _) => I s' | Raise e => P e end.
Proof.
  induction n as [|n IH]; intros start body s g Hs Hbody; simpl; [assumption|].
  unfold bind. pose proof (Hbody start s g ltac:(lia) Hs) as Hb.
  destruct (body start s g) as [[s1 g1]|e]; [|assumption].
  apply IH; [assumption|]. intros j s2 g2 Hj. apply Hbody. lia.
Qed.

(** [int(n * x)] raises nothing but [ValueError] and [OverflowError], and
    it raises when [x] is a NaN or an infinity. *)
Lemma py_int_of_product_raises (n : nat) (x : float64) e :
  py_int_of_product n x = Raise e -> e = ValueError \/ e = OverflowError.
Proof.
  unfold py_int_of_product, py_float_of_int, py_int_of_float.
  destruct (F64.of_Z (Z.of_nat n)); try (intros [= <-]; auto; fail);
    destruct (F64.mul _ x); intros [= <-]; auto.
Qed.

Lemma py_int_of_product_non_finite (n : nat) (x : float64) :
  x = S754_nan \/ (exists s, x = S754_infinity s) ->
  exists e, py_int_of_product n x = Raise e.
Proof.
  unfold py_int_of_product, py_float_of_int.
  intros [->|[s ->]]; destruct (F64.of_Z (Z.of_nat n)) as [s'|s'| |s' m' e'];
    simpl; eauto.
Qed.

Section EMDModes.
Context {E : PyEMD} {EL : PyEMDLaws E}.

(** What an iteration of the loop over the columns that returns has done
    on a column that has modes. *)
Lemma emd_column_inv signal T F n_imf p imf_rate i buf g buf' g' :
  emd_column signal T F n_imf p imf_rate i buf g = Ok (buf', g') ->
  let IMF := emd (column signal T F i) n_imf in
  IMF <> [] ->
  exists z weights,
    py_int_of_product (length IMF) imf_rate = Ok z
    /\ let k := Nat.min (Z.to_nat (Z.max 1 z)) (length IMF) in
       1 <= k
       /\ length weights = k
       /\ length (weighted_sum weights (take k IMF)) = T
       /\ buf' = <[i := store (nd_dtype signal) <$> weighted_sum weights (take k IMF)]> buf
       /\ ((F64.ltb (rng_float g (rng_pos g)) p = false
            /\ weights = replicate k F64.one /\ g' = skip 1 g)
           \/ (F64.ltb (rng_float g (rng_pos g)) p = true
               /\ weights = (fun j => F64.mul F64.two (rng_float g (j + S (rng_pos g))))
                              <$> seq 0 k
               /\ g' = skip (S k) g)).
Proof.
  intros H IMF Hne. unfold emd_column in H.
  pose proof (emd_rows (column signal T F i) n_imf) as Hrows.
  rewrite length_column in Hrows. fold IMF in H, Hrows.
  destruct (Nat.eqb_spec (length IMF) 0) as [H0|_].
  { destruct IMF; [congruence|discriminate]. }
  apply bind_inv in H as (z & g1 & Hz & H). apply lift_inv in Hz as [Hz ->].
  apply bind_inv in H as (ws & g2 & Hws & H). apply lift_inv in H as [Hset ->].
  exists z, ws. split; [exact Hz|]. cbv zeta.
  unfold slice_to in *. rewrite slice_bound_pos in * by lia.
  set (k := Nat.min (Z.to_nat (Z.max 1 z)) (length IMF)) in *.
  assert (Hk : 1 <= k) by (unfold k; destruct IMF; [congruence|simpl; lia]).
  assert (Hlk : length (take k IMF) = k) by (rewrite length_take; unfold k; lia).
  rewrite Hlk in Hws.
  assert (Hlen : length ws = k /\
            ((F64.ltb (rng_float g (rng_pos g)) p = false
              /\ ws = replicate k F64.one /\ g2 = skip 1 g)
             \/ (F64.ltb (rng_float g (rng_pos g)) p = true
                 /\ ws = (fun j => F64.mul F64.two (rng_float g (j + S (rng_pos g))))
                           <$> seq 0 k
                 /\ g2 = skip (S k) g))).
  { unfold draw_weights, random_rand in Hws. unfold bind at 1 in Hws.
    unfold draw_float in Hws.
    destruct (F64.ltb (rng_float g (rng_pos g)) p).
    - rewrite (bind_ok _ _ _ _ _ (random_sample_ok k (advance g))) in Hws.
      apply ret_inv in Hws as [-> ->]. split.
      + rewrite !length_fmap, length_seq. reflexivity.
      + right. split; [reflexivity|]. split.
        * rewrite <- list_fmap_compose. reflexivity.
        * unfold skip, advance. simpl. f_equal. lia.
    - apply ret_inv in Hws as [-> ->]. split; [apply length_replicate|].
      left. split; [reflexivity|]. split; reflexivity. }
  destruct Hlen as [Hlen Hcase].
  assert (Hsum : length (weighted_sum ws (take k IMF)) = T).
  { apply weighted_sum_length.
    - intros Hnil. apply (f_equal length) in Hnil. rewrite Hlk in Hnil. simpl in Hnil. lia.
    - congruence.
    - apply Forall_take. assumption. }
  apply set_column_inv in Hset as (Hi & v' & Hv' & ->).
  rewrite broadcast_to_same in Hv' by assumption. injection Hv' as <-.
  repeat (split; [assumption|]). split; [reflexivity|exact Hcase].
Qed.
End EMDModes.

(** The loops that fill a buffer column by column, with an invariant of
    the generator. *)
Lemma fill_columns_partial_gen (G : rng -> Prop) (R : nat -> list float64 -> Prop)
    (body : nat -> matrix float64 -> M (matrix float64)) F buf0 g buf g' :
  for_each (seq 0 F) body buf0 g = Ok (buf, g') ->
  length buf0 = F -> G g ->
  (forall i b g1 b' g2, i < F -> length b = F -> G g1 -> body i b g1 = Ok (b', g2) ->
     G g2 /\ exists c, b' = <[i := c]> b /\ R i c) ->
  length buf = F /\ G g' /\ forall i, i < F -> exists c, buf !! i = Some c /\ R i c.
Proof.
  intros Hrun Hlen HG Hbody.
  pose (P := fun (i : nat) (buf : matrix float64) (g1 : rng) =>
    length buf = F /\ G g1
    /\ forall i', i' < i -> exists c, buf !! i' = Some c /\ R i' c).
  apply (for_each_seq_partial P F 0 body buf0 g buf g' Hrun).
  - split; [assumption|]. split; [assumption|]. intros; lia.
  - intros i b g1 b' g2 Hi (Hl & Hg & Hcols) Hb.
    destruct (Hbody i b g1 b' g2) as (Hg2 & c & -> & Hc); [lia|assumption..|].
    split; [rewrite length_insert; assumption|]. split; [assumption|].
    intros i' Hi'. destruct (decide (i' = i)) as [->|Hne].
    + exists c. split; [apply list_lookup_insert_eq; lia|assumption].
    + rewrite list_lookup_insert_ne by lia. apply Hcols. lia.
Qed.

Lemma fill_columns_total_gen (G : rng -> Prop) (R : nat -> list float64 -> Prop)
    (body : nat -> matrix float64 -> M (matrix float64)) F buf0 g :
  length buf0 = F -> G g ->
  (forall i buf g, i < F -> length buf = F -> G g ->
     exists c g', body i buf g = Ok (<[i := c]> buf, g') /\ G g' /\ R i c) ->
  exists buf g',
    for_each (seq 0 F) body buf0 g = Ok (buf, g')
    /\ length buf = F /\ G g'
    /\ forall i, i < F -> exists c, buf !! i = Some c /\ R i c.
Proof.
  intros Hlen HG Hbody.
  pose (P := fun (i : nat) (buf : matrix float64) (g1 : rng) =>
    length buf = F /\ G g1
    /\ forall i', i' < i -> exists c, buf !! i' = Some c /\ R i' c).
  destruct (for_each_seq_total P F 0 body buf0 g) as (buf & g' & Hrun & Hl & Hg & Hcols).
  - split; [assumption|]. split; [assumption|]. intros; lia.
  - intros i buf g1 Hi (Hl & Hg & Hcols).
    destruct (Hbody i buf g1) as (c & g2 & Hb & Hg2 & Hc); [lia|assumption..|].
    exists (<[i := c]> buf), g2. split; [assumption|].
    split; [rewrite length_insert; assumption|]. split; [assumption|].
    intros i' Hi'. destruct (decide (i' = i)) as [->|Hne].
    + exists c. split; [apply list_lookup_insert_eq; lia|assumption].
    + rewrite list_lookup_insert_ne by lia. apply Hcols. lia.
  - exists buf, g'. repeat (split; [assumption|]). exact Hcols.
Qed.

Section EMDOperator.
Context {E : PyEMD} {EL : PyEMDLaws E}.

(** The iteration on a column in which no mode is found. *)
Lemma emd_column_no_mode signal T F n_imf p imf_rate i buf g buf' g' :
  emd_column signal T F n_imf p imf_rate i buf g = Ok (buf', g') ->
  emd (column signal T F i) n_imf = [] ->
  buf' = <[i := store (nd_dtype signal) <$> column signal T F i]> buf /\ g' = g.
Proof.
  unfold emd_column. intros H He. rewrite He in H. simpl in H.
  apply lift_inv in H as [Hset ->]. split; [|reflexivity].
  apply set_column_inv in Hset as (_ & v' & Hv' & ->).
  rewrite broadcast_to_same in Hv' by apply length_column. congruence.
Qed.

(** X11. Every column of what [emd_augmentation] returns in which the
    solver found modes is the post-processed weighted sum of the leading
    [k] modes, where [k = min(max(1, int(len(IMF) * imf_rate)), len(IMF))]:
    at least one mode is used whatever [imf_rate] is, never more than there
    are, and always the first ones.  The weights are all 1.0, or each of
    them is twice a number drawn from the generator. *)
Theorem emd_column_is_weighted_sum_of_leading_modes
    (signal : ndarray) (T F : nat) (n_imf : Z)
    (random_weight_prob imf_rate : float64)
    (clip_min clip_max : option float64) (offset : float64)
    (g : rng) (out : ndarray) (g' : rng) :
  dims signal T F -> nd_dtype signal = Float64 ->
  emd_augmentation signal n_imf random_weight_prob imf_rate clip_min clip_max offset g
    = Ok (out, g') ->
  forall i, i < F ->
    let IMF := emd (column signal T F i) n_imf in
    IMF <> [] ->
    exists z weights,
      py_int_of_product (length IMF) imf_rate = Ok z
      /\ let k := Nat.min (Z.to_nat (Z.max 1 z)) (length IMF) in
         1 <= k <= length IMF
         /\ length weights = k
         /\ (weights = replicate k F64.one
             \/ exists n,
                  weights = (fun j => F64.mul F64.two (rng_float g (j + n))) <$> seq 0 k)
         /\ column out T F i
            = (fun x => clip1 clip_min clip_max (F64.add x offset))
                <$> weighted_sum weights (take k IMF).
Proof.
  intros Hd Hdt H i Hi IMF Hne. unfold emd_augmentation in H.
  destruct (dims_unpack signal T F Hd) as (Hu & Hdata & Hdt').
  apply bind_inv in H as ([T' F'] & g1 & Hu' & H). apply lift_inv in Hu' as [Hu' ->].
  rewrite Hu in Hu'. injection Hu' as <- <-.
  apply bind_inv in H as (buf & g2 & Hloop & H).
  apply bind_inv in H as (a & g3 & Hp & H). apply lift_inv in Hp as [Hp ->].
  apply post_process_inv in Hp as [_ ->]. apply ret_inv in H as [-> ->].
  set (signal' := if ndim signal =? 1 then reshape_column signal else signal) in *.
  assert (Hcol : forall i, column signal' T F i = column signal T F i).
  { intros j. unfold column. rewrite Hdata. reflexivity. }
  destruct (fill_columns_partial_gen
              (fun g1 => rng_float g1 = rng_float g)
              (fun i c =>
                 length c = T /\
                 (emd (column signal T F i) n_imf <> [] ->
                  exists z weights,
                    py_int_of_product (length (emd (column signal T F i) n_imf)) imf_rate
                    = Ok z
                    /\ length weights
                       = Nat.min (Z.to_nat (Z.max 1 z))
                           (length (emd (column signal T F i) n_imf))
                    /\ 1 <= Nat.min (Z.to_nat (Z.max 1 z))
                              (length (emd (column signal T F i) n_imf))
                    /\ (weights = replicate (length weights) F64.one
                        \/ exists n,
                             weights = (fun j => F64.mul F64.two (rng_float g (j + n)))
                                         <$> seq 0 (length weights))
                    /\ c = weighted_sum weights
                             (take (length weights) (emd (column signal T F i) n_imf))))
              _ F (zeros T F) g buf g2 Hloop (length_zeros T F) eq_refl)
    as (Hlen & _ & Hcols).
  - intros j b ga b' gb Hj Hb Hga Hstep.
    destruct (emd (column signal T F j) n_imf) as [|imf0 IMF0] eqn:He.
    + rewrite <- Hcol in He.
      destruct (emd_column_no_mode _ _ _ _ _ _ _ _ _ _ _ Hstep He) as [-> ->].
      split; [assumption|]. eexists. split; [reflexivity|].
      split; [rewrite length_fmap; apply length_column|]. intros Hc. congruence.
    + assert (Hne' : emd (column signal' T F j) n_imf <> [])
        by (rewrite Hcol, He; discriminate).
      destruct (emd_column_inv _ _ _ _ _ _ _ _ _ _ _ Hstep Hne')
        as (z & ws & Hz & Hk & Hws & Hsum & -> & Hcase).
      rewrite Hcol, He in *.
      split.
      { destruct Hcase as [(_ & _ & ->)|(_ & _ & ->)]; assumption. }
      eexists. split; [reflexivity|].
      split; [rewrite length_fmap; assumption|]. intros _.
      exists z, ws. split; [assumption|]. split; [assumption|]. split; [assumption|].
      rewrite Hdt', Hdt, store_float64, Hws. split; [|reflexivity].
      destruct Hcase as [(_ & -> & _)|(_ & -> & _)]; [left; reflexivity|].
      right. exists (S (rng_pos ga)). rewrite Hga. reflexivity.
  - destruct (Hcols i Hi) as (c & Hc & Hlc & Hmodes).
    destruct (Hmodes Hne) as (z & ws & Hz & Hws & Hk & Hcase & ->).
    exists z, ws. split; [exact Hz|]. cbv zeta. fold IMF in Hws, Hk, Hcase, Hc, Hlc |- *.
    rewrite <- Hws.
    split; [split; [lia|rewrite Hws; lia]|]. split; [reflexivity|].
    split; [exact Hcase|].
    rewrite column_restore.
    rewrite (column_fmap (fun x => clip1 clip_min clip_max (F64.add x offset))
               (of_columns (nd_dtype signal') T buf));
      [|apply length_data_of_columns; assumption|assumption
       |apply data_offset_then_clip].
    f_equal. apply column_of_buffer; assumption.
Qed.

(** The loop over the columns returns when [int(len(IMF) * imf_rate)] is
    defined for every column that has modes, and only then; it raises
    nothing but the exceptions of that conversion. *)
Lemma emd_loop_returns signal T F n_imf p imf_rate g :
  (forall i, i < F -> emd (column signal T F i) n_imf <> [] ->
     exists z, py_int_of_product (length (emd (column signal T F i) n_imf)) imf_rate = Ok z) ->
  exists buf g',
    for_each (seq 0 F) (emd_column signal T F n_imf p imf_rate) (zeros T F) g
    = Ok (buf, g').
Proof.
  intros Hrate.
  destruct (fill_columns_total (fun _ _ => True)
              (emd_column signal T F n_imf p imf_rate) F (zeros T F) g)
    as (buf & g' & Hrun & _).
  - apply length_zeros.
  - intros i b g1 Hi Hb.
    destruct (emd_column_total signal T F n_imf p imf_rate i b g1)
      as (v & g2 & Hstep & _); [lia|apply Hrate; assumption|].
    eexists _, g2. split; [exact Hstep|exact I].
  - exists buf, g'. exact Hrun.
Qed.

Lemma emd_loop_defined signal T F n_imf p imf_rate g buf g' :
  for_each (seq 0 F) (emd_column signal T F n_imf p imf_rate) (zeros T F) g
  = Ok (buf, g') ->
  forall i, i < F -> emd (column signal T F i) n_imf <> [] ->
    exists z, py_int_of_product (length (emd (column signal T F i) n_imf)) imf_rate = Ok z.
Proof.
  intros Hloop.
  destruct (fill_columns_partial
              (fun i (_ : list float64) =>
                 emd (column signal T F i) n_imf <> [] ->
                 exists z,
                   py_int_of_product (length (emd (column signal T F i) n_imf))
                     imf_rate = Ok z)
              _ F (zeros T F) g buf g' Hloop (length_zeros T F)) as [_ Hcols].
  - intros j b ga b' gb Hj Hb Hstep.
    destruct (emd (column signal T F j) n_imf) as [|imf0 IMF0] eqn:He.
    + destruct (emd_column_no_mode _ _ _ _ _ _ _ _ _ _ _ Hstep He) as [-> _].
      eexists. split; [reflexivity|]. intros Hc. congruence.
    + assert (Hne' : emd (column signal T F j) n_imf <> [])
        by (rewrite He; discriminate).
      destruct (emd_column_inv _ _ _ _ _ _ _ _ _ _ _ Hstep Hne')
        as (z & ws & Hz & _ & _ & _ & -> & _).
      rewrite He in Hz.
      eexists. split; [reflexivity|]. intros _. exists z. exact Hz.
  - intros i Hi. destruct (Hcols i Hi) as (c & _ & Hc). exact Hc.
Qed.

Lemma emd_loop_raises signal T F n_imf p imf_rate g e :
  for_each (seq 0 F) (emd_column signal T F n_imf p imf_rate) (zeros T F) g = Raise e ->
  e = ValueError \/ e = OverflowError.
Proof.
  intros H.
  pose proof (for_each_seq_outcome
                (fun buf : matrix float64 => length buf = F)
                (fun e => e = ValueError \/ e = OverflowError)
                F 0 (emd_column signal T F n_imf p imf_rate)
                (zeros T F) g (length_zeros T F)) as Hout.
  rewrite H in Hout. apply Hout. clear Hout H.
  intros j b ga Hj Hb.
  destruct (py_int_of_product (length (emd (column signal T F j) n_imf)) imf_rate)
    as [z|e0] eqn:Hz.
  - destruct (emd_column_total signal T F n_imf p imf_rate j b ga)
      as (v & gb & -> & _); [lia|intros _; exists z; exact Hz|].
    rewrite length_insert. assumption.
  - destruct (emd (column signal T F j) n_imf) as [|imf0 IMF0] eqn:He.
    + destruct (emd_column_total signal T F n_imf p imf_rate j b ga)
        as (v & gb & -> & _); [lia|rewrite He; congruence|].
      rewrite length_insert. assumption.
    + unfold emd_column. rewrite He.
      change (length (imf0 :: IMF0) =? 0) with false. cbv iota.
      unfold bind at 1. unfold lift at 1. rewrite Hz.
      eapply py_int_of_product_raises. eassumption.
Qed.

(** A call on a signal of T time steps and F features is the loop over the
    columns followed by the post-processing. *)
Lemma emd_augmentation_run signal T F n_imf p imf_rate lo hi offset g :
  dims signal T F ->
  let signal' := if ndim signal =? 1 then reshape_column signal else signal in
  emd_augmentation signal n_imf p imf_rate lo hi offset g
  = match for_each (seq 0 F) (emd_column signal' T F n_imf p imf_rate) (zeros T F) g with
    | Ok (buf, g') =>
        match post_process (of_columns (nd_dtype signal) T buf) offset lo hi with
        | Ok a => Ok (if length (shape signal) =? 1 then flatten a else a, g')
        | Raise e => Raise e
        end
    | Raise e => Raise e
    end.
Proof.
  intros Hd signal'. unfold emd_augmentation. fold signal'.
  destruct (dims_unpack signal T F Hd) as (Hu & _ & Hdt). fold signal' in Hu, Hdt.
  run_lift Hu. unfold bind at 1.
  destruct (for_each _ _ _ g) as [[buf g']|e]; [|reflexivity].
  rewrite Hdt. unfold bind, lift.
  destruct (post_process _ offset lo hi); reflexivity.
Qed.

(** X12. On a signal of rank 1 or 2, and a solver that returns,
    [emd_augmentation] returns exactly when the signal is a floating-point
    array and [int(len(IMF) * imf_rate)] is defined for every column that
    has modes.  The only exceptions of its own steps are the [ValueError]
    and the [OverflowError] of that conversion and, on an integer array,
    the [UFuncTypeError] of [augmented_signal += offset], which is raised
    whenever the loop over the columns has come to its end, so that the
    operator returns on no integer array.  With an [imf_rate] that is a NaN
    or an infinity it raises as soon as one column has modes. *)
Theorem emd_augmentation_raises_only_from_int
    (signal : ndarray) (T F : nat) (n_imf : Z)
    (random_weight_prob imf_rate : float64)
    (clip_min clip_max : option float64) (offset : float64) (g : rng) :
  dims signal T F ->
  let call :=
    emd_augmentation signal n_imf random_weight_prob imf_rate clip_min clip_max offset g in
  let defined :=
    forall i, i < F -> emd (column signal T F i) n_imf <> [] ->
      exists z,
        py_int_of_product (length (emd (column signal T F i) n_imf)) imf_rate = Ok z in
  ((exists out g', call = Ok (out, g')) <-> nd_dtype signal <> Int64 /\ defined)
  /\ (forall e, call = Raise e ->
        e = ValueError \/ e = OverflowError
        \/ (e = UFuncTypeError /\ nd_dtype signal = Int64 /\ defined))
  /\ (nd_dtype signal = Int64 -> defined -> call = Raise UFuncTypeError)
  /\ (imf_rate = S754_nan \/ (exists s, imf_rate = S754_infinity s) ->
      (exists i, i < F /\ emd (column signal T F i) n_imf <> []) ->
      exists e, call = Raise e /\ (e = ValueError \/ e = OverflowError)).
Proof.
  intros Hd call defined.
  destruct (dims_unpack signal T F Hd) as (_ & Hdata & _).
  pose proof (emd_augmentation_run signal T F n_imf random_weight_prob imf_rate
                clip_min clip_max offset g Hd) as Hrun.
  cbv zeta in Hrun. fold call in Hrun.
  set (signal' := if ndim signal =? 1 then reshape_column signal else signal) in *.
  assert (Hcol : forall i, column signal' T F i = column signal T F i).
  { intros j. unfold column. rewrite Hdata. reflexivity. }
  assert (Hdef : defined <->
            forall i, i < F -> emd (column signal' T F i) n_imf <> [] ->
              exists z,
                py_int_of_product (length (emd (column signal' T F i) n_imf)) imf_rate
                = Ok z).
  { unfold defined. split; intros H i Hi; specialize (H i Hi);
      [rewrite Hcol|rewrite Hcol in H]; exact H. }
  destruct (for_each (seq 0 F)
              (emd_column signal' T F n_imf random_weight_prob imf_rate) (zeros T F) g)
    as [[buf g1]|e1] eqn:Hloop.
  - (* the loop has returned *)
    assert (Hd' : defined) by (apply (proj2 Hdef); eapply emd_loop_defined; exact Hloop).
    destruct (decide (nd_dtype signal = Int64)) as [Hint|Hfloat].
    + rewrite post_process_int in Hrun by exact Hint.
      split; [|split; [|split]].
      * split; [intros (out & g' & H); congruence|intros [Hf _]; contradiction].
      * intros e He. rewrite Hrun in He. injection He as <-. auto.
      * intros _ _. exact Hrun.
      * intros Hnf (i & Hi & Hne). exfalso.
        destruct (Hd' i Hi Hne) as [z Hz].
        destruct (py_int_of_product_non_finite
                    (length (emd (column signal T F i) n_imf)) imf_rate Hnf) as [e He].
        congruence.
    + rewrite post_process_float in Hrun by exact Hfloat.
      split; [|split; [|split]].
      * split; [intros _; split; assumption|intros _; eauto].
      * intros e He. congruence.
      * intros Hint. contradiction.
      * intros Hnf (i & Hi & Hne). exfalso.
        destruct (Hd' i Hi Hne) as [z Hz].
        destruct (py_int_of_product_non_finite
                    (length (emd (column signal T F i) n_imf)) imf_rate Hnf) as [e He].
        congruence.
  - (* the loop has raised *)
    pose proof (emd_loop_raises _ _ _ _ _ _ _ _ Hloop) as Hkind.
    assert (Hnd : ~ defined).
    { intros Hd'. pose proof (proj1 Hdef Hd') as Hd''.
      destruct (emd_loop_returns signal' T F n_imf random_weight_prob imf_rate g Hd'')
        as (buf & g' & Hret).
      congruence. }
    split; [|split; [|split]].
    + split; [intros (out & g' & H); congruence|intros [_ Hd']; contradiction].
    + intros e He. rewrite Hrun in He. injection He as <-.
      destruct Hkind as [->| ->]; auto.
    + intros _ Hd'. contradiction.
    + intros _ _. exists e1. split; [exact Hrun|exact Hkind].
Qed.

(** X13. [emd_augmentation] and [mix_augmentation] return an array of the
    dtype of the signal (of the first signal, for the mixup): the result is
    built in [np.zeros_like(signal)], respectively in [signal1.copy()], and
    adding the offset in place and clipping keep the dtype. *)
Theorem emd_and_mix_keep_the_dtype
    (signal signal2 : ndarray) (n_imf : Z)
    (random_weight_prob imf_rate alpha mix_rate : float64)
    (clip_min clip_max : option float64) (offset : float64) (g : rng) :
  (forall out g',
     emd_augmentation signal n_imf random_weight_prob imf_rate clip_min clip_max offset g
       = Ok (out, g') ->
     nd_dtype out = nd_dtype signal)
  /\ (forall out g',
        mix_augmentation signal signal2 alpha mix_rate clip_min clip_max offset g
          = Ok (out, g') ->
        nd_dtype out = nd_dtype signal).
Proof.
  split; intros out g' H.
  - unfold emd_augmentation in H.
    apply bind_inv in H as ([T F] & g1 & _ & H).
    apply bind_inv in H as (buf & g2 & _ & H).
    apply bind_inv in H as (a & g3 & Hp & H). apply lift_inv in Hp as [Hp ->].
    apply post_process_inv in Hp as [_ ->]. apply ret_inv in H as [-> _].
    rewrite restore_dtype, dtype_offset_then_clip. simpl.
    destruct (ndim signal =? 1); reflexivity.
  - apply mix_augmentation_inv in H as (T & k & _ & _ & _ & _ & _ & ->).
    rewrite dtype_offset_then_clip. reflexivity.
Qed.
End EMDOperator.

Lemma emd_column_is_weighted_sum_of_leading_modes_witness :
  dims ramp6 6 1 /\ nd_dtype ramp6 = Float64
  /\ exists out g',
       emd_augmentation (E := stub_emd) ramp6 10 F64.half F64.one None None F64.zero g0
         = Ok (out, g')
       /\ exists weights,
            length weights = 1
            /\ column out 6 1 0
               = (fun x => F64.add x F64.zero)
                   <$> weighted_sum weights (take 1 (@emd stub_emd (column ramp6 6 1 0) 10)).
Proof.
  assert (Hd : dims ramp6 6 1) by (right; split; reflexivity).
  assert (Hdt : nd_dtype ramp6 = Float64) by reflexivity.
  split; [exact Hd|]. split; [exact Hdt|].
  destruct (@emd_augmentation_spec stub_emd stub_emd_laws ramp6 6 1 10
              F64.half F64.one None None F64.zero g0 Hd)
    as (buf & g' & Hrun & _).
  { discriminate. }
  { intros i Hi _. exists 1%Z. destruct i as [|i]; [reflexivity|lia]. }
  eexists _, g'. split; [exact Hrun|].
  destruct (@emd_column_is_weighted_sum_of_leading_modes stub_emd stub_emd_laws
              ramp6 6 1 10 F64.half F64.one None None F64.zero g0 _ g' Hd Hdt Hrun 0)
    as (z & ws & Hz & _ & Hlen & _ & Hcol); [lia|discriminate|].
  assert (Hz1 : z = 1%Z).
  { assert (H1 : py_int_of_product (length (@emd stub_emd (column ramp6 6 1 0) 10)) F64.one
                 = Ok 1%Z) by reflexivity.
    rewrite H1 in Hz. injection Hz as <-. reflexivity. }
  subst z. exists ws. split; [exact Hlen|exact Hcol].
Defined.

Lemma emd_augmentation_raises_only_from_int_witness :
  dims ramp6 6 1
  /\ (exists e,
        emd_augmentation (E := stub_emd) ramp6 10 F64.half F64.nan None None F64.zero g0
        = Raise e
        /\ (e = ValueError \/ e = OverflowError))
  /\ (exists out g',
        emd_augmentation (E := stub_emd) ramp6 10 F64.half F64.one None None F64.zero g0
        = Ok (out, g'))
  /\ emd_augmentation (E := stub_emd) (int_vector [1; 2; 3; 4; 5; 6]%Z)
       10 F64.half F64.one None None F64.zero g0
     = Raise UFuncTypeError.
Proof.
  assert (Hd : dims ramp6 6 1) by (right; split; reflexivity).
  assert (Hdi : dims (int_vector [1; 2; 3; 4; 5; 6]%Z) 6 1) by (right; split; reflexivity).
  split; [exact Hd|]. split; [|split].
  - destruct (@emd_augmentation_raises_only_from_int stub_emd stub_emd_laws
                ramp6 6 1 10 F64.half F64.nan None None F64.zero g0 Hd)
      as (_ & _ & _ & Hnf).
    apply Hnf; [left; reflexivity|].
    exists 0. split; [lia|discriminate].
  - destruct (@emd_augmentation_raises_only_from_int stub_emd stub_emd_laws
                ramp6 6 1 10 F64.half F64.one None None F64.zero g0 Hd)
      as (Hiff & _).
    apply Hiff. split; [discriminate|].
    intros i Hi _. exists 1%Z. destruct i as [|i]; [reflexivity|lia].
  - destruct (@emd_augmentation_raises_only_from_int stub_emd stub_emd_laws
                (int_vector [1; 2; 3; 4; 5; 6]%Z) 6 1 10 F64.half F64.one
                None None F64.zero g0 Hdi)
      as (_ & _ & Hint & _).
    apply Hint; [reflexivity|].
    intros i Hi _. exists 1%Z. destruct i as [|i]; [reflexivity|lia].
Defined.

(** ** [mix_augmentation]: what is mixed, and the order of the checks *)

Lemma slice_bound_cases (len : nat) (k : Z) :
  slice_bound len k
  = if (k <? 0)%Z then len - Nat.min (Z.to_nat (- k)) len else Nat.min (Z.to_nat k) len.
Proof. unfold slice_bound. destruct (Z.ltb_spec k 0); lia. Qed.

(** X14. [mix_augmentation] draws the coefficient [lam] once and mixes the
    leading rows only: with [k = int(T * mix_rate)], the rows before
    [min(k, T)] hold [lam * signal1 + (1 - lam) * signal2] and the rows
    after them hold [signal1]; a negative [k] counts from the end, so that
    all rows but the last [-k] are mixed.  The offset and the clip bounds
    are applied to every row. *)
Theorem mix_augmentation_mixes_the_leading_rows
    (signal1 signal2 : ndarray) (alpha mix_rate : float64)
    (clip_min clip_max : option float64) (offset : float64)
    (g : rng) (out : ndarray) (g' : rng) :
  nd_dtype signal1 = Float64 -> nd_dtype signal2 = Float64 ->
  well_formed signal1 -> well_formed signal2 ->
  mix_augmentation signal1 signal2 alpha mix_rate clip_min clip_max offset g = Ok (out, g') ->
  exists time_steps mix_length,
    shape0 signal1 = Ok time_steps
    /\ py_int_of_product time_steps mix_rate = Ok mix_length
    /\ g' = advance g
    /\ let lam := rng_float g (rng_pos g) in
       let rows :=
         if (mix_length <? 0)%Z
         then time_steps - Nat.min (Z.to_nat (- mix_length)) time_steps
         else Nat.min (Z.to_nat mix_length) time_steps in
       let n := rows * size_of (tail (shape signal1)) in
       length (data out) = length (data signal1)
       /\ forall p x y,
            data signal1 !! p = Some x -> data signal2 !! p = Some y ->
            data out !! p
            = Some (clip1 clip_min clip_max
                      (F64.add
                         (if p <? n
                          then F64.add (F64.mul lam x) (F64.mul (F64.sub F64.one lam) y)
                          else x)
                         offset)).
Proof.
  intros Hdt1 _ W1 W2 H.
  apply mix_augmentation_inv in H as (T & k & Hs & _ & HT & Hk & -> & ->).
  exists T, k. split; [exact HT|]. split; [exact Hk|]. split; [reflexivity|].
  cbv zeta.
  assert (Hne : shape signal1 <> [])
    by (unfold shape0 in HT; destruct (shape signal1); [discriminate|discriminate]).
  assert (Hhd : hd 0 (shape signal1) = T)
    by (unfold shape0 in HT; destruct (shape signal1); [discriminate|simpl; congruence]).
  assert (He2 : rows_extent signal2 k = rows_extent signal1 k)
    by (unfold rows_extent; rewrite Hs; reflexivity).
  assert (Hl2 : length (data signal2) = length (data signal1))
    by (unfold well_formed in *; congruence).
  pose proof (rows_extent_le signal1 k W1 Hne) as Hle.
  assert (Hn : rows_extent signal1 k
               = (if (k <? 0)%Z then T - Nat.min (Z.to_nat (- k)) T
                  else Nat.min (Z.to_nat k) T) * size_of (tail (shape signal1))).
  { unfold rows_extent. rewrite Hhd, slice_bound_cases. reflexivity. }
  rewrite <- Hn. set (n := rows_extent signal1 k) in *.
  split.
  { rewrite data_offset_then_clip, length_fmap. apply length_mixed; assumption. }
  intros p x y Hx Hy. rewrite data_offset_then_clip, list_lookup_fmap.
  cbn [assign_rows_to data]. rewrite Hdt1, store_float64.
  unfold mixup, rows_to. rewrite He2. fold n.
  assert (Hlm : length (zip_with
                   (fun a b => F64.add (F64.mul (rng_float g (rng_pos g)) a)
                                 (F64.mul (F64.sub F64.one (rng_float g (rng_pos g))) b))
                   (take n (data signal1)) (take n (data signal2))) = n).
  { rewrite length_zip_with, !length_take. lia. }
  destruct (Nat.ltb_spec p n) as [Hp|Hp].
  - rewrite lookup_app_l by lia.
    rewrite lookup_zip_with, !lookup_take_lt, Hx, Hy by assumption. reflexivity.
  - rewrite lookup_app_r by lia. rewrite Hlm, lookup_drop.
    replace (n + (p - n)) with p by lia. rewrite Hx. reflexivity.
Qed.

Lemma mix_augmentation_mixes_the_leading_rows_witness :
  let s1 := vector [F64.one; F64.one; F64.one; F64.one] in
  let s2 := vector [F64.two; F64.two; F64.two; F64.two] in
  nd_dtype s1 = Float64 /\ nd_dtype s2 = Float64 /\ well_formed s1 /\ well_formed s2
  /\ exists out g',
       mix_augmentation s1 s2 F64.half F64.half None None F64.zero g0 = Ok (out, g')
       /\ exists time_steps mix_length,
            shape0 s1 = Ok time_steps
            /\ py_int_of_product time_steps F64.half = Ok mix_length
            /\ g' = advance g0.
Proof.
  cbv zeta.
  set (s1 := vector [F64.one; F64.one; F64.one; F64.one]).
  set (s2 := vector [F64.two; F64.two; F64.two; F64.two]).
  assert (Hrun : mix_augmentation s1 s2 F64.half F64.half None None F64.zero g0
                 = Ok (offset_then_clip
                         (assign_rows_to s1 2
                            (mixup (rng_float g0 (rng_pos g0)) (rows_to s1 2) (rows_to s2 2)))
                         F64.zero None None, advance g0)).
  { apply (mix_augmentation_returns s1 s2 F64.half F64.half None None F64.zero g0 4 2); reflexivity || discriminate. }
  split; [reflexivity|]. split; [reflexivity|]. split; [reflexivity|]. split; [reflexivity|].
  eexists _, _. split; [exact Hrun|].
  destruct (mix_augmentation_mixes_the_leading_rows s1 s2 F64.half F64.half None None
              F64.zero g0 _ _ eq_refl eq_refl eq_refl eq_refl Hrun)
    as (T & k & HT & Hk & Hg & _).
  exists T, k. split; [exact HT|]. split; [exact Hk|exact Hg].
Defined.

Lemma mix_augmentation_beta_raises signal1 signal2 alpha mix_rate lo hi offset g :
  shape signal1 = shape signal2 -> F64.leb alpha F64.zero = true ->
  mix_augmentation signal1 signal2 alpha mix_rate lo hi offset g = Raise ValueError.
Proof.
  intros Hs Ha. unfold mix_augmentation, shape_eqb.
  rewrite bool_decide_eq_true_2 by assumption. cbn [negb].
  unfold random_beta. rewrite Ha. reflexivity.
Qed.

Lemma mix_augmentation_after_beta signal1 signal2 alpha mix_rate lo hi offset g :
  shape signal1 = shape signal2 -> F64.leb alpha F64.zero = false ->
  mix_augmentation signal1 signal2 alpha mix_rate lo hi offset g
  = match shape0 signal1 with
    | Raise e => Raise e
    | Ok time_steps =>
        match py_int_of_product time_steps mix_rate with
        | Raise e => Raise e
        | Ok mix_length =>
            match post_process
                    (assign_rows_to signal1 mix_length
                       (mixup (rng_float g (rng_pos g))
                          (rows_to signal1 mix_length) (rows_to signal2 mix_length)))
                    offset lo hi with
            | Raise e => Raise e
            | Ok a => Ok (a, advance g)
            end
        end
    end.
Proof.
  intros Hs Ha. unfold mix_augmentation, shape_eqb.
  rewrite bool_decide_eq_true_2 by assumption. cbn [negb].
  unfold random_beta. rewrite Ha. cbn [orb].
  unfold bind, draw_float, lift, ret.
  destruct (shape0 signal1) as [T|e]; [|reflexivity].
  destruct (py_int_of_product T mix_rate) as [k|e]; reflexivity.
Qed.

(** X15. [mix_augmentation] makes its checks in a fixed order.  With
    equal shapes, a Beta parameter [alpha <= 0] raises the [ValueError] of
    the sampler whatever the other arguments are; then a signal of rank 0
    raises the [IndexError] of [signal1.shape[0]]; then [int(T * mix_rate)]
    raises what it raises, a [ValueError] or an [OverflowError] when
    [mix_rate] is a NaN or an infinity; then an integer [signal1] raises
    the [UFuncTypeError] of [mixed_signal += offset]; and in every other
    case, that of a floating-point [signal1] that has passed the three
    checks, the call returns, having drawn one random number. *)
Theorem mix_augmentation_checks_in_order
    (signal1 signal2 : ndarray) (alpha mix_rate : float64)
    (clip_min clip_max : option float64) (offset : float64) (g : rng) :
  shape signal1 = shape signal2 ->
  let call := mix_augmentation signal1 signal2 alpha mix_rate clip_min clip_max offset g in
  (F64.leb alpha F64.zero = true -> call = Raise ValueError)
  /\ (F64.leb alpha F64.zero = false ->
      (shape signal1 = [] -> call = Raise IndexError)
      /\ forall time_steps sh, shape signal1 = time_steps :: sh ->
           (forall e, py_int_of_product time_steps mix_rate = Raise e -> call = Raise e)
           /\ (forall k, py_int_of_product time_steps mix_rate = Ok k ->
                 (nd_dtype signal1 = Int64 -> call = Raise UFuncTypeError)
                 /\ (nd_dtype signal1 <> Int64 -> exists out, call = Ok (out, advance g)))
           /\ (mix_rate = S754_nan \/ (exists s, mix_rate = S754_infinity s) ->
               exists e, call = Raise e /\ (e = ValueError \/ e = OverflowError))).
Proof.
  intros Hs call. split; [apply mix_augmentation_beta_raises; assumption|].
  intros Ha. unfold call.
  rewrite (mix_augmentation_after_beta _ _ _ _ _ _ _ _ Hs Ha). unfold shape0. split.
  - intros ->. reflexivity.
  - intros T sh ->. split; [|split].
    + intros e ->. reflexivity.
    + intros k ->. split; intros Hdt.
      * rewrite post_process_int by exact Hdt. reflexivity.
      * rewrite post_process_float by exact Hdt. eexists. reflexivity.
    + intros Hnf. destruct (py_int_of_product_non_finite T mix_rate Hnf) as [e He].
      exists e. rewrite He. split; [reflexivity|].
      eapply py_int_of_product_raises. exact He.
Qed.

Lemma mix_augmentation_checks_in_order_witness :
  shape ramp6 = shape ramp6
  /\ mix_augmentation ramp6 ramp6 F64.zero F64.nan None None F64.zero g0 = Raise ValueError
  /\ (exists e,
        mix_augmentation ramp6 ramp6 F64.half (S754_infinity false) None None F64.zero g0
        = Raise e /\ (e = ValueError \/ e = OverflowError))
  /\ mix_augmentation (int_vector [1; 2; 3]%Z) (int_vector [4; 5; 6]%Z)
       F64.half F64.half None None F64.zero g0 = Raise UFuncTypeError
  /\ (exists out,
        mix_augmentation ramp6 ramp6 F64.half F64.half None None F64.zero g0
        = Ok (out, advance g0)).
Proof.
  split; [reflexivity|].
  split; [|split; [|split]].
  - apply (mix_augmentation_checks_in_order ramp6 ramp6 F64.zero F64.nan None None
             F64.zero g0 eq_refl).
    reflexivity.
  - destruct (mix_augmentation_checks_in_order ramp6 ramp6 F64.half (S754_infinity false)
                None None F64.zero g0 eq_refl) as [_ Hok].
    destruct (Hok eq_refl) as [_ Hrank].
    destruct (Hrank 6 [] eq_refl) as (_ & _ & Hnf).
    apply Hnf. right. exists false. reflexivity.
  - destruct (mix_augmentation_checks_in_order
                (int_vector [1; 2; 3]%Z) (int_vector [4; 5; 6]%Z) F64.half F64.half
                None None F64.zero g0 eq_refl) as [_ Hok].
    destruct (Hok eq_refl) as [_ Hrank].
    destruct (Hrank 3 [] eq_refl) as (_ & Hint & _).
    destruct (Hint 1%Z eq_refl) as [Hraise _]. apply Hraise. reflexivity.
  - destruct (mix_augmentation_checks_in_order ramp6 ramp6 F64.half F64.half
                None None F64.zero g0 eq_refl) as [_ Hok].
    destruct (Hok eq_refl) as [_ Hrank].
    destruct (Hrank 6 [] eq_refl) as (_ & Hfloat & _).
    destruct (Hfloat 3%Z eq_refl) as [_ Hret]. apply Hret. discriminate.
Defined.

(** ** [WaveAug]: the rates *)

Lemma for_each_ext {A S} (xs : list A) (body1 body2 : A -> S -> M S) :
  (forall x s g, x ∈ xs -> body1 x s g = body2 x s g) ->
  forall s g, for_each xs body1 s g = for_each xs body2 s g.
Proof.
  induction xs as [|x xs IH]; intros H s g; simpl; [reflexivity|].
  unfold bind. rewrite H by (apply elem_of_cons; left; reflexivity).
  destruct (body2 x s g) as [[s' g']|e]; [|reflexivity].
  apply IH. intros y s1 g1 Hy. apply H. apply elem_of_cons. right. assumption.
Qed.

Lemma fmap_const_seq {B} (f : nat -> B) (b : B) n :
  (forall k, f k = b) -> forall start, f <$> seq start n = replicate n b.
Proof.
  intros Hf. induction n as [|n IH]; intros start; simpl; [reflexivity|].
  rewrite Hf. f_equal. apply IH.
Qed.

Lemma rate_at_elem rates i : rates <> [] -> rate_at rates i ∈ rates.
Proof.
  intros Hne. unfold rate_at.
  assert (Hlen : 0 < length rates) by (destruct rates; [congruence|simpl; lia]).
  destruct (lookup_lt_is_Some_2 rates (Nat.min i (length rates - 1))) as [r Hr]; [lia|].
  rewrite nth_lookup, Hr. simpl. eapply list_elem_of_lookup_2. eassumption.
Qed.

(** Masks drawn from a generator whose every number compares with the
    rate in one way. *)
Lemma constant_mask (g0 g : rng) (r : float64) (b : bool) n :
  (forall k, F64.ltb (rng_float g0 k) r = b) -> rng_float g = rng_float g0 ->
  (fun x => F64.ltb x r) <$> next_floats g n = replicate n b.
Proof.
  intros Hb Hg. unfold next_floats. rewrite <- list_fmap_compose.
  apply fmap_const_seq. intros k. simpl. rewrite Hg. apply Hb.
Qed.

Lemma mask_where_replicate (b : bool) (c : list float64) :
  mask_where (replicate (length c) b) c
  = if b then replicate (length c) F64.zero else c.
Proof.
  unfold mask_where. induction c as [|x c IH]; simpl; [destruct b; reflexivity|].
  rewrite IH. destruct b; reflexivity.
Qed.

Lemma where_replicate (b : bool) (c1 c2 : list float64) :
  length c2 = length c1 ->
  where_ (replicate (length c1) b) c1 c2 = if b then c1 else c2.
Proof.
  unfold where_. revert c2. induction c1 as [|x c1 IH]; intros [|y c2] Hl;
    simpl in *; try discriminate; [destruct b; reflexivity|].
  rewrite IH by lia. destruct b; reflexivity.
Qed.

Lemma where_same (m : list bool) (c : list float64) :
  length m = length c -> where_ m c c = c.
Proof.
  unfold where_. revert m. induction c as [|x c IH]; intros [|b m] Hl;
    simpl in *; try discriminate; [reflexivity|].
  rewrite IH by lia. destruct b; reflexivity.
Qed.

Lemma length_next_floats g n : length (next_floats g n) = n.
Proof. unfold next_floats. rewrite length_fmap, length_seq. reflexivity. Qed.

Lemma details_zeroed_lengths (coeffs : matrix float64) :
  length <$> details_zeroed coeffs = length <$> coeffs.
Proof.
  unfold details_zeroed. rewrite fmap_app, <- list_fmap_compose.
  rewrite <- (take_drop 1 coeffs) at 3. rewrite fmap_app. f_equal.
  apply list_fmap_ext. intros i c _. simpl. apply length_replicate.
Qed.

Section Rates.
Context {W : PyWavelets}.

(** For a list of two or more rates, the rate of a level [i >= 1] does not
    depend on the first rate. *)
Lemma select_rate_tail (r r' : float64) (rest : list float64) (i : nat) :
  rest <> [] -> 1 <= i -> select_rate (r :: rest) i = select_rate (r' :: rest) i.
Proof.
  intros Hne Hi. unfold select_rate, py_index.
  assert (Hlen : 0 < length rest) by (destruct rest; [congruence|simpl; lia]).
  cbn [length].
  set (k := Z.min (Z.of_nat i) (Z.of_nat (S (length rest)) - 1)).
  assert (Hk : (1 <= k)%Z) by (unfold k; lia).
  destruct (Z.ltb_spec k 0); [lia|]. destruct (Z.ltb_spec k 0); [lia|].
  destruct (Z.to_nat k) as [|n] eqn:Hn; [lia|]. reflexivity.
Qed.

(** X16. [WaveAug.augment] never uses the first of two or more rates: the
    approximation array, the only one at level 0, is not masked and the
    detail array at level [i >= 1] takes [rates[min(i, len(rates) - 1)]],
    so that two lists of rates that differ in their first entry only give
    the same result, from the same random numbers. *)
Theorem augment_never_uses_the_first_of_several_rates
    (signal : ndarray) (r r' : float64) (rest : list float64)
    (wv : wavelet) (level : Z) (g : rng) :
  rest <> [] ->
  WaveAug.augment signal (r :: rest) wv level g
  = WaveAug.augment signal (r' :: rest) wv level g.
Proof.
  intros Hne. unfold WaveAug.augment, bind.
  destruct (lift _ g) as [[[T F] g1]|e]; [|reflexivity].
  rewrite (for_each_ext _ _
             (augment_column (if ndim signal =? 1 then reshape_column signal else signal)
                T F (r' :: rest) wv level)); [reflexivity|].
  intros col buf g2 _. unfold augment_column, bind, mask_coeffs.
  rewrite (for_each_ext _ _ (mask_step (r' :: rest))); [reflexivity|].
  intros i cs g3 Hi. apply elem_of_seq in Hi.
  unfold mask_step, bind.
  destruct (lift (py_index cs (Z.of_nat i)) g3) as [[c_i g4]|e]; [|reflexivity].
  rewrite (select_rate_tail r r' rest i Hne) by lia. reflexivity.
Qed.

Lemma py_index_raises {A} (l : list A) (i : Z) e : py_index l i = Raise e -> e = IndexError.
Proof.
  unfold py_index. destruct (_ <? 0)%Z; [intros [= <-]; reflexivity|].
  destruct (l !! _); [discriminate|intros [= <-]; reflexivity].
Qed.

Lemma select_rate_empty (i : nat) : select_rate [] i = Raise IndexError.
Proof.
  unfold select_rate, py_index. cbn [length].
  replace (Z.min (Z.of_nat i) (Z.of_nat 0 - 1)) with (-1)%Z by lia. reflexivity.
Qed.

Lemma mask_step_empty_rates i (coeffs : matrix float64) g :
  mask_step [] i coeffs g = Raise IndexError.
Proof.
  unfold mask_step, bind, lift.
  destruct (py_index coeffs (Z.of_nat i)) as [c|e] eqn:Hc.
  - rewrite select_rate_empty. reflexivity.
  - apply py_index_raises in Hc. congruence.
Qed.

Lemma mix_step_empty_rates (coeffs1 coeffs2 : matrix float64) i mixed g :
  mix_step [] coeffs1 coeffs2 i mixed g = Raise IndexError.
Proof.
  unfold mix_step, bind, lift.
  destruct (py_index coeffs1 (Z.of_nat i)) as [c1|e] eqn:H1.
  - destruct (py_index coeffs2 (Z.of_nat i)) as [c2|e] eqn:H2.
    + rewrite select_rate_empty. reflexivity.
    + apply py_index_raises in H2. congruence.
  - apply py_index_raises in H1. congruence.
Qed.

(** X17. An empty list of rates makes [rates[min(i, len(rates) - 1)]] the
    index [-1] of an empty list: on a signal that has a column,
    [WaveAug.augment] raises an [IndexError] as soon as the decomposition
    has a detail array, and [WaveAug.augment_multi] as soon as it has any
    array.  On a signal of no column nothing is indexed and
    [WaveAug.augment] returns. *)
Theorem empty_rates_raise_index_error
    (signal signal2 : ndarray) (T F : nat) (wv : wavelet) (level : Z) (g : rng) :
  dims signal T F ->
  (F = 0 -> exists out, WaveAug.augment signal [] wv level g = Ok (out, g))
  /\ (0 < F -> 2 <= length (wavedec (column signal T F 0) wv level) ->
      WaveAug.augment signal [] wv level g = Raise IndexError)
  /\ (0 < F -> shape signal = shape signal2 ->
      1 <= length (wavedec (column signal T F 0) wv level) ->
      WaveAug.augment_multi signal signal2 [] wv level g = Raise IndexError).
Proof.
  intros Hd. destruct (dims_unpack signal T F Hd) as (Hu & Hdata & _).
  set (signal' := if ndim signal =? 1 then reshape_column signal else signal) in *.
  assert (Hcol : forall i, column signal' T F i = column signal T F i).
  { intros j. unfold column. rewrite Hdata. reflexivity. }
  split; [|split].
  - intros ->. unfold WaveAug.augment. fold signal'. run_lift Hu.
    eexists. reflexivity.
  - intros HF Hlen. unfold WaveAug.augment. fold signal'. run_lift Hu.
    destruct F as [|F]; [lia|]. cbn [seq for_each].
    unfold bind at 1. unfold bind at 1. unfold augment_column at 1.
    unfold bind at 1. unfold mask_coeffs. rewrite Hcol.
    destruct (wavedec (column signal T (S F) 0) wv level) as [|c0 [|c1 cs]];
      simpl in Hlen; try lia.
    cbn [length Nat.sub seq for_each]. unfold bind at 1.
    rewrite mask_step_empty_rates. reflexivity.
  - intros HF Hs Hlen. unfold WaveAug.augment_multi, shape_eqb.
    rewrite bool_decide_eq_true_2 by assumption. cbn [negb]. fold signal'.
    run_lift Hu.
    destruct F as [|F]; [lia|]. cbn [seq for_each].
    unfold bind at 1. unfold bind at 1. unfold augment_multi_column at 1.
    unfold bind at 1. rewrite Hcol.
    destruct (wavedec (column signal T (S F) 0) wv level) as [|c0 cs];
      simpl in Hlen; try lia.
    cbn [length seq for_each]. unfold bind at 1.
    rewrite mix_step_empty_rates. reflexivity.
Qed.
End Rates.

Lemma augment_never_uses_the_first_of_several_rates_witness :
  [F64.half] <> []
  /\ WaveAug.augment (W := stub_pywt) ramp6 [F64.zero; F64.half] tt 2 g0
     = WaveAug.augment (W := stub_pywt) ramp6 [F64.one; F64.half] tt 2 g0.
Proof.
  assert (Hne : [F64.half] <> []) by discriminate.
  split; [exact Hne|].
  apply (@augment_never_uses_the_first_of_several_rates stub_pywt ramp6
           F64.zero F64.one [F64.half] tt 2 g0 Hne).
Defined.

Lemma empty_rates_raise_index_error_witness :
  dims ramp6 6 1
  /\ WaveAug.augment (W := stub_pywt) ramp6 [] tt 2 g0 = Raise IndexError
  /\ WaveAug.augment_multi (W := stub_pywt) ramp6 ramp6 [] tt 2 g0 = Raise IndexError.
Proof.
  assert (Hd : dims ramp6 6 1) by (right; split; reflexivity).
  split; [exact Hd|].
  destruct (@empty_rates_raise_index_error stub_pywt ramp6 ramp6 6 1 tt 2 g0 Hd)
    as (_ & Haug & Hmulti).
  split; [apply Haug; simpl; lia|apply Hmulti; [lia|reflexivity|simpl; lia]].
Defined.

(** ** [WaveAug]: what the masks and the mixes are made of *)

Lemma details_zeroed_lookup (coeffs : matrix float64) i c :
  coeffs !! i = Some c ->
  details_zeroed coeffs !! i
  = Some (if 1 <=? i then replicate (length c) F64.zero else c).
Proof.
  intros Hc. unfold details_zeroed.
  assert (Hlen : length (take 1 coeffs) = 1).
  { rewrite length_take. apply lookup_lt_Some in Hc. lia. }
  destruct i as [|i].
  - rewrite lookup_app_l by lia. rewrite lookup_take_lt by lia. rewrite Hc. reflexivity.
  - rewrite lookup_app_r by lia. rewrite Hlen, list_lookup_fmap, lookup_drop.
    replace (1 + (S i - 1)) with (S i) by lia. rewrite Hc. reflexivity.
Qed.

Lemma list_eq_lookup {A} (l k : list A) :
  length l = length k ->
  (forall i x, k !! i = Some x -> l !! i = Some x) -> l = k.
Proof.
  intros Hlen H. apply list_eq. intros i.
  destruct (k !! i) as [x|] eqn:Hk; [apply H; assumption|].
  apply lookup_ge_None. apply lookup_ge_None in Hk. lia.
Qed.

Section WaveRuns.
Context {W : PyWavelets}.

(** One iteration of the masking loop, with the numbers it draws. *)
Lemma mask_step_run rates i (coeffs : matrix float64) c_i g :
  rates <> [] -> coeffs !! i = Some c_i ->
  mask_step rates i coeffs g
  = Ok (<[i := mask_where ((fun x => F64.ltb x (rate_at rates i))
                             <$> next_floats g (length c_i)) c_i]> coeffs,
        skip (length c_i) g).
Proof.
  intros Hne Hc. unfold mask_step.
  run_lift ((py_index_ok _ _ _ Hc)).
  run_lift ((select_rate_ok rates i Hne)).
  run (random_mask_ok _ _ _). reflexivity.
Qed.

(** The masking loop on a generator whose every number compares in one
    way, [b], with every rate: nothing is masked when [b] is false, every
    detail array is zeroed when [b] is true. *)
Lemma mask_coeffs_const rates (coeffs : matrix float64) (g0 g : rng) (b : bool) :
  rates <> [] ->
  (forall k r, r ∈ rates -> F64.ltb (rng_float g0 k) r = b) ->
  rng_float g = rng_float g0 ->
  exists g',
    mask_coeffs rates coeffs g = Ok (if b then details_zeroed coeffs else coeffs, g')
    /\ rng_float g' = rng_float g0.
Proof.
  intros Hne Hb Hg. unfold mask_coeffs.
  pose (P := fun (j : nat) (cs : matrix float64) (g1 : rng) =>
    rng_float g1 = rng_float g0 /\ length cs = length coeffs
    /\ forall i c, coeffs !! i = Some c ->
         cs !! i = Some (if b && (1 <=? i) && (i <? j)
                         then replicate (length c) F64.zero else c)).
  destruct (for_each_seq_total P (length coeffs - 1) 1 (mask_step rates) coeffs g)
    as (cs & g' & Hrun & Hg' & Hlen & Hcs).
  - split; [assumption|]. split; [reflexivity|]. intros i c Hc.
    rewrite Hc. f_equal.
    destruct b; [|reflexivity]. destruct i as [|[|i]]; reflexivity.
  - intros j cs g1 Hj (Hg1 & Hlen & Hcs).
    destruct (lookup_lt_is_Some_2 coeffs j) as [c_j Hc]; [lia|].
    pose proof (Hcs j c_j Hc) as Hj'.
    rewrite Nat.ltb_irrefl, andb_false_r in Hj'.
    rewrite (mask_step_run rates j cs c_j g1 Hne Hj').
    rewrite (constant_mask g0 g1 (rate_at rates j) b (length c_j))
      by (try assumption; intros k; apply Hb, rate_at_elem; assumption).
    rewrite mask_where_replicate.
    eexists _, _. split; [reflexivity|]. split; [assumption|].
    split; [rewrite length_insert; assumption|].
    intros i c Hci. destruct (decide (i = j)) as [->|Hij].
    + rewrite list_lookup_insert_eq by lia.
      assert (c = c_j) by congruence. subst c. f_equal.
      replace (1 <=? j) with true by (symmetry; apply Nat.leb_le; lia).
      replace (j <? S j) with true by (symmetry; apply Nat.ltb_lt; lia).
      rewrite !andb_true_r. reflexivity.
    + rewrite list_lookup_insert_ne by lia. rewrite (Hcs i c Hci). f_equal.
      replace (i <? S j) with (i <? j); [reflexivity|].
      destruct (Nat.ltb_spec i j), (Nat.ltb_spec i (S j)); try reflexivity; lia.
  - exists g'. split; [|assumption]. rewrite Hrun. f_equal. f_equal.
    destruct b.
    + apply list_eq_lookup.
      * pose proof (f_equal length (details_zeroed_lengths coeffs)) as Hl.
        rewrite !length_fmap in Hl. lia.
      * intros i x Hx.
        destruct (lookup_lt_is_Some_2 coeffs i) as [c Hc].
        { apply lookup_lt_Some in Hx.
          pose proof (f_equal length (details_zeroed_lengths coeffs)) as Hl.
          rewrite !length_fmap in Hl. lia. }
        rewrite (details_zeroed_lookup _ _ _ Hc) in Hx. injection Hx as <-.
        rewrite (Hcs i c Hc). f_equal.
        replace (i <? 1 + (length coeffs - 1)) with true; [rewrite andb_true_r; reflexivity|].
        symmetry. apply Nat.ltb_lt. apply lookup_lt_Some in Hc. lia.
    + apply list_eq_lookup; [assumption|]. intros i x Hx. rewrite (Hcs i x Hx). reflexivity.
Qed.

(** One iteration of the mixing loop, with the numbers it draws. *)
Lemma mix_step_run rates (coeffs1 coeffs2 : matrix float64) i c1 c2 mixed g :
  rates <> [] -> coeffs1 !! i = Some c1 -> coeffs2 !! i = Some c2 ->
  length c2 = length c1 ->
  mix_step rates coeffs1 coeffs2 i mixed g
  = Ok (mixed ++ [where_ ((fun x => F64.ltb x (rate_at rates i))
                            <$> next_floats g (length c1)) c1 c2],
        skip (length c1) g).
Proof.
  intros Hne H1 H2 Hlen. unfold mix_step.
  run_lift ((py_index_ok _ _ _ H1)).
  run_lift ((py_index_ok _ _ _ H2)).
  run_lift ((select_rate_ok rates i Hne)).
  run (random_mask_ok _ _ _).
  assert (Hw : np_where
                 ((fun x => F64.ltb x (nth (Nat.min i (length rates - 1)) rates F64.nan))
                    <$> ((fun k => rng_float g (k + rng_pos g)) <$> seq 0 (length c1)))
                 c1 c2
               = Ok (where_ ((fun x => F64.ltb x (rate_at rates i))
                               <$> next_floats g (length c1)) c1 c2)).
  { apply np_where_ok; [|assumption]. rewrite !length_fmap, length_seq. reflexivity. }
  run_lift Hw. reflexivity.
Qed.

(** The mixing loop: level [i] of the mixed decomposition takes, place by
    place, the coefficient of the first decomposition where the number
    drawn is below the rate of the level and that of the second
    elsewhere. *)
Lemma mix_coeffs_run rates (coeffs1 coeffs2 : matrix float64) (g0 g : rng) :
  rates <> [] -> length <$> coeffs2 = length <$> coeffs1 ->
  rng_float g = rng_float g0 ->
  exists mixed g',
    for_each (seq 0 (length coeffs1)) (mix_step rates coeffs1 coeffs2) [] g
      = Ok (mixed, g')
    /\ rng_float g' = rng_float g0
    /\ length mixed = length coeffs1
    /\ forall i c1 c2, coeffs1 !! i = Some c1 -> coeffs2 !! i = Some c2 ->
         exists g1,
           rng_float g1 = rng_float g0
           /\ mixed !! i
              = Some (where_ ((fun x => F64.ltb x (rate_at rates i))
                                <$> next_floats g1 (length c1)) c1 c2).
Proof.
  intros Hne Hlens Hg.
  pose (P := fun (j : nat) (mixed : matrix float64) (g1 : rng) =>
    rng_float g1 = rng_float g0 /\ length mixed = j
    /\ forall i c1 c2, i < j -> coeffs1 !! i = Some c1 -> coeffs2 !! i = Some c2 ->
         exists g2,
           rng_float g2 = rng_float g0
           /\ mixed !! i
              = Some (where_ ((fun x => F64.ltb x (rate_at rates i))
                                <$> next_floats g2 (length c1)) c1 c2)).
  destruct (for_each_seq_total P (length coeffs1) 0
              (mix_step rates coeffs1 coeffs2) [] g)
    as (mixed & g' & Hrun & Hg' & Hlen & Hmix).
  - split; [assumption|]. split; [reflexivity|]. intros; lia.
  - intros j mixed g1 Hj (Hg1 & Hlen & Hmix).
    destruct (lookup_lt_is_Some_2 coeffs1 j) as [c1 H1]; [lia|].
    destruct (lookup_lt_is_Some_2 coeffs2 j) as [c2 H2].
    { apply (f_equal length) in Hlens. rewrite !length_fmap in Hlens. lia. }
    assert (Hl : length c2 = length c1).
    { apply (f_equal (fun l => l !! j)) in Hlens.
      rewrite !list_lookup_fmap, H1, H2 in Hlens. simpl in Hlens. congruence. }
    rewrite (mix_step_run rates coeffs1 coeffs2 j c1 c2 mixed g1 Hne H1 H2 Hl).
    eexists _, _. split; [reflexivity|]. split; [assumption|].
    split; [rewrite length_app; simpl; lia|].
    intros i d1 d2 Hi Hd1 Hd2. destruct (decide (i = j)) as [->|Hij].
    + exists g1. split; [assumption|].
      assert (d1 = c1) by congruence. assert (d2 = c2) by congruence. subst d1 d2.
      rewrite lookup_app_r by lia. rewrite Hlen, Nat.sub_diag. reflexivity.
    + rewrite lookup_app_l by lia. apply Hmix; [lia|assumption|assumption].
  - exists mixed, g'. split; [exact Hrun|]. split; [assumption|].
    split; [simpl in Hlen; assumption|].
    intros i c1 c2 H1 H2. apply Hmix; [|assumption|assumption].
    apply lookup_lt_Some in H1. simpl. lia.
Qed.

Lemma mixed_lengths (coeffs1 coeffs2 mixed : matrix float64) :
  length <$> coeffs2 = length <$> coeffs1 -> length mixed = length coeffs1 ->
  (forall i c1 c2, coeffs1 !! i = Some c1 -> coeffs2 !! i = Some c2 ->
     exists m, mixed !! i = Some m /\ length m = length c1) ->
  length <$> mixed = length <$> coeffs1.
Proof.
  intros Hlens Hlen Hm. apply list_eq_lookup; [rewrite !length_fmap; assumption|].
  intros i n Hn. rewrite list_lookup_fmap in Hn.
  destruct (coeffs1 !! i) as [c1|] eqn:H1; [|discriminate]. injection Hn as <-.
  destruct (lookup_lt_is_Some_2 coeffs2 i) as [c2 H2].
  { apply lookup_lt_Some in H1. apply (f_equal length) in Hlens.
    rewrite !length_fmap in Hlens. lia. }
  destruct (Hm i c1 c2 H1 H2) as (m & Hmi & Hlm).
  rewrite list_lookup_fmap, Hmi. simpl. congruence.
Qed.

Lemma length_where_ (m : list bool) (c1 c2 : list float64) :
  length m = length c1 -> length c2 = length c1 -> length (where_ m c1 c2) = length c1.
Proof.
  intros Hm Hc. unfold where_. rewrite length_zip_with, length_zip. lia.
Qed.
End WaveRuns.

Section WaveResults.
Context {W : PyWavelets} {WL : PyWaveletsLaws W}.

(** Arrays of the lengths of a decomposition of a column of T samples
    reconstruct to at least T samples, of which the first T are stored. *)
Lemma reconstruction_stored T (buf : matrix float64) col (cs : matrix float64)
    (x : list float64) wv level g :
  col < length buf -> length x = T ->
  length <$> cs = length <$> wavedec x wv level ->
  lift (set_column Float32 T buf col (slice_to (Z.of_nat T) (waverec cs wv))) g
  = Ok (<[col := F64.to_f32 <$> take T (waverec cs wv)]> buf, g)
  /\ length (F64.to_f32 <$> take T (waverec cs wv)) = T.
Proof.
  intros Hcol Hx Hlens.
  pose proof (waverec_length _ _ _ _ Hlens) as Hrec. rewrite Hx in Hrec.
  destruct (store_reconstruction T buf col (waverec cs wv) Hcol) as [Hstore _].
  destruct (Hstore Hrec) as [Hset Hlen].
  split; [apply lift_ok; exact Hset|]. rewrite length_fmap. exact Hlen.
Qed.

(** X18. The two ends of the mask rates.  When no number that the
    generator gives is below a rate, as with rates 0.0 and numbers drawn
    from [0, 1), [WaveAug.augment] masks nothing ([b] is false): every
    column of the result is the reconstruction of the decomposition of the
    input column, cut to T samples and rounded to float32.  When every
    number is below every rate, as with rates of 1.0 and more, every detail
    coefficient is zeroed ([b] is true) and the column is reconstructed
    from its approximation alone. *)
Theorem augment_with_constant_masks
    (signal : ndarray) (T F : nat) (rates : list float64)
    (wv : wavelet) (level : Z) (g : rng) (b : bool) :
  dims signal T F -> rates <> [] ->
  (forall k r, r ∈ rates -> F64.ltb (rng_float g k) r = b) ->
  exists out g',
    WaveAug.augment signal rates wv level g = Ok (out, g')
    /\ forall col, col < F ->
         let coeffs := wavedec (column signal T F col) wv level in
         column out T F col
         = F64.to_f32 <$> take T (waverec (if b then details_zeroed coeffs else coeffs) wv).
Proof.
  intros Hd Hne Hb. unfold WaveAug.augment.
  destruct (dims_unpack signal T F Hd) as (Hu & Hdata & _).
  set (signal' := if ndim signal =? 1 then reshape_column signal else signal) in *.
  assert (Hcol : forall i, column signal' T F i = column signal T F i).
  { intros j. unfold column. rewrite Hdata. reflexivity. }
  run_lift Hu.
  destruct (fill_columns_total_gen
              (fun g1 => rng_float g1 = rng_float g)
              (fun col c =>
                 c = F64.to_f32 <$> take T
                       (waverec (if b
                                 then details_zeroed (wavedec (column signal T F col) wv level)
                                 else wavedec (column signal T F col) wv level) wv)
                 /\ length c = T)
              (augment_column signal' T F rates wv level) F (zeros T F) g)
    as (buf & g' & Hrun & Hlen & _ & Hcols).
  - apply length_zeros.
  - reflexivity.
  - intros col b0 g1 Hc Hb0 Hg1. unfold augment_column. rewrite Hcol.
    destruct (mask_coeffs_const rates (wavedec (column signal T F col) wv level)
                g g1 b Hne Hb Hg1) as (g2 & Hmask & Hg2).
    run Hmask.
    destruct (reconstruction_stored T b0 col
                (if b then details_zeroed (wavedec (column signal T F col) wv level)
                 else wavedec (column signal T F col) wv level)
                (column signal T F col) wv level g2) as [Hset Hl].
    { lia. }
    { apply length_column. }
    { destruct b; [apply details_zeroed_lengths|reflexivity]. }
    eexists _, g2. split; [exact Hset|]. split; [assumption|]. split; [reflexivity|exact Hl].
  - run Hrun. eexists _, _. split; [reflexivity|]. intros col Hc. cbv zeta.
    destruct (Hcols col Hc) as (c & Hbc & -> & Hlc).
    rewrite column_restore. apply column_of_buffer; assumption.
Qed.

(** What [WaveAug.augment_multi] computes on two signals of one shape, with a
    non-empty list of rates. *)
Lemma augment_multi_run signal1 signal2 T F rates wv level g :
  dims signal1 T F -> shape signal1 = shape signal2 -> rates <> [] ->
  exists out g',
    WaveAug.augment_multi signal1 signal2 rates wv level g = Ok (out, g')
    /\ forall col, col < F ->
         exists mixed,
           length mixed = length (wavedec (column signal1 T F col) wv level)
           /\ (forall i c1 c2,
                 wavedec (column signal1 T F col) wv level !! i = Some c1 ->
                 wavedec (column signal2 T F col) wv level !! i = Some c2 ->
                 length c2 = length c1
                 /\ exists g1,
                      rng_float g1 = rng_float g
                      /\ mixed !! i
                         = Some (where_ ((fun x => F64.ltb x (rate_at rates i))
                                           <$> next_floats g1 (length c1)) c1 c2))
           /\ column out T F col = F64.to_f32 <$> take T (waverec mixed wv).
Proof.
  intros Hd Hs Hne. unfold WaveAug.augment_multi, shape_eqb.
  rewrite bool_decide_eq_true_2 by assumption. cbn [negb].
  destruct (dims_unpack signal1 T F Hd) as (Hu & Hdata1 & _).
  set (s1 := if ndim signal1 =? 1 then reshape_column signal1 else signal1) in *.
  set (s2 := if ndim signal1 =? 1 then reshape_column signal2 else signal2).
  assert (Hdata2 : data s2 = data signal2) by (unfold s2; destruct (_ =? _); reflexivity).
  assert (Hcol1 : forall i, column s1 T F i = column signal1 T F i).
  { intros j. unfold column. rewrite Hdata1. reflexivity. }
  assert (Hcol2 : forall i, column s2 T F i = column signal2 T F i).
  { intros j. unfold column. rewrite Hdata2. reflexivity. }
  run_lift Hu.
  assert (Hlens : forall col,
            length <$> wavedec (column signal2 T F col) wv level
            = length <$> wavedec (column signal1 T F col) wv level).
  { intros col. apply wavedec_lengths. rewrite !length_column. reflexivity. }
  assert (Hpair : forall col i c1 c2,
            wavedec (column signal1 T F col) wv level !! i = Some c1 ->
            wavedec (column signal2 T F col) wv level !! i = Some c2 ->
            length c2 = length c1).
  { intros col i c1 c2 H1 H2. pose proof (Hlens col) as Hl.
    apply (f_equal (fun l => l !! i)) in Hl.
    rewrite !list_lookup_fmap, H1, H2 in Hl. simpl in Hl. congruence. }
  destruct (fill_columns_total_gen
              (fun g1 => rng_float g1 = rng_float g)
              (fun col c =>
                 exists mixed,
                   length mixed = length (wavedec (column signal1 T F col) wv level)
                   /\ (forall i c1 c2,
                         wavedec (column signal1 T F col) wv level !! i = Some c1 ->
                         wavedec (column signal2 T F col) wv level !! i = Some c2 ->
                         length c2 = length c1
                         /\ exists g1,
                              rng_float g1 = rng_float g
                              /\ mixed !! i
                                 = Some (where_ ((fun x => F64.ltb x (rate_at rates i))
                                                   <$> next_floats g1 (length c1)) c1 c2))
                   /\ c = F64.to_f32 <$> take T (waverec mixed wv)
                   /\ length c = T)
              (augment_multi_column s1 s2 T F rates wv level) F (zeros T F) g)
    as (buf & g' & Hrun & Hlen & _ & Hcols).
  - apply length_zeros.
  - reflexivity.
  - intros col b0 g1 Hc Hb0 Hg1. unfold augment_multi_column. rewrite Hcol1, Hcol2.
    destruct (mix_coeffs_run rates (wavedec (column signal1 T F col) wv level)
                (wavedec (column signal2 T F col) wv level) g g1 Hne (Hlens col) Hg1)
      as (mixed & g2 & Hmix & Hg2 & Hlm & Hlevels).
    run Hmix.
    assert (Hml : length <$> mixed = length <$> wavedec (column signal1 T F col) wv level).
    { apply (mixed_lengths _ (wavedec (column signal2 T F col) wv level));
        [apply Hlens|assumption|].
      intros i c1 c2 H1 H2. destruct (Hlevels i c1 c2 H1 H2) as (g3 & _ & Hm).
      eexists. split; [exact Hm|].
      apply length_where_; [|eapply Hpair; eassumption].
      rewrite length_fmap. apply length_next_floats. }
    destruct (reconstruction_stored T b0 col mixed (column signal1 T F col) wv level g2)
      as [Hset Hl]; [lia|apply length_column|exact Hml|].
    eexists _, g2. split; [exact Hset|]. split; [assumption|].
    exists mixed. split; [assumption|]. split; [|split; [reflexivity|exact Hl]].
    intros i c1 c2 H1 H2. split; [eapply Hpair; eassumption|].
    apply Hlevels; assumption.
  - run Hrun. eexists _, _. split; [reflexivity|]. intros col Hc.
    destruct (Hcols col Hc) as (c & Hbc & mixed & Hlm & Hlevels & -> & Hlc).
    exists mixed. split; [assumption|]. split; [assumption|].
    rewrite column_restore. apply column_of_buffer; assumption.
Qed.

(** X19. Whatever [WaveAug.augment_multi] returns for a non-empty list of
    rates, it has mixed every level of the two decompositions, the
    approximation at level 0 included (its rate is [rates[0]]), place by
    place: the mixed coefficient is the one of [signal1] where the number
    drawn for the place is below the rate of the level, and the one of
    [signal2] elsewhere, the numbers of a level being consecutive numbers
    of the generator; every column of the result is the reconstruction of
    the mixed arrays, cut to T samples and rounded to float32. *)
Theorem augment_multi_mixes_every_level
    (signal1 signal2 : ndarray) (T F : nat) (rates : list float64)
    (wv : wavelet) (level : Z) (g : rng) (out : ndarray) (g' : rng) :
  dims signal1 T F -> rates <> [] ->
  WaveAug.augment_multi signal1 signal2 rates wv level g = Ok (out, g') ->
  forall col, col < F ->
    let coeffs1 := wavedec (column signal1 T F col) wv level in
    let coeffs2 := wavedec (column signal2 T F col) wv level in
    exists mixed_coeffs,
      length mixed_coeffs = length coeffs1
      /\ column out T F col = F64.to_f32 <$> take T (waverec mixed_coeffs wv)
      /\ forall i c1 c2, coeffs1 !! i = Some c1 -> coeffs2 !! i = Some c2 ->
           exists mixed_c,
             mixed_coeffs !! i = Some mixed_c
             /\ length mixed_c = length c1
             /\ exists start,
                  forall j a c, c1 !! j = Some a -> c2 !! j = Some c ->
                    mixed_c !! j
                    = Some (if F64.ltb (rng_float g (j + start)) (rate_at rates i)
                            then a else c).
Proof.
  intros Hd Hne Hret.
  assert (Hs : shape signal1 = shape signal2).
  { unfold WaveAug.augment_multi, shape_eqb in Hret.
    case_bool_decide as Hs; [exact Hs|discriminate]. }
  destruct (augment_multi_run signal1 signal2 T F rates wv level g Hd Hs Hne)
    as (out0 & g0' & Hrun & Hcols).
  pose proof (eq_trans (eq_sym Hrun) Hret) as Heq. injection Heq as -> ->.
  intros col Hc coeffs1 coeffs2.
  destruct (Hcols col Hc) as (mixed & Hlm & Hlevels & Hout).
  exists mixed. split; [assumption|]. split; [assumption|].
  intros i c1 c2 H1 H2. destruct (Hlevels i c1 c2 H1 H2) as (Hl & g1 & Hg1 & Hm).
  eexists. split; [exact Hm|]. split.
  - apply length_where_; [|assumption]. rewrite length_fmap. apply length_next_floats.
  - exists (rng_pos g1). intros j a c Ha Hcj.
    unfold where_, next_floats.
    rewrite lookup_zip_with, !list_lookup_fmap.
    rewrite (proj2 (lookup_seq 0 (length c1) j j))
      by (apply lookup_lt_Some in Ha; lia).
    simpl. rewrite (proj2 (lookup_zip_Some c1 c2 j a c)) by auto. simpl.
    rewrite Hg1. reflexivity.
Qed.

(** X20. The two ends of the mix rates.  When every number that the
    generator gives is below every rate ([b] is true, as with rates of 1.0
    and more), [WaveAug.augment_multi] keeps every coefficient of [signal1]:
    the result is the reconstruction of the decomposition of [signal1]
    and [signal2] plays no part; when no number is below a rate ([b] is
    false, as with rates 0.0) it is the reconstruction of the decomposition
    of [signal2]. *)
Theorem augment_multi_with_constant_masks
    (signal1 signal2 : ndarray) (T F : nat) (rates : list float64)
    (wv : wavelet) (level : Z) (g : rng) (b : bool) :
  dims signal1 T F -> shape signal1 = shape signal2 -> rates <> [] ->
  (forall k r, r ∈ rates -> F64.ltb (rng_float g k) r = b) ->
  exists out g',
    WaveAug.augment_multi signal1 signal2 rates wv level g = Ok (out, g')
    /\ forall col, col < F ->
         column out T F col
         = F64.to_f32
             <$> take T (waverec (wavedec (column (if b then signal1 else signal2) T F col)
                                    wv level) wv).
Proof.
  intros Hd Hs Hne Hb.
  destruct (augment_multi_run signal1 signal2 T F rates wv level g Hd Hs Hne)
    as (out & g' & Hrun & Hcols).
  exists out, g'. split; [exact Hrun|]. intros col Hc.
  destruct (Hcols col Hc) as (mixed & Hlm & Hlevels & ->).
  f_equal. f_equal. f_equal.
  assert (Hlens : length (wavedec (column signal2 T F col) wv level)
                  = length (wavedec (column signal1 T F col) wv level)).
  { pose proof (wavedec_lengths (column signal2 T F col) (column signal1 T F col) wv level)
      as Hl.
    rewrite !length_column in Hl. specialize (Hl eq_refl).
    apply (f_equal length) in Hl. rewrite !length_fmap in Hl. exact Hl. }
  assert (Hmask : forall i g1 n, rng_float g1 = rng_float g ->
            (fun x => F64.ltb x (rate_at rates i)) <$> next_floats g1 n = replicate n b).
  { intros i g1 n Hg1. apply (constant_mask g); [|assumption].
    intros k. apply Hb, rate_at_elem. assumption. }
  destruct b.
  - apply list_eq_lookup; [assumption|]. intros i c1 H1.
    destruct (lookup_lt_is_Some_2 (wavedec (column signal2 T F col) wv level) i)
      as [c2 H2]; [apply lookup_lt_Some in H1; lia|].
    destruct (Hlevels i c1 c2 H1 H2) as (Hl & g1 & Hg1 & ->).
    rewrite (Hmask i g1 _ Hg1), (where_replicate true c1 c2 Hl). reflexivity.
  - apply list_eq_lookup; [lia|]. intros i c2 H2.
    destruct (lookup_lt_is_Some_2 (wavedec (column signal1 T F col) wv level) i)
      as [c1 H1]; [apply lookup_lt_Some in H2; lia|].
    destruct (Hlevels i c1 c2 H1 H2) as (Hl & g1 & Hg1 & ->).
    rewrite (Hmask i g1 _ Hg1), (where_replicate false c1 c2 Hl). reflexivity.
Qed.

(** X21. Mixing a signal with itself changes nothing, whatever the rates
    and the random numbers are: every column of
    [WaveAug.augment_multi(signal, signal, rates)] is the reconstruction of
    the decomposition of the column of [signal], cut to T samples and
    rounded to float32. *)
Theorem augment_multi_of_a_signal_with_itself
    (signal : ndarray) (T F : nat) (rates : list float64)
    (wv : wavelet) (level : Z) (g : rng) :
  dims signal T F -> rates <> [] ->
  exists out g',
    WaveAug.augment_multi signal signal rates wv level g = Ok (out, g')
    /\ forall col, col < F ->
         column out T F col
         = F64.to_f32
             <$> take T (waverec (wavedec (column signal T F col) wv level) wv).
Proof.
  intros Hd Hne.
  destruct (augment_multi_run signal signal T F rates wv level g Hd eq_refl Hne)
    as (out & g' & Hrun & Hcols).
  exists out, g'. split; [exact Hrun|]. intros col Hc.
  destruct (Hcols col Hc) as (mixed & Hlm & Hlevels & ->).
  f_equal. f_equal. f_equal.
  apply list_eq_lookup; [assumption|]. intros i c Hi.
  destruct (Hlevels i c c Hi Hi) as (_ & g1 & _ & ->).
  rewrite where_same; [reflexivity|].
  rewrite length_fmap. apply length_next_floats.
Qed.
End WaveResults.

Lemma augment_with_constant_masks_witness :
  dims ramp6 6 1 /\ [F64.zero] <> []
  /\ (forall k r, r ∈ [F64.zero] -> F64.ltb (rng_float g0 k) r = false)
  /\ exists out g',
       WaveAug.augment (W := stub_pywt) ramp6 [F64.zero] tt 2 g0 = Ok (out, g')
       /\ column out 6 1 0
          = F64.to_f32
              <$> take 6 (@waverec stub_pywt (@wavedec stub_pywt (column ramp6 6 1 0) tt 2) tt).
Proof.
  assert (Hd : dims ramp6 6 1) by (right; split; reflexivity).
  assert (Hne : [F64.zero] <> []) by discriminate.
  assert (Hb : forall k r, r ∈ [F64.zero] -> F64.ltb (rng_float g0 k) r = false).
  { intros k r Hr. apply list_elem_of_singleton in Hr. subst r. reflexivity. }
  split; [exact Hd|]. split; [exact Hne|]. split; [exact Hb|].
  destruct (@augment_with_constant_masks stub_pywt stub_pywt_laws ramp6 6 1
              [F64.zero] tt 2 g0 false Hd Hne Hb) as (out & g' & Hrun & Hcols).
  exists out, g'. split; [exact Hrun|]. apply (Hcols 0). lia.
Defined.

Lemma augment_multi_mixes_every_level_witness :
  dims grid32 3 2 /\ [F64.half] <> []
  /\ exists out g',
       WaveAug.augment_multi (W := stub_pywt) grid32 grid32 [F64.half] tt 2 g0 = Ok (out, g')
       /\ exists mixed_coeffs,
            length mixed_coeffs = length (@wavedec stub_pywt (column grid32 3 2 0) tt 2)
            /\ column out 3 2 0 = F64.to_f32 <$> take 3 (@waverec stub_pywt mixed_coeffs tt).
Proof.
  assert (Hd : dims grid32 3 2) by (left; reflexivity).
  assert (Hne : [F64.half] <> []) by discriminate.
  split; [exact Hd|]. split; [exact Hne|].
  destruct (@augment_multi_run stub_pywt stub_pywt_laws grid32 grid32 3 2
              [F64.half] tt 2 g0 Hd eq_refl Hne) as (out & g' & Hrun & _).
  exists out, g'. split; [exact Hrun|].
  destruct (@augment_multi_mixes_every_level stub_pywt stub_pywt_laws grid32 grid32 3 2
              [F64.half] tt 2 g0 out g' Hd Hne Hrun 0) as (mixed & Hlen & Hcol & _); [lia|].
  exists mixed. split; [exact Hlen|exact Hcol].
Defined.

Lemma augment_multi_with_constant_masks_witness :
  let other := vector (F64.of_Z <$> [6; 5; 4; 3; 2; 1]%Z) in
  dims ramp6 6 1 /\ shape ramp6 = shape other /\ [F64.one] <> []
  /\ (forall k r, r ∈ [F64.one] -> F64.ltb (rng_float g0 k) r = true)
  /\ exists out g',
       WaveAug.augment_multi (W := stub_pywt) ramp6 other [F64.one] tt 2 g0 = Ok (out, g')
       /\ column out 6 1 0
          = F64.to_f32
              <$> take 6 (@waverec stub_pywt (@wavedec stub_pywt (column ramp6 6 1 0) tt 2) tt).
Proof.
  cbv zeta.
  assert (Hd : dims ramp6 6 1) by (right; split; reflexivity).
  assert (Hs : shape ramp6 = shape (vector (F64.of_Z <$> [6; 5; 4; 3; 2; 1]%Z)))
    by reflexivity.
  assert (Hne : [F64.one] <> []) by discriminate.
  assert (Hb : forall k r, r ∈ [F64.one] -> F64.ltb (rng_float g0 k) r = true).
  { intros k r Hr. apply list_elem_of_singleton in Hr. subst r. reflexivity. }
  split; [exact Hd|]. split; [exact Hs|]. split; [exact Hne|]. split; [exact Hb|].
  destruct (@augment_multi_with_constant_masks stub_pywt stub_pywt_laws ramp6
              (vector (F64.of_Z <$> [6; 5; 4; 3; 2; 1]%Z)) 6 1
              [F64.one] tt 2 g0 true Hd Hs Hne Hb) as (out & g' & Hrun & Hcols).
  exists out, g'. split; [exact Hrun|]. apply (Hcols 0). lia.
Defined.

Lemma augment_multi_of_a_signal_with_itself_witness :
  dims ramp6 6 1 /\ [F64.half] <> []
  /\ exists out g',
       WaveAug.augment_multi (W := stub_pywt) ramp6 ramp6 [F64.half] tt 2 g0 = Ok (out, g')
       /\ column out 6 1 0
          = F64.to_f32
              <$> take 6 (@waverec stub_pywt (@wavedec stub_pywt (column ramp6 6 1 0) tt 2) tt).
Proof.
  assert (Hd : dims ramp6 6 1) by (right; split; reflexivity).
  assert (Hne : [F64.half] <> []) by discriminate.
  split; [exact Hd|]. split; [exact Hne|].
  destruct (@augment_multi_of_a_signal_with_itself stub_pywt stub_pywt_laws ramp6 6 1
              [F64.half] tt 2 g0 Hd Hne) as (out & g' & Hrun & Hcols).
  exists out, g'. split; [exact Hrun|]. apply (Hcols 0). lia.
Defined.

(** ** Clip bounds in the wrong order *)

Lemma clip_kernel_inverted (lo hi x : float64) :
  F64.ltb hi lo = true ->
  F64.is_nan (clip_kernel lo hi x) = true \/ clip_kernel lo hi x = hi.
Proof.
  intros Hinv. unfold clip_kernel.
  pose proof (ltb_asym _ _ Hinv) as Hlh.
  destruct (leb_not_nan _ _ (ltb_leb _ _ Hinv)) as [_ Hlo].
  destruct (F64.is_nan x) eqn:Hx.
  - rewrite Hx. left. exact Hx.
  - destruct (F64.ltb lo x) eqn:Hlx.
    + rewrite Hx. destruct (F64.ltb x hi) eqn:Hxh; [|right; reflexivity].
      pose proof (ltb_trans _ _ _ Hlx Hxh) as Hcontra. congruence.
    + rewrite Hlo, Hlh. right. reflexivity.
Qed.

(** X22. Clip bounds given in the wrong order are not rejected: with
    [clip_min > clip_max], every element of what [dominant_shuffle],
    [emd_augmentation] and [mix_augmentation] return on a float64 signal is
    [clip_max], or a NaN where the sum before the clipping was one. *)
Theorem inverted_bounds_give_clip_max {N : Numpy} {E : PyEMD}
    (signal signal2 : ndarray) (rate n_imf : Z)
    (random_weight_prob imf_rate alpha mix_rate : float64)
    (lo hi offset : float64) (g : rng) :
  nd_dtype signal = Float64 -> F64.ltb hi lo = true ->
  let flat y := F64.is_nan y = true \/ y = hi in
  (forall out g',
     dominant_shuffle signal rate (Some lo) (Some hi) offset g = Ok (out, g') ->
     Forall flat (data out))
  /\ (forall out g',
        emd_augmentation signal n_imf random_weight_prob imf_rate
          (Some lo) (Some hi) offset g = Ok (out, g') ->
        Forall flat (data out))
  /\ (forall out g',
        mix_augmentation signal signal2 alpha mix_rate (Some lo) (Some hi) offset g
          = Ok (out, g') ->
        Forall flat (data out)).
Proof.
  intros _ Hinv flat.
  assert (Hflat : forall x, flat (clip1 (Some lo) (Some hi) x))
    by (intros x; apply clip_kernel_inverted; assumption).
  repeat split; intros out g' H.
  - destruct (dominant_shuffle_pre _ _ _ _ _ _ _ _ H) as [pre Hpre].
    rewrite Hpre in H. injection H as <-.
    apply (one_sided_post (Some lo) (Some hi) offset (shape signal) pre), Hflat.
  - destruct (emd_augmentation_pre _ _ _ _ _ _ _ _ _ _ H) as [pre Hpre].
    rewrite Hpre in H. injection H as <-.
    apply (one_sided_post (Some lo) (Some hi) offset (shape signal) pre), Hflat.
  - destruct (mix_augmentation_pre _ _ _ _ _ _ _ _ _ _ H) as [pre Hpre].
    rewrite Hpre in H. injection H as <-.
    apply (one_sided_post (Some lo) (Some hi) offset [] pre), Hflat.
Qed.

Lemma inverted_bounds_give_clip_max_witness :
  nd_dtype ramp6 = Float64 /\ F64.ltb F64.zero F64.one = true
  /\ exists out g',
       mix_augmentation ramp6 ramp6 F64.half F64.one (Some F64.one) (Some F64.zero)
         F64.zero g0 = Ok (out, g')
       /\ Forall (fun y => F64.is_nan y = true \/ y = F64.zero) (data out).
Proof.
  assert (Hinv : F64.ltb F64.zero F64.one = true) by reflexivity.
  split; [reflexivity|]. split; [exact Hinv|].
  assert (Hrun : mix_augmentation ramp6 ramp6 F64.half F64.one (Some F64.one) (Some F64.zero)
                   F64.zero g0
                 = Ok (offset_then_clip
                         (assign_rows_to ramp6 6
                            (mixup (rng_float g0 (rng_pos g0)) (rows_to ramp6 6) (rows_to ramp6 6)))
                         F64.zero (Some F64.one) (Some F64.zero), advance g0)).
  { apply (mix_augmentation_returns ramp6 ramp6 F64.half F64.one (Some F64.one)
             (Some F64.zero) F64.zero g0 6 6); reflexivity || discriminate. }
  eexists _, _. split; [exact Hrun|].
  destruct (@inverted_bounds_give_clip_max stub_numpy stub_emd ramp6 ramp6 4 10
              F64.half F64.one F64.half F64.one F64.one F64.zero F64.zero g0 eq_refl Hinv)
    as (_ & _ & Hmix).
  apply (Hmix _ _ Hrun).
Defined.
(** ** Rounding to single precision *)

Lemma digits2_pos_size (p : positive) : digits2_pos p = Pos.size p.
Proof. induction p; simpl; congruence. Qed.

Lemma Zdigits2_log2 (m : Z) : (0 < m)%Z -> Zdigits2 m = (Z.log2 m + 1)%Z.
Proof.
  destruct m as [|p|p]; try lia. intros _. simpl.
  rewrite digits2_pos_size. destruct p; simpl; lia.
Qed.

Lemma shr_1_m (mrs : shr_record) :
  (0 <= shr_m mrs)%Z -> shr_m (shr_1 mrs) = (shr_m mrs / 2)%Z.
Proof.
  destruct mrs as [m r s]. simpl. intros Hm.
  destruct m as [|[p|p|]|p]; simpl; try reflexivity; try lia.
  - apply (Z.div_unique _ _ _ 1%Z); lia.
  - apply (Z.div_unique _ _ _ 0%Z); lia.
Qed.

Lemma pow2_xI (p : positive) : (2 ^ Z.pos p~1 = 2 * (2 ^ Z.pos p * 2 ^ Z.pos p))%Z.
Proof.
  replace (Z.pos p~1) with (1 + (Z.pos p + Z.pos p))%Z by lia.
  rewrite !Z.pow_add_r by lia. reflexivity.
Qed.

Lemma pow2_xO (p : positive) : (2 ^ Z.pos p~0 = 2 ^ Z.pos p * 2 ^ Z.pos p)%Z.
Proof.
  replace (Z.pos p~0) with (Z.pos p + Z.pos p)%Z by lia.
  rewrite !Z.pow_add_r by lia. reflexivity.
Qed.

Lemma iter_shr_1_m (p : positive) :
  forall mrs, (0 <= shr_m mrs)%Z ->
    shr_m (SpecFloat.iter_pos shr_1 p mrs) = (shr_m mrs / 2 ^ Zpos p)%Z.
Proof.
  induction p as [p IH|p IH|]; intros mrs Hm; simpl SpecFloat.iter_pos.
  - assert (Hpow : (0 < 2 ^ Z.pos p)%Z) by (apply Z.pow_pos_nonneg; lia).
    assert (H1 : (0 <= shr_m (shr_1 mrs))%Z)
      by (rewrite shr_1_m by assumption; apply Z.div_pos; lia).
    assert (H2 : (0 <= shr_m (SpecFloat.iter_pos shr_1 p (shr_1 mrs)))%Z)
      by (rewrite IH by assumption; apply Z.div_pos; lia).
    rewrite IH, IH, shr_1_m by assumption.
    rewrite !Z.div_div by lia. rewrite pow2_xI. reflexivity.
  - assert (Hpow : (0 < 2 ^ Z.pos p)%Z) by (apply Z.pow_pos_nonneg; lia).
    assert (H2 : (0 <= shr_m (SpecFloat.iter_pos shr_1 p mrs))%Z)
      by (rewrite IH by assumption; apply Z.div_pos; lia).
    rewrite IH, IH by assumption.
    rewrite !Z.div_div by lia. rewrite pow2_xO. reflexivity.
  - rewrite shr_1_m by assumption. reflexivity.
Qed.

Section Round.
Local Open Scope Z_scope.
Variables prec emax : Z.
Hypothesis Hprec : (0 < prec)%Z.

Lemma fexp_mono (a b : Z) : (a <= b)%Z -> (fexp prec emax a <= fexp prec emax b)%Z.
Proof. unfold fexp. lia. Qed.

(** A mantissa shifted to its exponent [fexp] is canonical there, or it
    has vanished and the exponent is the smallest one. *)
Lemma shr_fexp_spec (m e : Z) (l : location) :
  (0 < m)%Z -> (e <= fexp prec emax (Zdigits2 m + e))%Z ->
  exists mrs',
    shr_fexp prec emax m e l = (mrs', fexp prec emax (Zdigits2 m + e))
    /\ (0 <= shr_m mrs' <= m)%Z
    /\ ((0 < shr_m mrs')%Z ->
        fexp prec emax (Zdigits2 (shr_m mrs') + fexp prec emax (Zdigits2 m + e))
        = fexp prec emax (Zdigits2 m + e))
    /\ (shr_m mrs' = 0%Z -> fexp prec emax (Zdigits2 m + e) = emin prec emax).
Proof.
  intros Hm He. unfold shr_fexp.
  set (D := (Zdigits2 m + e)%Z) in *.
  assert (Hrec : shr_m (shr_record_of_loc m l) = m) by (destruct l as [|[]]; reflexivity).
  destruct (fexp prec emax D - e)%Z as [|p|p] eqn:Hn; [| |lia].
  - simpl. exists (shr_record_of_loc m l).
    assert (He' : fexp prec emax D = e) by lia.
    rewrite Hrec, He'. split; [reflexivity|]. split; [lia|]. split; [|lia].
    intros _. fold D. exact He'.
  - simpl. exists (SpecFloat.iter_pos shr_1 p (shr_record_of_loc m l)).
    replace (e + Z.pos p)%Z with (fexp prec emax D) by lia.
    split; [reflexivity|].
    rewrite iter_shr_1_m, Hrec by (rewrite Hrec; lia).
    assert (Hpow : (0 < 2 ^ Z.pos p)%Z) by (apply Z.pow_pos_nonneg; lia).
    split; [split; [apply Z.div_pos; lia|apply Z.div_le_upper_bound; nia]|].
    split.
    + intros Hpos.
      assert (Hge : (2 ^ Z.pos p <= m)%Z).
      { destruct (Z_lt_le_dec m (2 ^ Z.pos p)) as [Hlt|]; [|assumption].
        rewrite Z.div_small in Hpos by lia. lia. }
      apply Z.log2_le_pow2 in Hge; [|assumption].
      rewrite (Zdigits2_log2 _ Hpos).
      rewrite <- Z.shiftr_div_pow2, Z.log2_shiftr by lia.
      f_equal. subst D. rewrite (Zdigits2_log2 _ Hm) in *. lia.
    + intros Hz.
      assert (Hlt : (m < 2 ^ Z.pos p)%Z).
      { destruct (Z_lt_le_dec m (2 ^ Z.pos p)) as [|Hge]; [assumption|].
        assert (1 <= m / 2 ^ Z.pos p)%Z by (apply Z.div_le_lower_bound; lia). lia. }
      assert (Hlog : (Z.log2 m < Z.pos p)%Z).
      { apply Z.log2_lt_pow2; assumption. }
      subst D. rewrite (Zdigits2_log2 _ Hm) in *.
      unfold fexp in *. lia.
Qed.

Lemma round_nearest_even_bounds (m : Z) (l : location) :
  (m <= round_nearest_even m l <= m + 1)%Z.
Proof. destruct l as [|[]]; simpl; try destruct (Z.even m); lia. Qed.

Lemma Zdigits2_mono (a b : Z) : (0 < a <= b)%Z -> (Zdigits2 a <= Zdigits2 b)%Z.
Proof.
  intros H. rewrite !Zdigits2_log2 by lia.
  pose proof (Z.log2_le_mono a b). lia.
Qed.

Lemma binary_round_aux_valid (s : bool) (m e : Z) (l : location) :
  (0 < m)%Z -> (e <= fexp prec emax (Zdigits2 m + e))%Z ->
  valid_binary prec emax (binary_round_aux prec emax s m e l) = true.
Proof.
  intros Hm He. unfold binary_round_aux.
  destruct (shr_fexp_spec m e l Hm He) as (mrs1 & -> & Hb1 & Hc1 & Hz1).
  set (e1 := fexp prec emax (Zdigits2 m + e)) in *.
  set (m2 := round_nearest_even (shr_m mrs1) (loc_of_shr_record mrs1)).
  pose proof (round_nearest_even_bounds (shr_m mrs1) (loc_of_shr_record mrs1)) as Hr.
  fold m2 in Hr.
  destruct (Z.eq_dec m2 0) as [H0|H0].
  - (* the rounded mantissa is zero *)
    rewrite H0. assert (Hm1 : shr_m mrs1 = 0%Z) by lia.
    specialize (Hz1 Hm1).
    unfold shr_fexp. simpl Zdigits2.
    replace (fexp prec emax (0 + e1) - e1)%Z with 0%Z
      by (rewrite Hz1; unfold fexp, emin; lia).
    reflexivity.
  - assert (Hm2 : (0 < m2)%Z) by lia.
    assert (He2 : (e1 <= fexp prec emax (Zdigits2 m2 + e1))%Z).
    { destruct (Z.eq_dec (shr_m mrs1) 0) as [Hm1|Hm1].
      - specialize (Hz1 Hm1). assert (m2 = 1%Z) by lia. subst m2.
        replace (round_nearest_even _ _) with 1%Z by lia.
        rewrite Hz1. unfold fexp, emin. simpl. lia.
      - rewrite <- (Hc1 ltac:(lia)) at 1.
        apply fexp_mono.
        pose proof (Zdigits2_mono (shr_m mrs1) m2 ltac:(lia)). lia. }
    destruct (shr_fexp_spec m2 e1 loc_Exact Hm2 He2) as (mrs3 & -> & Hb3 & Hc3 & Hz3).
    destruct (shr_m mrs3) as [|m3|m3] eqn:Hm3; [reflexivity| |lia].
    destruct (Z.leb_spec (fexp prec emax (Zdigits2 m2 + e1)) (emax - prec)) as [Hle|Hgt];
      [|reflexivity].
    simpl. unfold bounded, canonical_mantissa.
    apply andb_true_intro. split.
    + apply Z.eqb_eq. apply (Hc3 ltac:(lia)).
    + apply Z.leb_le. assumption.
Qed.

Lemma digits2_pos_iter_xO (m p : positive) :
  Zpos (digits2_pos (Pos.iter xO m p)) = (Zpos (digits2_pos m) + Zpos p)%Z.
Proof.
  induction p as [|p IH] using Pos.peano_ind.
  - simpl. lia.
  - rewrite Pos.iter_succ. simpl. lia.
Qed.

Lemma binary_round_valid (s : bool) (m : positive) (e : Z) :
  valid_binary prec emax (binary_round prec emax s m e) = true.
Proof.
  unfold binary_round, shl_align.
  destruct (fexp prec emax (Z.pos (digits2_pos m) + e) - e)%Z as [|p|p] eqn:Hd.
  - apply binary_round_aux_valid; [lia|]. simpl Zdigits2. lia.
  - apply binary_round_aux_valid; [lia|]. simpl Zdigits2. lia.
  - apply binary_round_aux_valid; [lia|]. simpl Zdigits2.
    rewrite digits2_pos_iter_xO.
    replace (Z.pos (digits2_pos m) + Z.pos p
             + fexp prec emax (Z.pos (digits2_pos m) + e))%Z
      with (Z.pos (digits2_pos m) + e)%Z by lia.
    lia.
Qed.

(** A value of the format is its own rounding. *)
Lemma shr_fexp_canonical (m : positive) (e : Z) :
  fexp prec emax (Z.pos (digits2_pos m) + e) = e ->
  shr_fexp prec emax (Z.pos m) e loc_Exact = (Build_shr_record (Z.pos m) false false, e).
Proof.
  intros Hc. unfold shr_fexp. simpl Zdigits2. rewrite Hc, Z.sub_diag. reflexivity.
Qed.

Lemma binary_round_canonical (s : bool) (m : positive) (e : Z) :
  bounded prec emax m e = true ->
  binary_round prec emax s m e = S754_finite s m e.
Proof.
  unfold bounded, canonical_mantissa. intros H.
  apply andb_prop in H as [Hc Hle]. apply Z.eqb_eq in Hc.
  unfold binary_round, shl_align. rewrite Hc, Z.sub_diag.
  unfold binary_round_aux. rewrite (shr_fexp_canonical m e Hc).
  cbn [shr_m loc_of_shr_record round_nearest_even].
  rewrite (shr_fexp_canonical m e Hc). cbn [shr_m]. rewrite Hle. reflexivity.
Qed.
End Round.

Lemma represents_shr_1 (M k : Z) (mrs : shr_record) :
  (0 <= k)%Z -> represents M k mrs -> represents M (k + 1) (shr_1 mrs).
Proof.
  intros Hk. unfold represents. rewrite Z.pow_add_r, Z.pow_1_r by lia.
  assert (HP : (0 < 2 ^ k)%Z) by (apply Z.pow_pos_nonneg; lia).
  set (P := (2 ^ k)%Z) in *. clearbody P.
  destruct mrs as [m r s]. cbn [shr_m shr_r shr_s].
  destruct m as [|[p|p|]|p]; destruct r, s; cbn [shr_1 shr_m shr_r shr_s orb];
    intros (Hm & Hrem & Hloc); try lia;
    (split; [lia|split; nia]).
Qed.

Lemma represents_iter (p : positive) :
  forall M k mrs, (0 <= k)%Z -> represents M k mrs ->
    represents M (k + Z.pos p) (SpecFloat.iter_pos shr_1 p mrs).
Proof.
  induction p as [p IH|p IH|]; intros M k mrs Hk H; simpl SpecFloat.iter_pos.
  - replace (k + Z.pos p~1)%Z with (k + 1 + Z.pos p + Z.pos p)%Z by lia.
    apply IH; [lia|]. apply IH; [lia|]. apply represents_shr_1; assumption.
  - replace (k + Z.pos p~0)%Z with (k + Z.pos p + Z.pos p)%Z by lia.
    apply IH; [lia|]. apply IH; assumption.
  - apply represents_shr_1; assumption.
Qed.

Lemma represents_exact (m : Z) :
  (0 <= m)%Z -> represents m 0 (shr_record_of_loc m loc_Exact).
Proof. intros Hm. unfold represents. simpl. lia. Qed.

(** Rounding the mantissa of a record to the nearest integer, ties to
    even, leaves half of [2^k] at most between [M] and the result. *)
Lemma round_nearest_even_error (M k : Z) (mrs : shr_record) :
  (0 <= k)%Z -> represents M k mrs ->
  (2 * Z.abs (M - round_nearest_even (shr_m mrs) (loc_of_shr_record mrs) * 2 ^ k)
   <= 2 ^ k)%Z.
Proof.
  intros Hk. unfold represents.
  assert (HP : (0 < 2 ^ k)%Z) by (apply Z.pow_pos_nonneg; lia).
  set (P := (2 ^ k)%Z) in *. clearbody P.
  destruct mrs as [m r s]. cbn [shr_m shr_r shr_s].
  intros (Hm & Hrem & Hloc).
  destruct r, s; cbn [loc_of_shr_record round_nearest_even];
    try destruct (Z.even m); nia.
Qed.

Section Nearest.
Local Open Scope Z_scope.
Variables prec emax : Z.
Hypothesis Hprec : 0 < prec.

(** The shift to the exponent [fexp], with what the record says of the
    bits that are shifted out. *)
Lemma shr_fexp_represents (m e : Z) :
  0 < m -> e <= fexp prec emax (Zdigits2 m + e) ->
  represents m (fexp prec emax (Zdigits2 m + e) - e)
    (fst (shr_fexp prec emax m e loc_Exact)).
Proof.
  intros Hm He. unfold shr_fexp.
  destruct (fexp prec emax (Zdigits2 m + e) - e) as [|p|p] eqn:Hn; [| |lia].
  - simpl. apply represents_exact. lia.
  - simpl. apply (represents_iter p m 0); [lia|]. apply represents_exact. lia.
Qed.

(** When the mantissa gains a bit by the rounding it is a power of two,
    and the second shift, by one place, loses nothing. *)
Lemma second_shift_exact (m1 m2 e1 : Z) :
  0 < m1 -> fexp prec emax (Zdigits2 m1 + e1) = e1 ->
  m1 <= m2 <= m1 + 1 ->
  exists m3,
    shr_m (fst (shr_fexp prec emax m2 e1 loc_Exact)) = m3
    /\ m3 * 2 ^ (fexp prec emax (Zdigits2 m2 + e1) - e1) = m2
    /\ e1 <= fexp prec emax (Zdigits2 m2 + e1) <= e1 + 1.
Proof.
  intros Hm1 Hc Hm2.
  assert (Hd : Zdigits2 m1 <= Zdigits2 m2) by (apply Zdigits2_mono; lia).
  assert (Hd' : Zdigits2 m2 <= Zdigits2 m1 + 1).
  { rewrite !Zdigits2_log2 by lia.
    assert (Z.log2 m2 <= Z.log2 (Z.succ m1)) by (apply Z.log2_le_mono; lia).
    pose proof (Z.log2_succ_le m1). lia. }
  assert (Hpre : e1 <= fexp prec emax (Zdigits2 m2 + e1))
    by (rewrite <- Hc at 1; apply fexp_mono; lia).
  assert (Hle : fexp prec emax (Zdigits2 m2 + e1) <= e1 + 1)
    by (unfold fexp in *; lia).
  pose proof (shr_fexp_represents m2 e1 ltac:(lia) Hpre) as Hrep.
  eexists. split; [reflexivity|]. split; [|lia].
  destruct (Z.eq_dec (fexp prec emax (Zdigits2 m2 + e1)) e1) as [Heq|Hne].
  - rewrite Heq, Z.sub_diag in *. unfold represents in Hrep. simpl in Hrep. lia.
  - assert (Hn : fexp prec emax (Zdigits2 m2 + e1) - e1 = 1) by lia.
    rewrite Hn in *.
    assert (Hdig : Zdigits2 m2 = Zdigits2 m1 + 1).
    { destruct (Z.eq_dec (Zdigits2 m2) (Zdigits2 m1)) as [Hsame|]; [|lia].
      rewrite Hsame in Hn. lia. }
    rewrite !Zdigits2_log2 in Hdig by lia.
    assert (Hpow : m2 = 2 ^ (Z.log2 m1 + 1)).
    { pose proof (Z.log2_spec m1 Hm1) as [_ Hlt].
      pose proof (Z.log2_spec m2 ltac:(lia)) as [Hge _].
      assert (Hl : Z.log2 m2 = Z.log2 m1 + 1) by lia.
      rewrite Hl in Hge. unfold Z.succ in Hlt. lia. }
    assert (Heven : exists q, m2 = 2 * q).
    { exists (2 ^ Z.log2 m1). rewrite Hpow, Z.pow_add_r, Z.pow_1_r; [lia| |lia].
      apply Z.log2_nonneg. }
    destruct Heven as [q Hq].
    unfold represents in Hrep. destruct Hrep as (_ & Hrem & _).
    change (2 ^ 1) with 2 in *. lia.
Qed.

Lemma binary_round_aux_nearest (s : bool) (m e : Z) :
  0 < m -> e <= fexp prec emax (Zdigits2 m + e) ->
  let e1 := fexp prec emax (Zdigits2 m + e) in
  match binary_round_aux prec emax s m e loc_Exact with
  | S754_zero s' => s' = s /\ 2 * m <= 2 ^ (e1 - e)
  | S754_finite s' m' e' =>
      s' = s /\ e1 <= e' /\ 2 * Z.abs (m - Z.pos m' * 2 ^ (e' - e)) <= 2 ^ (e1 - e)
  | S754_infinity s' => s' = s /\ emax - prec <= e1
  | S754_nan => False
  end.
Proof.
  intros Hm He e1.
  pose proof (shr_fexp_represents m e Hm He) as Hrep.
  unfold binary_round_aux.
  destruct (shr_fexp_spec prec emax Hprec m e loc_Exact Hm He)
    as (mrs1 & Heq1 & Hb1 & Hc1 & Hz1).
  rewrite Heq1 in Hrep |- *. cbn [fst] in Hrep. fold e1 in Hrep, Hc1, Hz1 |- *.
  pose proof (round_nearest_even_error m (e1 - e) mrs1 ltac:(lia) Hrep) as Herr.
  pose proof (round_nearest_even_bounds (shr_m mrs1) (loc_of_shr_record mrs1)) as Hr.
  set (m2 := round_nearest_even (shr_m mrs1) (loc_of_shr_record mrs1)) in *.
  destruct (Z.eq_dec m2 0) as [H0|H0].
  - (* the rounded mantissa is zero *)
    rewrite H0 in *. assert (Hm1 : shr_m mrs1 = 0) by lia.
    specialize (Hz1 Hm1).
    unfold shr_fexp. simpl Zdigits2.
    replace (fexp prec emax (0 + e1) - e1) with 0
      by (rewrite Hz1; unfold fexp, emin; lia).
    simpl. split; [reflexivity|].
    rewrite Z.mul_0_l, Z.sub_0_r, Z.abs_eq in Herr by lia. exact Herr.
  - assert (Hm2 : 0 < m2) by lia.
    assert (Hsecond : exists mrs3 e3,
              shr_fexp prec emax m2 e1 loc_Exact = (mrs3, e3)
              /\ shr_m mrs3 * 2 ^ (e3 - e1) = m2 /\ e1 <= e3 <= e1 + 1).
    { destruct (Z.eq_dec (shr_m mrs1) 0) as [Hm1|Hm1].
      - specialize (Hz1 Hm1). assert (H1 : m2 = 1) by lia.
        assert (Hf : fexp prec emax (Zdigits2 m2 + e1) = e1)
          by (rewrite H1, Hz1; unfold fexp, emin; simpl; lia).
        pose proof (shr_fexp_represents m2 e1 Hm2 ltac:(lia)) as Hrep3.
        destruct (shr_fexp_spec prec emax Hprec m2 e1 loc_Exact Hm2 ltac:(lia))
          as (mrs3 & Heq3 & _).
        rewrite Heq3 in Hrep3. cbn [fst] in Hrep3.
        rewrite Hf, Z.sub_diag in Hrep3. rewrite Hf in Heq3.
        exists mrs3, e1. split; [exact Heq3|].
        rewrite Z.sub_diag. unfold represents in Hrep3. simpl in Hrep3. lia.
      - destruct (second_shift_exact (shr_m mrs1) m2 e1 ltac:(lia) (Hc1 ltac:(lia)) Hr)
          as (m3 & Hm3 & Hex & Hrange).
        destruct (shr_fexp_spec prec emax Hprec m2 e1 loc_Exact Hm2 ltac:(lia))
          as (mrs3 & Heq3 & _).
        rewrite Heq3 in Hm3. cbn [fst] in Hm3.
        exists mrs3, (fexp prec emax (Zdigits2 m2 + e1)).
        split; [exact Heq3|]. rewrite Hm3. split; assumption. }
    destruct Hsecond as (mrs3 & e3 & -> & Hex & Hrange).
    assert (Hpow : 0 < 2 ^ (e3 - e1)) by (apply Z.pow_pos_nonneg; lia).
    destruct (shr_m mrs3) as [|m3|m3] eqn:Hm3; [lia| |lia].
    destruct (Z.leb_spec e3 (emax - prec)) as [Hle|Hgt].
    + split; [reflexivity|]. split; [lia|].
      replace (e3 - e) with ((e3 - e1) + (e1 - e)) by lia.
      rewrite Z.pow_add_r, Z.mul_assoc, Hex by lia. exact Herr.
    + split; [reflexivity|lia].
Qed.

Lemma Zpos_iter_xO (m p : positive) : Z.pos (Pos.iter xO m p) = Z.pos m * 2 ^ Z.pos p.
Proof.
  induction p as [|p IH] using Pos.peano_ind.
  - simpl. lia.
  - rewrite Pos.iter_succ, Pos2Z.inj_xO, IH, Pos2Z.inj_succ, Z.pow_succ_r by lia. lia.
Qed.

(** Rounding gives a value next to the number that is rounded. *)
Lemma binary_round_nearest (s : bool) (m : positive) (e : Z) :
  nearest prec emax s m e (binary_round prec emax s m e).
Proof.
  unfold nearest, binary_round, shl_align.
  set (e1 := fexp prec emax (Z.pos (digits2_pos m) + e)).
  destruct (e1 - e) as [|p|p] eqn:Hd.
  - pose proof (binary_round_aux_nearest s (Z.pos m) e ltac:(lia)) as H.
    simpl Zdigits2 in H. fold e1 in H. specialize (H ltac:(lia)). cbv zeta in H.
    rewrite Z.min_l by lia. rewrite Z.sub_diag, Z.mul_1_r.
    destruct (binary_round_aux _ _ _ _ _ _); exact H.
  - pose proof (binary_round_aux_nearest s (Z.pos m) e ltac:(lia)) as H.
    simpl Zdigits2 in H. fold e1 in H. specialize (H ltac:(lia)). cbv zeta in H.
    rewrite Z.min_l by lia. rewrite Z.sub_diag, Z.mul_1_r.
    destruct (binary_round_aux _ _ _ _ _ _); exact H.
  - assert (He1 : fexp prec emax (Zdigits2 (Z.pos (Pos.iter xO m p)) + e1) = e1).
    { simpl Zdigits2. rewrite digits2_pos_iter_xO.
      replace (Z.pos (digits2_pos m) + Z.pos p + e1) with (Z.pos (digits2_pos m) + e) by lia.
      reflexivity. }
    pose proof (binary_round_aux_nearest s (Z.pos (Pos.iter xO m p)) e1 ltac:(lia)) as H.
    rewrite He1 in H. specialize (H ltac:(lia)). cbv zeta in H.
    rewrite Z.min_r by lia.
    replace (e - e1) with (Z.pos p) by lia.
    destruct (binary_round_aux _ _ _ _ _ _); rewrite ?Zpos_iter_xO in H; exact H.
Qed.
End Nearest.

(** What is written into a float32 array is a float32 value, and a float32
    value is written as it is. *)
Lemma to_f32_is_float32 (x : float64) : is_float32 (F64.to_f32 x) = true.
Proof.
  destruct x as [s|s| |s m e]; try reflexivity.
  apply binary_round_valid. lia.
Qed.

Lemma to_f32_float32 (x : float64) : is_float32 x = true -> F64.to_f32 x = x.
Proof.
  destruct x as [s|s| |s m e]; try reflexivity.
  intros H. apply binary_round_canonical. exact H.
Qed.

(** A double is written as a float32 value next to it. *)
Lemma to_f32_nearest (s : bool) (m : positive) (e : Z) :
  nearest_float32 s m e (F64.to_f32 (S754_finite s m e)).
Proof. apply binary_round_nearest. lia. Qed.

(** ** [WaveAug]: the masks, the stored column and its dtype *)

Lemma py_index_inv {A} (l : list A) (i : nat) x :
  py_index l (Z.of_nat i) = Ok x -> l !! i = Some x.
Proof.
  unfold py_index.
  destruct (Z.ltb_spec (Z.of_nat i) 0); [lia|].
  destruct (Z.ltb_spec (Z.of_nat i) 0); [lia|].
  rewrite Nat2Z.id. destruct (l !! i); [congruence|discriminate].
Qed.

Lemma draws_before_S (coeffs : matrix float64) j c :
  1 <= j -> coeffs !! j = Some c ->
  draws_before coeffs (S j) = draws_before coeffs j + length c.
Proof.
  intros Hj Hc. unfold draws_before.
  replace (S j - 1) with (S (j - 1)) by lia.
  rewrite (take_S_r _ _ c).
  - rewrite sum_list_with_app. simpl. lia.
  - rewrite lookup_drop. replace (1 + (j - 1)) with j by lia. assumption.
Qed.

Lemma next_floats_lookup (g : rng) (n j : nat) :
  j < n -> next_floats g n !! j = Some (rng_float g (j + rng_pos g)).
Proof.
  intros Hj. unfold next_floats.
  rewrite list_lookup_fmap, (proj2 (lookup_seq 0 n j j)) by (split; [reflexivity|lia]).
  reflexivity.
Qed.

Lemma mask_where_lookup (m : list bool) (c : list float64) (j : nat) (b : bool)
    (x : float64) :
  m !! j = Some b -> c !! j = Some x ->
  mask_where m c !! j = Some (if b then F64.zero else x).
Proof.
  intros Hm Hc. unfold mask_where. rewrite lookup_zip_with, Hm. simpl.
  rewrite Hc. reflexivity.
Qed.

Section MaskDraws.
Context {W : PyWavelets}.

(** The masking loop with the numbers it draws: the detail array [i] is
    masked against the [len(c_i)] numbers that follow the ones drawn for
    the detail arrays before it. *)
Lemma mask_coeffs_draws rates (coeffs : matrix float64) g :
  rates <> [] ->
  exists coeffs',
    mask_coeffs rates coeffs g
    = Ok (coeffs', skip (draws_before coeffs (length coeffs)) g)
    /\ length coeffs' = length coeffs
    /\ forall i c, coeffs !! i = Some c ->
         coeffs' !! i
         = Some (if 1 <=? i
                 then mask_where
                        ((fun x => F64.ltb x (rate_at rates i))
                           <$> next_floats (skip (draws_before coeffs i) g) (length c)) c
                 else c).
Proof.
  intros Hne. unfold mask_coeffs.
  pose (P := fun (j : nat) (cs : matrix float64) (g1 : rng) =>
    g1 = skip (draws_before coeffs j) g /\ length cs = length coeffs
    /\ forall i c, coeffs !! i = Some c ->
         cs !! i
         = Some (if (1 <=? i) && (i <? j)
                 then mask_where
                        ((fun x => F64.ltb x (rate_at rates i))
                           <$> next_floats (skip (draws_before coeffs i) g) (length c)) c
                 else c)).
  destruct (for_each_seq_total P (length coeffs - 1) 1 (mask_step rates) coeffs g)
    as (cs & g' & Hrun & Hg' & Hlen & Hcs).
  - split; [|split; [reflexivity|]].
    + unfold draws_before. simpl. symmetry. apply skip_0.
    + intros i c Hc. rewrite Hc. f_equal.
      destruct i as [|[|i]]; reflexivity.
  - intros j cs g1 Hj (Hg1 & Hlen & Hcs).
    destruct (lookup_lt_is_Some_2 coeffs j) as [c_j Hc]; [lia|].
    pose proof (Hcs j c_j Hc) as Hj'.
    rewrite Nat.ltb_irrefl, andb_false_r in Hj'.
    rewrite (mask_step_run rates j cs c_j g1 Hne Hj').
    eexists _, _. split; [reflexivity|]. split; [|split].
    + rewrite Hg1, skip_skip, (draws_before_S coeffs j c_j) by (lia || assumption).
      f_equal. lia.
    + rewrite length_insert. assumption.
    + intros i c Hci. destruct (decide (i = j)) as [->|Hij].
      * rewrite list_lookup_insert_eq by lia.
        assert (c = c_j) by congruence. subst c. f_equal.
        replace (1 <=? j) with true by (symmetry; apply Nat.leb_le; lia).
        replace (j <? S j) with true by (symmetry; apply Nat.ltb_lt; lia).
        rewrite Hg1. reflexivity.
      * rewrite list_lookup_insert_ne by lia. rewrite (Hcs i c Hci). f_equal.
        replace (i <? S j) with (i <? j); [reflexivity|].
        destruct (Nat.ltb_spec i j), (Nat.ltb_spec i (S j)); try reflexivity; lia.
  - exists cs. split; [|split; [assumption|]].
    + rewrite Hrun, Hg'. f_equal. f_equal. f_equal.
      destruct (length coeffs) as [|n]; [reflexivity|]. f_equal. lia.
    + intros i c Hc. rewrite (Hcs i c Hc). f_equal.
      replace (i <? 1 + (length coeffs - 1)) with true; [rewrite andb_true_r; reflexivity|].
      symmetry. apply Nat.ltb_lt. apply lookup_lt_Some in Hc. lia.
Qed.

(** The arrays that the masking loop returns have the lengths of the
    arrays it was given, whatever the rates are. *)
Lemma mask_coeffs_lengths rates (coeffs : matrix float64) g coeffs' g' :
  mask_coeffs rates coeffs g = Ok (coeffs', g') ->
  length <$> coeffs' = length <$> coeffs.
Proof.
  unfold mask_coeffs. intros Hrun.
  apply (for_each_seq_partial
           (fun (_ : nat) (cs : matrix float64) (_ : rng) =>
              length <$> cs = length <$> coeffs)
           (length coeffs - 1) 1 (mask_step rates) coeffs g coeffs' g' Hrun).
  - reflexivity.
  - intros j cs g1 cs' g2 Hj Hcs Hstep. unfold mask_step in Hstep.
    apply bind_inv in Hstep as (c_i & ga & Hc & Hstep). apply lift_inv in Hc as [Hc ->].
    apply bind_inv in Hstep as (r & gb & _ & Hstep).
    apply bind_inv in Hstep as (m & gc & Hm & Hstep).
    apply ret_inv in Hstep as [-> _].
    rewrite random_mask_ok in Hm. injection Hm as <- _.
    apply py_index_inv in Hc.
    rewrite list_fmap_insert, <- Hcs. apply list_insert_id.
    rewrite list_lookup_fmap, Hc. simpl. f_equal. symmetry.
    apply length_mask_where. rewrite !length_fmap, length_seq. reflexivity.
Qed.

(** The same for the mixing loop, on two decompositions of arrays of the
    same lengths. *)
Lemma mix_loop_lengths rates (coeffs1 coeffs2 : matrix float64) g mixed g' :
  length <$> coeffs2 = length <$> coeffs1 ->
  for_each (seq 0 (length coeffs1)) (mix_step rates coeffs1 coeffs2) [] g
    = Ok (mixed, g') ->
  length <$> mixed = length <$> coeffs1.
Proof.
  intros Hlens Hrun.
  pose (P := fun (j : nat) (mixed : matrix float64) (_ : rng) =>
    length <$> mixed = length <$> take j coeffs1).
  assert (HP : P (0 + length coeffs1) mixed g').
  { apply (for_each_seq_partial P (length coeffs1) 0
             (mix_step rates coeffs1 coeffs2) [] g mixed g' Hrun).
    - reflexivity.
    - intros j m0 g1 m1 g2 Hj Hm0 Hstep. unfold mix_step in Hstep.
      apply bind_inv in Hstep as (c1 & ga & H1 & Hstep). apply lift_inv in H1 as [H1 ->].
      apply bind_inv in Hstep as (c2 & gb & H2 & Hstep). apply lift_inv in H2 as [H2 ->].
      apply bind_inv in Hstep as (r & gc & _ & Hstep).
      apply bind_inv in Hstep as (mask & gd & Hmask & Hstep).
      apply bind_inv in Hstep as (mixed_c & ge & Hw & Hstep).
      apply lift_inv in Hw as [Hw ->]. apply ret_inv in Hstep as [-> _].
      rewrite random_mask_ok in Hmask. injection Hmask as <- _.
      apply py_index_inv in H1. apply py_index_inv in H2.
      assert (Hl : length c2 = length c1).
      { apply (f_equal (fun l => l !! j)) in Hlens.
        rewrite !list_lookup_fmap, H1, H2 in Hlens. simpl in Hlens. congruence. }
      rewrite np_where_ok in Hw
        by (try assumption; rewrite !length_fmap, length_seq; reflexivity).
      injection Hw as <-.
      unfold P in *. rewrite (take_S_r _ _ _ H1), !fmap_app, Hm0. simpl.
      f_equal. f_equal. rewrite length_zip_with, length_zip, !length_fmap, length_seq. lia. }
  unfold P in HP. simpl in HP. rewrite take_ge in HP by lia. exact HP.
Qed.
End MaskDraws.

(** C7. In [WaveAug.augment] the approximation array (index 0 of the
    decomposition) is never masked, whatever the input, the rates and the
    random draws.  Every detail array at an index [i >= 1] is masked
    coefficient by coefficient with the rate
    [rates[min(i, len(rates) - 1)]], so that a list of rates shorter than
    the decomposition is continued with its last value: a coefficient is
    set to zero exactly when the number that the generator gives for it is
    below that rate, and is kept otherwise.  The numbers are those of
    [np.random.uniform], taken from the generator in the order of the
    coefficients: the coefficient [j] of the detail array [i] gets the
    number that follows the ones of the detail arrays before [i] and of
    the coefficients before [j].  The column is reconstructed from the
    arrays so masked. *)
Theorem approximation_kept_details_masked_by_rate {W : PyWavelets}
    (signal : ndarray) (T F : nat) (rates : list float64) (wv : wavelet)
    (level : Z) (col : nat) (s_mask : matrix float64) (g : rng) :
  let coeffs := wavedec (column signal T F col) wv level in
  (forall coeffs' g',
     mask_coeffs rates coeffs g = Ok (coeffs', g') -> coeffs' !! 0 = coeffs !! 0)
  /\ (rates <> [] ->
      exists coeffs',
        let g' := skip (draws_before coeffs (length coeffs)) g in
        mask_coeffs rates coeffs g = Ok (coeffs', g')
        /\ augment_column signal T F rates wv level col s_mask g
           = lift (set_column Float32 T s_mask col
                     (slice_to (Z.of_nat T) (waverec coeffs' wv))) g'
        /\ length coeffs' = length coeffs
        /\ coeffs' !! 0 = coeffs !! 0
        /\ forall i c_i, 1 <= i -> coeffs !! i = Some c_i ->
             let selected_rate := nth (Nat.min i (length rates - 1)) rates F64.nan in
             select_rate rates i = Ok selected_rate
             /\ (i < length rates -> rates !! i = Some selected_rate)
             /\ (length rates <= i -> last rates = Some selected_rate)
             /\ exists c_i',
                  coeffs' !! i = Some c_i'
                  /\ length c_i' = length c_i
                  /\ forall j x, c_i !! j = Some x ->
                       let u := rng_float g (rng_pos g + draws_before coeffs i + j) in
                       c_i' !! j
                       = Some (if F64.ltb u selected_rate then F64.zero else x)).
Proof.
  intros coeffs. split; [intros coeffs' g'; apply mask_coeffs_keeps_approximation|].
  intros Hne.
  destruct (mask_coeffs_draws rates coeffs g Hne) as (coeffs' & Hrun & Hlen & Hcs).
  exists coeffs'. cbv zeta. split; [exact Hrun|]. split; [|split; [exact Hlen|split]].
  - unfold augment_column. fold coeffs. run Hrun. reflexivity.
  - destruct (coeffs !! 0) as [c0|] eqn:H0.
    + rewrite (Hcs 0 c0 H0). reflexivity.
    + apply lookup_ge_None in H0. apply lookup_ge_None. lia.
  - intros i c_i Hge Hc. split; [apply select_rate_ok; assumption|].
    assert (Hl : 0 < length rates) by (destruct rates; [congruence|simpl; lia]).
    split; [|split].
    + intros Hlt. rewrite Nat.min_l by lia.
      destruct (lookup_lt_is_Some_2 rates i Hlt) as [r Hr].
      rewrite nth_lookup, Hr. reflexivity.
    + intros Hle. rewrite Nat.min_r by lia. rewrite last_lookup.
      replace (pred (length rates)) with (length rates - 1) by lia.
      destruct (lookup_lt_is_Some_2 rates (length rates - 1)) as [r Hr]; [lia|].
      rewrite nth_lookup, Hr. reflexivity.
    + eexists. split; [rewrite (Hcs i c_i Hc)|split].
      * replace (1 <=? i) with true by (symmetry; apply Nat.leb_le; lia). reflexivity.
      * apply length_mask_where. rewrite length_fmap. apply length_next_floats.
      * intros j x Hx.
        assert (Hj : j < length c_i) by (apply lookup_lt_Some in Hx; assumption).
        rewrite (mask_where_lookup _ _ j
                   (F64.ltb (rng_float g (rng_pos g + draws_before coeffs i + j))
                      (rate_at rates i)) x); [reflexivity| |assumption].
        rewrite list_lookup_fmap, (next_floats_lookup _ _ _ Hj). simpl.
        do 3 f_equal. lia.
Qed.

Lemma approximation_kept_details_masked_by_rate_witness :
  [F64.one] <> []
  /\ exists coeffs',
       mask_coeffs [F64.one]
         (@wavedec stub_pywt (column ramp6 6 1 0) tt 2) g0 = Ok (coeffs', skip 3 g0)
       /\ coeffs' !! 0 = Some (F64.of_Z <$> [1; 2; 3]%Z)
       /\ coeffs' !! 1 = Some [F64.zero; F64.zero; F64.zero].
Proof.
  assert (Hne : [F64.one] <> []) by discriminate.
  split; [exact Hne|].
  destruct (@approximation_kept_details_masked_by_rate stub_pywt ramp6 6 1
              [F64.one] tt 2 0 (zeros 6 1) g0) as [_ Hmask].
  destruct (Hmask Hne) as (coeffs' & Hrun & _ & Hlen & H0 & Hdet).
  exists coeffs'. split; [exact Hrun|]. split; [exact H0|].
  destruct (Hdet 1 (F64.of_Z <$> [4; 5; 6]%Z) ltac:(lia) eq_refl)
    as (_ & _ & _ & c' & Hc' & Hl & Hel).
  rewrite Hc'. f_equal.
  destruct c' as [|a [|b [|c [|d c']]]]; try discriminate.
  pose proof (Hel 0 _ eq_refl) as Ha. pose proof (Hel 1 _ eq_refl) as Hb.
  pose proof (Hel 2 _ eq_refl) as Hc.
  simpl in Ha, Hb, Hc. congruence.
Defined.


Section Reconstruction.
Context {W : PyWavelets} {WL : PyWaveletsLaws W}.



End Reconstruction.


Lemma Forall_data_of_columns (P : float64 -> Prop) dt T (cols : matrix float64) :
  P F64.zero -> Forall (Forall P) cols -> Forall P (data (of_columns dt T cols)).
Proof.
  intros H0 Hcols. simpl.
  induction (seq 0 T) as [|t ts IH]; simpl; [constructor|].
  apply Forall_app. split; [|exact IH].
  unfold row_of. apply Forall_fmap.
  eapply Forall_impl; [exact Hcols|]. intros c Hc. simpl.
  rewrite nth_lookup. destruct (c !! t) as [x|] eqn:Hx; simpl; [|exact H0].
  eapply Forall_lookup_1; eassumption.
Qed.

Lemma Forall_buffer_float32 (buf : matrix float64) F :
  length buf = F ->
  (forall col, col < F -> exists v, buf !! col = Some (F64.to_f32 <$> v)) ->
  Forall (Forall (fun y => is_float32 y = true)) buf.
Proof.
  intros Hlen Hcols. apply Forall_lookup. intros col c Hc.
  destruct (Hcols col) as [v Hv]; [apply lookup_lt_Some in Hc; lia|].
  assert (c = F64.to_f32 <$> v) by congruence. subst c.
  apply Forall_fmap, Forall_forall. intros x _. apply to_f32_is_float32.
Qed.

(** C10. Whatever [WaveAug.augment] and [WaveAug.augment_multi] return
    is an array of dtype float32, whatever the dtype of the input is, and
    its values are the reconstruction rounded to single precision: every
    column is the first T samples of the reconstruction of that column,
    each one converted by [F64.to_f32], and every element of the result
    is a float32 value, with at most 24 significant bits and an exponent
    in the range of binary32.  The conversion gives a float32 value, next
    to the double it converts (half a unit in the last place away from it
    at most, and of its sign), and it leaves a value unchanged when it is
    a float32 value already. *)
Theorem wave_aug_returns_float32 {W : PyWavelets} {WL : PyWaveletsLaws W}
    (signal signal2 : ndarray) (rates : list float64) (wv : wavelet)
    (level : Z) (g : rng) :
  (forall out g',
     WaveAug.augment signal rates wv level g = Ok (out, g') ->
     nd_dtype out = Float32
     /\ Forall (fun y => is_float32 y = true) (data out)
     /\ exists T F,
          dims signal T F
          /\ forall col, col < F ->
               exists coeffs' g1 g2,
                 mask_coeffs rates (wavedec (column signal T F col) wv level) g1
                   = Ok (coeffs', g2)
                 /\ column out T F col = F64.to_f32 <$> take T (waverec coeffs' wv))
  /\ (forall out g',
        WaveAug.augment_multi signal signal2 rates wv level g = Ok (out, g') ->
        nd_dtype out = Float32
        /\ Forall (fun y => is_float32 y = true) (data out)
        /\ exists T F,
             dims signal T F
             /\ forall col, col < F ->
                  exists mixed_coeffs g1 g2,
                    for_each (seq 0 (length (wavedec (column signal T F col) wv level)))
                      (mix_step rates (wavedec (column signal T F col) wv level)
                         (wavedec (column signal2 T F col) wv level)) [] g1
                      = Ok (mixed_coeffs, g2)
                    /\ column out T F col
                       = F64.to_f32 <$> take T (waverec mixed_coeffs wv))
  /\ (forall x, is_float32 (F64.to_f32 x) = true)
  /\ (forall s m e, nearest_float32 s m e (F64.to_f32 (S754_finite s m e)))
  /\ (forall x, is_float32 x = true -> F64.to_f32 x = x).
Proof.
  split; [|split; [|split; [exact to_f32_is_float32|
                            split; [exact to_f32_nearest|exact to_f32_float32]]]].
  - intros out g' H.
    apply augment_inv in H as (T & F & buf & Hd & -> & Hlen & Hcols).
    split; [rewrite restore_dtype; reflexivity|]. split.
    { rewrite restore_data. apply Forall_data_of_columns; [reflexivity|].
      apply (Forall_buffer_float32 buf F Hlen). intros col Hcol.
      destruct (Hcols col Hcol) as (coeffs' & v & g1 & g2 & _ & _ & Hb). eauto. }
    exists T, F. split; [assumption|]. intros col Hcol.
    destruct (Hcols col Hcol) as (coeffs' & v & g1 & g2 & Hm & Hv & Hb).
    pose proof (mask_coeffs_lengths _ _ _ _ _ Hm) as Hlens.
    pose proof (waverec_length _ _ _ _ Hlens) as Hrec. rewrite length_column in Hrec.
    assert (Hl : length (take T (waverec coeffs' wv)) = T) by (rewrite length_take; lia).
    rewrite broadcast_to_same in Hv by assumption. injection Hv as <-.
    exists coeffs', g1, g2. split; [assumption|].
    rewrite column_restore. apply column_of_buffer; [assumption|assumption|].
    rewrite length_fmap. assumption.
  - intros out g' H.
    apply augment_multi_inv in H as (T & F & buf & _ & Hd & -> & Hlen & Hcols).
    split; [rewrite restore_dtype; reflexivity|]. split.
    { rewrite restore_data. apply Forall_data_of_columns; [reflexivity|].
      apply (Forall_buffer_float32 buf F Hlen). intros col Hcol.
      destruct (Hcols col Hcol) as (mixed & v & g1 & g2 & _ & _ & Hb). eauto. }
    exists T, F. split; [assumption|]. intros col Hcol.
    destruct (Hcols col Hcol) as (mixed & v & g1 & g2 & Hm & Hv & Hb).
    assert (Hlens : length <$> mixed = length <$> wavedec (column signal T F col) wv level).
    { eapply mix_loop_lengths; [|exact Hm].
      apply wavedec_lengths. rewrite !length_column. reflexivity. }
    pose proof (waverec_length _ _ _ _ Hlens) as Hrec. rewrite length_column in Hrec.
    assert (Hl : length (take T (waverec mixed wv)) = T) by (rewrite length_take; lia).
    rewrite broadcast_to_same in Hv by assumption. injection Hv as <-.
    exists mixed, g1, g2. split; [assumption|].
    rewrite column_restore. apply column_of_buffer; [assumption|assumption|].
    rewrite length_fmap. assumption.
Qed.

(** The narrowing changes values: 0.1 as a double is not 0.1 as a single. *)
Example to_f32_rounds :
  F64.to_f32 (S754_finite false 3602879701896397 (-55))
  = S754_finite false 13421773 (-27).
Proof. reflexivity. Qed.

Lemma wave_aug_returns_float32_witness :
  nd_dtype ramp6 = Float64
  /\ exists out g',
       WaveAug.augment (W := stub_pywt) ramp6 [F64.half] tt 2 g0 = Ok (out, g')
       /\ nd_dtype out = Float32
       /\ Forall (fun y => is_float32 y = true) (data out).
Proof.
  split; [reflexivity|].
  destruct (@augment_returns stub_pywt stub_pywt_laws ramp6 6 1 [F64.half] tt 2 g0)
    as (out & g' & Hrun); [right; split; reflexivity|discriminate|].
  destruct (@wave_aug_returns_float32 stub_pywt stub_pywt_laws ramp6 ramp6
              [F64.half] tt 2 g0) as (Haug & _).
  destruct (Haug out g' Hrun) as (Hdt & Hall & _).
  exists out, g'. auto.
Defined.

(** ** The fallback of [emd_augmentation] *)

(** [x + 0.0] is [x], up to the sign of a zero. *)
Lemma plus_zero_cases (x : float64) :
  plus_zero x = x \/ (x = F64.neg_zero /\ plus_zero x = F64.zero).
Proof. destruct x as [[]|[]| |[] m e]; auto. Qed.

Section ZeroModes.
Context {E : PyEMD} {EL : PyEMDLaws E}.

(** The iteration on a column in which the solver finds no mode. *)
Lemma emd_column_fallback signal T F n_imf p imf_rate i buf g :
  i < length buf -> emd (column signal T F i) n_imf = [] ->
  emd_column signal T F n_imf p imf_rate i buf g
  = Ok (<[i := store (nd_dtype signal) <$> column signal T F i]> buf, g).
Proof.
  intros Hi He.
  destruct (emd_column_total signal T F n_imf p imf_rate i buf g Hi)
    as (v & g' & Hstep & _ & Hv); [congruence|].
  destruct (Hv He) as [-> ->]. exact Hstep.
Qed.

(** The buffer that the loop over the columns leaves holds, for every
    column without modes, the column of the signal. *)
Lemma emd_loop_zero_modes signal T F n_imf p imf_rate g buf g' :
  for_each (seq 0 F) (emd_column signal T F n_imf p imf_rate) (zeros T F) g
    = Ok (buf, g') ->
  length buf = F
  /\ forall i, i < F -> emd (column signal T F i) n_imf = [] ->
       buf !! i = Some (store (nd_dtype signal) <$> column signal T F i).
Proof.
  intros Hloop.
  destruct (fill_columns_partial
              (fun i c => emd (column signal T F i) n_imf = [] ->
                          c = store (nd_dtype signal) <$> column signal T F i)
              _ F (zeros T F) g buf g' Hloop (length_zeros T F)) as [Hlen Hcols].
  - intros j b ga b' gb Hj Hb Hstep.
    destruct (emd (column signal T F j) n_imf) as [|imf0 IMF0] eqn:He.
    + destruct (emd_column_no_mode _ _ _ _ _ _ _ _ _ _ _ Hstep He) as [-> _].
      eexists. split; [reflexivity|]. intros _. reflexivity.
    + assert (Hne : emd (column signal T F j) n_imf <> []) by (rewrite He; discriminate).
      destruct (emd_column_inv _ _ _ _ _ _ _ _ _ _ _ Hstep Hne)
        as (z & ws & _ & _ & _ & _ & -> & _).
      eexists. split; [reflexivity|]. intros Hc. discriminate.
  - split; [exact Hlen|]. intros i Hi He.
    destruct (Hcols i Hi) as (c & Hc & Hz). rewrite Hc, (Hz He). reflexivity.
Qed.

(** When no column has modes the loop returns the columns of the signal
    and draws nothing. *)
Lemma emd_loop_all_zero_modes signal T F n_imf p imf_rate g :
  (forall i, i < F -> emd (column signal T F i) n_imf = []) ->
  exists buf,
    for_each (seq 0 F) (emd_column signal T F n_imf p imf_rate) (zeros T F) g
      = Ok (buf, g)
    /\ length buf = F
    /\ forall i, i < F ->
         buf !! i = Some (store (nd_dtype signal) <$> column signal T F i).
Proof.
  intros Hall.
  destruct (fill_columns_total_gen (fun g1 => g1 = g)
              (fun i c => c = store (nd_dtype signal) <$> column signal T F i)
              (emd_column signal T F n_imf p imf_rate) F (zeros T F) g
              (length_zeros T F) eq_refl)
    as (buf & g' & Hrun & Hlen & -> & Hcols).
  - intros i b g1 Hi Hb ->. eexists _, g. split; [|split; reflexivity].
    apply emd_column_fallback; [lia|apply Hall; assumption].
  - exists buf. split; [exact Hrun|]. split; [exact Hlen|].
    intros i Hi. destruct (Hcols i Hi) as (c & Hc & ->). exact Hc.
Qed.

(** C4, as the code has it.  A column in which the EMD solver finds no
    mode makes its iteration neither raise nor draw a random number: the
    iteration stores the column itself.  On a float64 signal that column
    of what the operator returns is the input column after the
    post-processing (offset added, then clipped); with the default offset
    0.0 and no clip bounds it is the input column, equal to it in every
    element up to the sign of a zero ([-0.0 + 0.0] is [+0.0]), and a
    signal whose every column is without modes is returned whole in that
    form, without a draw.  On an integer signal the operator never
    returns: when the loop over the columns comes to its end,
    [augmented_signal += offset] raises [UFuncTypeError], also for a
    signal whose every column is without modes and the default offset. *)
Theorem emd_zero_modes_column_is_post_processed
    (signal : ndarray) (T F : nat) (n_imf : Z)
    (random_weight_prob imf_rate : float64)
    (clip_min clip_max : option float64) (offset : float64) (g : rng) :
  dims signal T F ->
  let call :=
    emd_augmentation signal n_imf random_weight_prob imf_rate clip_min clip_max offset g in
  let post := fun x => clip1 clip_min clip_max (F64.add x offset) in
  let same_number := fun x y => y = x \/ (x = F64.neg_zero /\ y = F64.zero) in
  (forall i buf g1, i < length buf -> emd (column signal T F i) n_imf = [] ->
     emd_column signal T F n_imf random_weight_prob imf_rate i buf g1
     = Ok (<[i := store (nd_dtype signal) <$> column signal T F i]> buf, g1))
  /\ (nd_dtype signal = Float64 ->
      forall out g', call = Ok (out, g') ->
      forall i, i < F -> emd (column signal T F i) n_imf = [] ->
        column out T F i = post <$> column signal T F i
        /\ (offset = F64.zero -> clip_min = None -> clip_max = None ->
            column out T F i = plus_zero <$> column signal T F i
            /\ Forall2 same_number (column signal T F i) (column out T F i)))
  /\ (nd_dtype signal = Float64 -> well_formed signal ->
      (forall i, i < F -> emd (column signal T F i) n_imf = []) ->
      exists out,
        call = Ok (out, g)
        /\ shape out = shape signal
        /\ data out = post <$> data signal
        /\ (offset = F64.zero -> clip_min = None -> clip_max = None ->
            data out = plus_zero <$> data signal
            /\ Forall2 same_number (data signal) (data out)))
  /\ (nd_dtype signal = Int64 ->
      (forall out g', call <> Ok (out, g'))
      /\ ((forall i, i < F -> emd (column signal T F i) n_imf = []) ->
          call = Raise UFuncTypeError)).
Proof.
  intros Hd call post same_number.
  destruct (dims_unpack signal T F Hd) as (_ & Hdata & Hdt').
  pose proof (emd_augmentation_run signal T F n_imf random_weight_prob imf_rate
                clip_min clip_max offset g Hd) as Hrun.
  cbv zeta in Hrun. fold call in Hrun.
  set (signal' := if ndim signal =? 1 then reshape_column signal else signal) in *.
  assert (Hcol : forall i, column signal' T F i = column signal T F i).
  { intros j. unfold column. rewrite Hdata. reflexivity. }
  assert (Hsame : forall l : list float64, Forall2 same_number l (plus_zero <$> l)).
  { intros l. induction l as [|x l IH]; simpl; constructor; [|exact IH].
    unfold same_number. destruct (plus_zero_cases x) as [->|[-> ->]]; auto. }
  assert (Hout : forall (a : ndarray),
            data (if length (shape signal) =? 1
                  then flatten (offset_then_clip a offset clip_min clip_max)
                  else offset_then_clip a offset clip_min clip_max)
            = post <$> data a).
  { intros a. rewrite restore_data. apply data_offset_then_clip. }
  split; [|split; [|split]].
  - intros i buf g1 Hi He. apply emd_column_fallback; assumption.
  - intros Hdt out g' Hcall i Hi He.
    rewrite Hrun in Hcall.
    destruct (for_each (seq 0 F) _ (zeros T F) g) as [[buf g1]|e] eqn:Hloop;
      [|discriminate].
    rewrite post_process_float in Hcall by (simpl; rewrite Hdt; discriminate).
    injection Hcall as <- <-.
    destruct (emd_loop_zero_modes _ _ _ _ _ _ _ _ _ Hloop) as [Hlen Hcols].
    assert (Hb : buf !! i = Some (column signal T F i)).
    { rewrite (Hcols i Hi) by (rewrite Hcol; exact He).
      rewrite Hdt', Hdt, store_float64, Hcol. reflexivity. }
    assert (Hc : column (if length (shape signal) =? 1
                         then flatten (offset_then_clip (of_columns (nd_dtype signal) T buf)
                                         offset clip_min clip_max)
                         else offset_then_clip (of_columns (nd_dtype signal) T buf)
                                offset clip_min clip_max) T F i
                 = post <$> column signal T F i).
    { rewrite (column_fmap post (of_columns (nd_dtype signal) T buf));
        [|apply length_data_of_columns; assumption|assumption|apply Hout].
      f_equal. apply column_of_buffer; [assumption|assumption|apply length_column]. }
    split; [exact Hc|].
    intros -> -> ->. rewrite Hc. unfold post. simpl.
    rewrite fmap_add_zero. split; [reflexivity|apply Hsame].
  - intros Hdt Wf Hall.
    destruct (emd_loop_all_zero_modes signal' T F n_imf random_weight_prob imf_rate g)
      as (buf & Hloop & Hlen & Hcols).
    { intros i Hi. rewrite Hcol. apply Hall. assumption. }
    rewrite Hloop in Hrun.
    rewrite post_process_float in Hrun by (simpl; rewrite Hdt; discriminate).
    eexists. split; [exact Hrun|].
    assert (Hbuf : buf = columns signal T F).
    { apply list_eq. intros i. destruct (decide (i < F)) as [Hi|Hi].
      - rewrite (Hcols i Hi), Hdt', Hdt, store_float64, Hcol.
        rewrite lookup_columns by assumption. reflexivity.
      - rewrite !lookup_ge_None_2; [reflexivity|rewrite length_columns; lia|lia]. }
    assert (Hd0 : data (of_columns (nd_dtype signal) T buf) = data signal).
    { rewrite Hbuf. apply of_columns_columns. apply dims_length_data; assumption. }
    split; [|split].
    + apply (restore_shape _ _ T F Hd). rewrite shape_offset_then_clip. simpl.
      rewrite Hlen. reflexivity.
    + rewrite Hout, Hd0. reflexivity.
    + intros -> -> ->. rewrite Hout, Hd0. unfold post. simpl.
      rewrite fmap_add_zero. split; [reflexivity|apply Hsame].
  - intros Hint. split.
    + intros out g' Hcall. rewrite Hrun in Hcall.
      destruct (for_each (seq 0 F) _ (zeros T F) g) as [[buf g1]|e]; [|discriminate].
      rewrite post_process_int in Hcall by (simpl; exact Hint). discriminate.
    + intros Hall.
      destruct (emd_loop_all_zero_modes signal' T F n_imf random_weight_prob imf_rate g)
        as (buf & Hloop & _).
      { intros i Hi. rewrite Hcol. apply Hall. assumption. }
      rewrite Hloop in Hrun.
      rewrite post_process_int in Hrun by (simpl; exact Hint). exact Hrun.
Qed.
End ZeroModes.

Lemma emd_zero_modes_column_is_post_processed_witness :
  let signal := array2 2 2 [F64.zero; F64.one; F64.neg_zero; F64.two] in
  dims signal 2 2
  /\ @emd stub_emd (column signal 2 2 0) 10 = []
  /\ exists out g',
       emd_augmentation (E := stub_emd) signal 10 F64.half F64.one None None F64.zero g0
         = Ok (out, g')
       /\ column out 2 2 0 = [F64.zero; F64.zero].
Proof.
  cbv zeta.
  set (signal := array2 2 2 [F64.zero; F64.one; F64.neg_zero; F64.two]).
  assert (Hd : dims signal 2 2) by (left; reflexivity).
  split; [exact Hd|]. split; [reflexivity|].
  destruct (@emd_augmentation_spec stub_emd stub_emd_laws signal 2 2 10
              F64.half F64.one None None F64.zero g0 Hd)
    as (buf & g' & Hrun & _).
  { discriminate. }
  { intros i Hi Hne.
    destruct i as [|[|i]]; [exfalso; apply Hne; reflexivity|exists 1%Z; reflexivity|lia]. }
  eexists _, g'. split; [exact Hrun|].
  destruct (@emd_zero_modes_column_is_post_processed stub_emd stub_emd_laws signal 2 2 10
              F64.half F64.one None None F64.zero g0 Hd) as (_ & Hpart & _).
  destruct (Hpart eq_refl _ g' Hrun 0 ltac:(lia) eq_refl) as [_ Hdefault].
  destruct (Hdefault eq_refl eq_refl eq_refl) as [Hcol _].
  exact Hcol.
Defined.

(** C4 as stated fails on an integer signal: the solver finds no mode in a
    column of zeros, and the operator raises at
    [augmented_signal += offset], with the default offset 0.0 and no clip
    bounds, instead of returning the column. *)
Lemma emd_zero_modes_integer_signal_raises :
  @emd stub_emd (column (int_vector [0; 0; 0; 0; 0; 0]%Z) 6 1 0) 10 = []
  /\ emd_augmentation (E := stub_emd) (int_vector [0; 0; 0; 0; 0; 0]%Z)
       10 F64.half F64.one None None F64.zero g0
     = Raise UFuncTypeError.
Proof. split; reflexivity. Qed.

(** ** The shape of what is returned *)

(** C1. Whatever an operator returns has exactly the shape of its input:
    a signal of shape (T,) gives a result of shape (T,), a signal of shape
    (T, F) a result of shape (T, F), and the elements of the result fill
    that shape.  This holds of every call that returns, for every signal,
    every dtype, all arguments and every state of the generator; whether a
    call returns is not its subject. *)
Theorem operators_preserve_shape
    {N : Numpy} {E : PyEMD} {W : PyWavelets}
    (signal signal2 : ndarray) (rate n_imf : Z)
    (random_weight_prob imf_rate alpha mix_rate : float64)
    (clip_min clip_max : option float64) (offset : float64)
    (rates : list float64) (wv : wavelet) (level : Z) (g : rng) :
  (forall out g',
     dominant_shuffle signal rate clip_min clip_max offset g = Ok (out, g') ->
     shape out = shape signal /\ well_formed out)
  /\ (forall out g',
        emd_augmentation signal n_imf random_weight_prob imf_rate
          clip_min clip_max offset g = Ok (out, g') ->
        shape out = shape signal /\ well_formed out)
  /\ (forall out g',
        mix_augmentation signal signal2 alpha mix_rate clip_min clip_max offset g
          = Ok (out, g') ->
        shape out = shape signal
        /\ (well_formed signal -> well_formed signal2 -> well_formed out))
  /\ (forall out g',
        WaveAug.augment signal rates wv level g = Ok (out, g') ->
        shape out = shape signal /\ well_formed out)
  /\ (forall out g',
        WaveAug.augment_multi signal signal2 rates wv level g = Ok (out, g') ->
        shape out = shape signal /\ well_formed out).
Proof.
  split; [|split; [|split; [|split]]].
  - intros out g'. apply dominant_shuffle_returned_shape.
  - intros out g'. apply emd_augmentation_returned_shape.
  - intros out g' Hrun. split.
    + eapply mix_augmentation_shape. exact Hrun.
    + intros W1 W2. eapply mix_augmentation_well_formed; [exact W1|exact W2|exact Hrun].
  - intros out g'. apply augment_returned_shape.
  - intros out g'. apply augment_multi_returned_shape.
Qed.

Lemma operators_preserve_shape_witness :
  (exists out g',
     dominant_shuffle (N := stub_numpy) grid32 4 None None F64.zero g0 = Ok (out, g')
     /\ shape out = [3; 2])
  /\ (exists out g',
        emd_augmentation (E := stub_emd) grid32 10 F64.half F64.one None None F64.zero g0
          = Ok (out, g')
        /\ shape out = [3; 2])
  /\ (exists out g',
        mix_augmentation grid32 grid32 F64.half F64.one None None F64.zero g0
          = Ok (out, g')
        /\ shape out = [3; 2])
  /\ (exists out g',
        WaveAug.augment (W := stub_pywt) grid32 [F64.half] tt 2 g0 = Ok (out, g')
        /\ shape out = [3; 2])
  /\ (exists out g',
        WaveAug.augment_multi (W := stub_pywt) grid32 grid32 [F64.half] tt 2 g0
          = Ok (out, g')
        /\ shape out = [3; 2])
  /\ (exists out g',
        dominant_shuffle (N := stub_numpy) ramp6 4 None None F64.zero g0 = Ok (out, g')
        /\ shape out = [6]).
Proof.
  assert (Hd : dims grid32 3 2) by (left; reflexivity).
  assert (Hd1 : dims ramp6 6 1) by (right; split; reflexivity).
  destruct (@operators_preserve_shape stub_numpy stub_emd stub_pywt grid32 grid32 4 10
              F64.half F64.one F64.half F64.one None None F64.zero
              [F64.half] tt 2 g0)
    as (S1 & S2 & S3 & S4 & S5).
  destruct (@operators_preserve_shape stub_numpy stub_emd stub_pywt ramp6 ramp6 4 10
              F64.half F64.one F64.half F64.one None None F64.zero
              [F64.half] tt 2 g0)
    as (S1' & _).
  split; [|split; [|split; [|split; [|split]]]].
  - destruct (@dominant_shuffle_shape stub_numpy stub_numpy_laws grid32 3 2 4
                None None F64.zero g0 Hd) as (out & g' & Hrun & _); [lia|].
    exists out, g'. split; [exact Hrun|apply (S1 out g' Hrun)].
  - destruct (@emd_augmentation_spec stub_emd stub_emd_laws grid32 3 2 10
                F64.half F64.one None None F64.zero g0 Hd) as (buf & g' & Hrun & _).
    { discriminate. }
    { intros i Hi _. exists 1%Z.
      destruct i as [|[|i]]; [reflexivity|reflexivity|lia]. }
    eexists _, g'. split; [exact Hrun|apply (S2 _ g' Hrun)].
  - assert (Hfloat : nd_dtype grid32 <> Int64) by discriminate.
    pose proof (mix_augmentation_returns grid32 grid32 F64.half F64.one
                  None None F64.zero g0 3 3 eq_refl eq_refl eq_refl eq_refl Hfloat)
      as Hrun.
    eexists _, _. split; [exact Hrun|apply (S3 _ _ Hrun)].
  - destruct (@augment_returns stub_pywt stub_pywt_laws grid32 3 2 [F64.half] tt 2 g0 Hd)
      as (out & g' & Hrun); [discriminate|].
    exists out, g'. split; [exact Hrun|apply (S4 out g' Hrun)].
  - destruct (@augment_multi_returns stub_pywt stub_pywt_laws grid32 grid32 3 2
                [F64.half] tt 2 g0 Hd eq_refl) as (out & g' & Hrun); [discriminate|].
    exists out, g'. split; [exact Hrun|apply (S5 out g' Hrun)].
  - destruct (@dominant_shuffle_shape stub_numpy stub_numpy_laws ramp6 6 1 4
                None None F64.zero g0 Hd1) as (out & g' & Hrun & _); [lia|].
    exists out, g'. split; [exact Hrun|apply (S1' out g' Hrun)].
Defined.
